(** * Videotosrt: the segmentation, timecode and rendering core

    A shallow embedding of [AdvancedSubtitleGenerator] (src/Videotosrt.py):
    [_process_results], [_optimize_segmentation], [_merge_segment],
    [_generate_srt] and [_format_time], together with the part of the
    Python runtime these methods rely on (binary64 floats, [divmod],
    [int], [round], the [06.3f] and [02] format specifications and a few
    [str] methods). *)

From Stdlib Require Import ZArith List String Ascii Bool Lia.
From Stdlib Require Import DecimalString.
From Stdlib Require Floats.SpecFloat.
Import ListNotations.

Local Open Scope Z_scope.

(** ** Python exceptions and the error monad *)

Inductive exn : Type :=
| IndexError
| ValueError
| OverflowError
| ZeroDivisionError.

Inductive result (A : Type) : Type :=
| Ok (a : A)
| Raise (e : exn).

Arguments Ok {A} a.
Arguments Raise {A} e.

Definition bind {A B : Type} (r : result A) (k : A -> result B) : result B :=
  match r with
  | Ok a => k a
  | Raise e => Raise e
  end.

Notation "x <- c ;; k" := (bind c (fun x => k))
  (at level 61, c at next level, right associativity).
Notation "' p <- c ;; k" := (bind c (fun x => let p := x in k))
  (at level 61, p pattern, c at next level, right associativity).

Fixpoint mapM {A B : Type} (f : A -> result B) (l : list A) : result (list B) :=
  match l with
  | [] => Ok []
  | a :: l' => b <- f a ;; bs <- mapM f l' ;; Ok (b :: bs)
  end.

(** ** Python floats

    A finite binary64 value is an integer multiple of the smallest
    subnormal [2^-1074].  [Fin neg mag] stands for
    [(-1)^neg * mag * 2^-1074]; the sign is kept apart so that the two
    zeros are distinct.  Arithmetic is exact arithmetic on these integers
    followed by rounding to nearest, ties to even, onto 53 significant
    bits. *)

Module Float.

Inductive float : Type :=
| NaN
| Inf (neg : bool)
| Fin (neg : bool) (mag : Z).

(** One in units of [2^-1074]. *)
Definition one_units : Z := 2 ^ 1074.

(** First magnitude that no longer fits: [2^1024] in units of [2^-1074]. *)
Definition overflow_units : Z := 2 ^ 2098.

Definition signed (neg : bool) (mag : Z) : Z := if neg then - mag else mag.

(** Euclidean division.  Magnitudes in units of [2^-1074] end in long
    runs of zero bits; the factors of two common to [p] and [q] are
    cancelled before dividing, which keeps evaluation cheap. *)
Fixpoint cancel_twos (p q g : positive) : positive * positive * positive :=
  match p, q with
  | xO p', xO q' => cancel_twos p' q' (xO g)
  | _, _ => (p, q, g)
  end.

Definition div_mod (p q : Z) : Z * Z :=
  match p, q with
  | Zpos a, Zpos b =>
      let '(a', b', g) := cancel_twos a b xH in
      (Zpos a' / Zpos b', Zpos a' mod Zpos b' * Zpos g)
  | _, _ => (p / q, p mod q)
  end.

(** Quotient [p / q] rounded to the nearest integer, ties to even. *)
Definition round_half_even (p q : Z) : Z :=
  let '(d, r) := div_mod p q in
  match 2 * r ?= q with
  | Lt => d
  | Gt => d + 1
  | Eq => if Z.even d then d else d + 1
  end.

(** Spacing of the binary64 grid around [p / q] units. *)
Definition quantum (p q : Z) : Z :=
  2 ^ Z.max 0 (Z.log2 (fst (div_mod p q)) - 52).

(** The grid of binary64 magnitudes around [v] units: 53 significant
    bits. *)
Definition grid (v : Z) : Z := 2 ^ Z.max 0 (Z.log2 v - 52).

(** The binary64 magnitude nearest to [p / q] units ([0 <= p], [0 < q]). *)
Definition round_units (p q : Z) : Z :=
  let u := quantum p q in round_half_even p (q * u) * u.

Definition of_exact (neg : bool) (p q : Z) : float :=
  let n := round_units p q in
  if n <? overflow_units then Fin neg n else Inf neg.

(** A finite value is a binary64 number when it is below the overflow
    threshold and lies on its grid. *)
Definition is_binary64 (x : float) : bool :=
  match x with
  | Fin _ mag =>
      (0 <=? mag) && (mag <? overflow_units) &&
      (snd (div_mod mag (grid mag)) =? 0)
  | _ => true
  end.

Definition is_finite (x : float) : bool :=
  match x with Fin _ _ => true | _ => false end.

(** The float nearest to the integer [z] and to the decimal [num / den]. *)
Definition of_Z (z : Z) : float :=
  of_exact (z <? 0) (Z.abs z * one_units) 1.

Definition of_ratio (num den : Z) : float :=
  of_exact (num <? 0) (Z.abs num * one_units) den.

Definition fneg (x : float) : float :=
  match x with
  | NaN => NaN
  | Inf s => Inf (negb s)
  | Fin s m => Fin (negb s) m
  end.

Definition fadd (x y : float) : float :=
  match x, y with
  | NaN, _ | _, NaN => NaN
  | Inf a, Inf b => if Bool.eqb a b then Inf a else NaN
  | Inf a, Fin _ _ => Inf a
  | Fin _ _, Inf b => Inf b
  | Fin a m, Fin b n =>
      let z := signed a m + signed b n in
      if z =? 0 then Fin (a && b) 0
      else of_exact (z <? 0) (Z.abs z) 1
  end.

Definition fsub (x y : float) : float := fadd x (fneg y).

Definition fdiv (x y : float) : float :=
  match x, y with
  | NaN, _ | _, NaN => NaN
  | Inf _, Inf _ => NaN
  | Inf a, Fin b _ => Inf (xorb a b)
  | Fin a _, Inf b => Fin (xorb a b) 0
  | Fin a m, Fin b n =>
      if n =? 0 then (if m =? 0 then NaN else Inf (xorb a b))
      else if m =? 0 then Fin (xorb a b) 0
      else of_exact (xorb a b) (m * one_units) n
  end.

Definition fcompare (x y : float) : option comparison :=
  match x, y with
  | NaN, _ | _, NaN => None
  | Inf a, Inf b =>
      Some (match a, b with
            | true, false => Lt
            | false, true => Gt
            | _, _ => Eq
            end)
  | Inf a, Fin _ _ => Some (if a then Lt else Gt)
  | Fin _ _, Inf b => Some (if b then Gt else Lt)
  | Fin a m, Fin b n => Some (signed a m ?= signed b n)
  end.

Definition feqb (x y : float) : bool :=
  match fcompare x y with Some Eq => true | _ => false end.

Definition fltb (x y : float) : bool :=
  match fcompare x y with Some Lt => true | _ => false end.

Definition fleb (x y : float) : bool :=
  match fcompare x y with Some (Lt | Eq) => true | _ => false end.

Definition fgtb (x y : float) : bool := fltb y x.

Definition zero : float := Fin false 0.
Definition one : float := Fin false one_units.
Definition half : float := Fin false (one_units / 2).

(** C truth value of a double: [x != 0.0]. *)
Definition nonzero (x : float) : bool :=
  match x with
  | Fin _ m => negb (m =? 0)
  | _ => true
  end.

Definition sign_bit (x : float) : bool :=
  match x with
  | NaN => false
  | Inf s => s
  | Fin s _ => s
  end.

Definition copysign (x y : float) : float :=
  match x with
  | NaN => NaN
  | Inf _ => Inf (sign_bit y)
  | Fin _ m => Fin (sign_bit y) m
  end.

(** C [fmod]: the remainder has the sign of [x] and is exact. *)
Definition fmod (x y : float) : float :=
  match x, y with
  | NaN, _ | _, NaN => NaN
  | Inf _, _ => NaN
  | Fin a m, Inf _ => Fin a m
  | Fin a m, Fin _ n => if n =? 0 then NaN else Fin a (snd (div_mod m n))
  end.

(** C [floor]. *)
Definition ffloor (x : float) : float :=
  match x with
  | Fin false m => Fin false (fst (div_mod m one_units) * one_units)
  | Fin true m =>
      let '(d, r) := div_mod m one_units in
      Fin true ((if r =? 0 then d else d + 1) * one_units)
  | _ => x
  end.

(** [divmod(vx, wx)] on floats: [float_divmod] and [_float_div_mod] of
    CPython's floatobject.c. *)
Definition float_divmod (vx wx : float) : result (float * float) :=
  if negb (nonzero wx) then Raise ZeroDivisionError
  else
    let mod0 := fmod vx wx in
    let div0 := fdiv (fsub vx mod0) wx in
    let '(mod_, div) :=
      if nonzero mod0 then
        if xorb (fltb wx zero) (fltb mod0 zero)
        then (fadd mod0 wx, fsub div0 one)
        else (mod0, div0)
      else (copysign zero wx, div0) in
    let floordiv :=
      if nonzero div then
        let fl := ffloor div in
        if fgtb (fsub div fl) half then fadd fl one else fl
      else copysign zero (fdiv vx wx) in
    Ok (floordiv, mod_).

(** [int(x)]: truncation toward zero. *)
Definition int_of_float (x : float) : result Z :=
  match x with
  | NaN => Raise ValueError
  | Inf _ => Raise OverflowError
  | Fin s m => Ok (signed s (fst (div_mod m one_units)))
  end.

(** [round(x, 2)]: the exact value rounded to two decimals, ties to
    even, then the float nearest to that decimal. *)
Definition round2 (x : float) : float :=
  match x with
  | Fin s m =>
      let hundredths := round_half_even (m * 100) one_units in
      if hundredths =? 0 then Fin s 0
      else of_exact s (hundredths * one_units) 100
  | _ => x
  end.

(** Bridge to the IEEE 754 specification of the Standard Library, used
    to cross-check the operations above on sample values. *)
Definition of_spec (x : SpecFloat.spec_float) : float :=
  match x with
  | SpecFloat.S754_zero s => Fin s 0
  | SpecFloat.S754_infinity s => Inf s
  | SpecFloat.S754_nan => NaN
  | SpecFloat.S754_finite s m e => Fin s (Z.pos m * 2 ^ (e + 1074))
  end.

End Float.

Import Float.

(** ** Python strings and lists *)

(** The line break ["\n"]. *)
Definition nl : string := String "010"%char EmptyString.

(** [len(s)] as a Python int. *)
Definition len (s : string) : Z := Z.of_nat (String.length s).

(** [sum(xs)] over Python ints: left to right, starting from [0]. *)
Definition sum (xs : list Z) : Z := fold_left Z.add xs 0.

(** Decimal digits of a natural number. *)
Definition digits (n : Z) : string := NilZero.string_of_uint (N.to_uint (Z.to_N n)).

Fixpoint zeros (k : nat) : string :=
  match k with
  | O => EmptyString
  | S k' => String "0" (zeros k')
  end.

(** Zero padding to [width] characters, the sign first: the fill of the
    format specifications [02] and [06.3f]. *)
Definition zero_pad (width : nat) (neg : bool) (body : string) : string :=
  let sign := if neg then "-"%string else EmptyString in
  (sign ++ zeros (width - String.length sign - String.length body) ++ body)%string.

(** [str(n)] and [format(n, "02")] for a Python int. *)
Definition str_of_int (n : Z) : string := zero_pad 0 (n <? 0) (digits (Z.abs n)).
Definition format_02 (n : Z) : string := zero_pad 2 (n <? 0) (digits (Z.abs n)).

(** Three decimals of a number of thousandths. *)
Definition format_03 (n : Z) : string := zero_pad 3 false (digits n).

(** [format(x, "06.3f")]: the exact value rounded to three decimals,
    ties to even, zero padded to six characters. *)
Definition format_06_3f (x : float) : string :=
  match x with
  | NaN => "000nan"%string
  | Inf false => "000inf"%string
  | Inf true => "-00inf"%string
  | Fin s m =>
      let thousandths := round_half_even (m * 1000) one_units in
      zero_pad 6 s
        (digits (thousandths / 1000) ++ "." ++ format_03 (thousandths mod 1000))
  end.

(** [s.replace(a, b)] for one-character [a] and [b]. *)
Fixpoint replace (a b : ascii) (s : string) : string :=
  match s with
  | EmptyString => EmptyString
  | String c s' => String (if Ascii.eqb c a then b else c) (replace a b s')
  end.

(** White space is the ASCII part of [str.isspace], and the two case
    conversions below are those of the ASCII letters. *)
Definition is_space (c : ascii) : bool :=
  let n := N_of_ascii c in
  (((9 <=? n) && (n <=? 13)) || ((28 <=? n) && (n <=? 32)))%N.

Definition upper_char (c : ascii) : ascii :=
  let n := N_of_ascii c in
  if ((97 <=? n) && (n <=? 122))%N then ascii_of_N (n - 32) else c.

Definition lower_char (c : ascii) : ascii :=
  let n := N_of_ascii c in
  if ((65 <=? n) && (n <=? 90))%N then ascii_of_N (n + 32) else c.

Fixpoint map_string (f : ascii -> ascii) (s : string) : string :=
  match s with
  | EmptyString => EmptyString
  | String c s' => String (f c) (map_string f s')
  end.

Fixpoint lstrip (s : string) : string :=
  match s with
  | EmptyString => EmptyString
  | String c s' => if is_space c then lstrip s' else s
  end.

Fixpoint rstrip (s : string) : string :=
  match s with
  | EmptyString => EmptyString
  | String c s' =>
      match rstrip s' with
      | EmptyString => if is_space c then EmptyString else String c EmptyString
      | r => String c r
      end
  end.

(** [s.strip()]. *)
Definition strip (s : string) : string := rstrip (lstrip s).

(** A text of ASCII characters only. *)
Definition is_ascii_char (c : ascii) : bool := (N_of_ascii c <? 128)%N.

Fixpoint is_ascii (s : string) : bool :=
  match s with
  | EmptyString => true
  | String c s' => is_ascii_char c && is_ascii s'
  end.

(** [s.capitalize()] for an ASCII text: the first character in upper
    case, the others in lower case. *)
Definition capitalize_ascii (s : string) : string :=
  match s with
  | EmptyString => EmptyString
  | String c s' => String (upper_char c) (map_string lower_char s')
  end.

(** [s.capitalize()].  For a text with a character outside ASCII the
    result is that of the Unicode case mapping of the runtime, the
    function [unicode_capitalize]. *)
Definition capitalize (unicode_capitalize : string -> string) (s : string)
  : string :=
  if is_ascii s then capitalize_ascii s else unicode_capitalize s.

(** [s[-1]], when [s] is not empty. *)
Fixpoint last_char (s : string) : option ascii :=
  match s with
  | EmptyString => None
  | String c EmptyString => Some c
  | String _ s' => last_char s'
  end.

(** Membership in [{'.', '?', '!'}]. *)
Definition is_terminal (c : ascii) : bool :=
  Ascii.eqb c "." || Ascii.eqb c "?" || Ascii.eqb c "!".

(** A [for] loop whose body may raise. *)
Fixpoint for_each {S A : Type} (body : S -> A -> result S) (l : list A) (s : S)
  : result S :=
  match l with
  | [] => Ok s
  | a :: l' => s' <- body s a ;; for_each body l' s'
  end.

(** ** Data model

    The source keeps utterances and cues in dictionaries with the same
    five keys; [Segment] is that dictionary. *)

Record Segment : Type := mkSegment {
  start : float;
  end_ : float;
  text : string;
  confidence : float;
  speaker : string
}.

Abbreviation Utterance := Segment.
Abbreviation Cue := Segment.

(** One word token of a recognizer result and one result: the value of
    [res.get('result')], [None] when the key is missing. *)
Record Word : Type := mkWord {
  word : string;
  w_start : float;
  w_end : float;
  conf : float
}.

Definition RecognizerResult : Type := option (list Word).

(** The keys of [self.config] read by the core. *)
Record Config : Type := mkConfig {
  max_duration : float;
  max_chars : Z;
  max_lines : Z;
  speaker_diarization : bool
}.

(** ** The methods of [AdvancedSubtitleGenerator] *)

Section AdvancedSubtitleGenerator.

(** [numpy.mean], an external library function. *)
Variable np_mean : list float -> float.

(** [self.config]. *)
Variable config : Config.

(** [self.punctuator]: [None], or the punctuation pipeline seen as a
    function from text to generated text. *)
Variable punctuator : option (string -> string).

(** [str.capitalize] on texts with a character outside ASCII. *)
Variable unicode_capitalize : string -> string.

Definition _restore_punctuation (t : string) : string :=
  match punctuator with
  | Some generate => generate t
  | None => t
  end.

(** The terminal punctuation rule of [_process_results]. *)
Definition terminate (t : string) : string :=
  match last_char t with
  | Some c => if negb (is_terminal c) then (t ++ ".")%string else t
  | None => t
  end.

(** One iteration of the loop of [_process_results]. *)
Definition process_step (processed : list Segment) (res : RecognizerResult)
  : list Segment :=
  match res with
  | None | Some [] => processed
  | Some ((first :: _) as words) =>
      let start' := round2 (w_start first) in
      let end' := round2 (w_end (last words first)) in
      let raw_text := String.concat " " (map word words) in
      let text' := terminate (_restore_punctuation raw_text) in
      processed ++ [ {| start := start';
                        end_ := end';
                        text := capitalize unicode_capitalize (strip text');
                        confidence := np_mean (map conf words);
                        speaker := "SPK1" |} ]
  end.

Definition _process_results (results : list RecognizerResult) : list Segment :=
  fold_left process_step results [].

(** [_merge_segment]: [items[0]] raises [IndexError] on an empty list. *)
Definition _merge_segment (items : list Segment) : result Segment :=
  match items with
  | [] => Raise IndexError
  | first :: _ =>
      Ok {| start := start first;
            end_ := end_ (last items first);
            text := String.concat nl (map text items);
            confidence := np_mean (map confidence items);
            speaker := speaker first |}
  end.

(** The test of the [if] in the loop of [_optimize_segmentation], for a
    buffer whose first element is [first]. *)
Definition fits (first : Segment) (buffer : list Segment) (item : Segment) : bool :=
  let current_duration := fsub (end_ item) (start first) in
  let current_length := sum (map (fun i => len (text i)) buffer) + len (text item) in
  fleb current_duration (max_duration config)
  && (current_length <=? max_chars config * max_lines config)
  && (Z.of_nat (List.length buffer) <? max_lines config).

(** One iteration of the loop, on the state [(optimized, buffer)]. *)
Definition optimize_step (st : list Segment * list Segment) (item : Segment)
  : result (list Segment * list Segment) :=
  let '(optimized, buffer) := st in
  match buffer with
  | [] => Ok (optimized, [item])
  | first :: _ =>
      if fits first buffer item then Ok (optimized, buffer ++ [item])
      else
        merged <- _merge_segment buffer ;;
        Ok (optimized ++ [merged], [item])
  end.

Definition _optimize_segmentation (items : list Segment) : result (list Segment) :=
  '(optimized, buffer) <- for_each optimize_step items ([], []) ;;
  match buffer with
  | [] => Ok optimized
  | _ :: _ =>
      merged <- _merge_segment buffer ;;
      Ok (optimized ++ [merged])
  end.

(** The buffers the loop flushes, in order: the constituent utterances
    of each cue.  Same loop, with the buffer recorded in place of its
    merge. *)
Definition buffers_step (st : list (list Segment) * list Segment) (item : Segment)
  : list (list Segment) * list Segment :=
  let '(flushed, buffer) := st in
  match buffer with
  | [] => (flushed, [item])
  | first :: _ =>
      if fits first buffer item then (flushed, buffer ++ [item])
      else (flushed ++ [buffer], [item])
  end.

Definition cue_buffers (items : list Segment) : list (list Segment) :=
  let '(flushed, buffer) := fold_left buffers_step items ([], []) in
  match buffer with
  | [] => flushed
  | _ :: _ => flushed ++ [buffer]
  end.

(** [_format_time]. *)
Definition _format_time (seconds : float) : result string :=
  '(hours, remainder) <- float_divmod seconds (of_Z 3600) ;;
  '(minutes, seconds') <- float_divmod remainder (of_Z 60) ;;
  h <- int_of_float hours ;;
  m <- int_of_float minutes ;;
  Ok (replace "." ","
        (format_02 h ++ ":" ++ format_02 m ++ ":" ++ format_06_3f seconds')%string).

(** One iteration of the loop of [_generate_srt], on the state
    [(idx, srt_content)]. *)
Definition srt_step (st : Z * list string) (seg : Segment)
  : result (Z * list string) :=
  let '(idx, srt_content) := st in
  start' <- _format_time (start seg) ;;
  end' <- _format_time (end_ seg) ;;
  let speaker' :=
    if speaker_diarization config then ("[" ++ speaker seg ++ "] ")%string
    else EmptyString in
  Ok (idx + 1,
      srt_content
      ++ [ (str_of_int idx ++ nl ++ start' ++ " --> " ++ end' ++ nl
            ++ speaker' ++ text seg ++ nl)%string ]).

(** [_generate_srt]: the text written to [output_path]. *)
Definition _generate_srt (segments : list Segment) : result string :=
  '(_, srt_content) <- for_each srt_step segments (1, []) ;;
  Ok (String.concat nl srt_content).

End AdvancedSubtitleGenerator.

(** [s.split(c)] for a one-character separator. *)
Fixpoint split_on (c : ascii) (s : string) : list string :=
  match s with
  | EmptyString => [EmptyString]
  | String a s' =>
      if Ascii.eqb a c then EmptyString :: split_on c s'
      else match split_on c s' with
           | [] => [String a EmptyString]
           | w :: ws => String a w :: ws
           end
  end.

(** The lines of a text: [text.split("\n")]. *)
Definition lines (s : string) : list string := split_on "010"%char s.

(** A text without line break: it is its own single line. *)
Definition single_line (s : string) : Prop := lines s = [s].

(** ** The layout of the subtitle document, in the words of the
    specification *)

(** The speaker prefix: present exactly when diarization display is on. *)
Definition speaker_prefix (config : Config) (cue : Cue) : string :=
  if speaker_diarization config then ("[" ++ speaker cue ++ "] ")%string
  else EmptyString.

(** The block of the cue with 1-based position [index]. *)
Definition srt_block (config : Config) (index : Z) (cue : Cue) : result string :=
  formatted_start <- _format_time (start cue) ;;
  formatted_end <- _format_time (end_ cue) ;;
  Ok (str_of_int index ++ nl ++ formatted_start ++ " --> " ++ formatted_end ++ nl
      ++ speaker_prefix config cue ++ text cue ++ nl)%string.

(** The blocks of the cues, in order, numbered from [index]. *)
Fixpoint srt_blocks (config : Config) (index : Z) (cues : list Cue)
  : result (list string) :=
  match cues with
  | [] => Ok []
  | cue :: cues' =>
      block <- srt_block config index cue ;;
      blocks <- srt_blocks config (index + 1) cues' ;;
      Ok (block :: blocks)
  end.

(** Blocks end in a line break; one more line break between two blocks
    leaves a blank line between them. *)
Fixpoint separated_by_blank_lines (blocks : list string) : string :=
  match blocks with
  | [] => EmptyString
  | [block] => block
  | block :: blocks' => (block ++ nl ++ separated_by_blank_lines blocks')%string
  end.

Definition srt_document (config : Config) (cues : list Cue) : result string :=
  blocks <- srt_blocks config 1 cues ;;
  Ok (separated_by_blank_lines blocks).

(** ** Statements about cues *)

(** The caps a buffer of more than one utterance was checked against. *)
Definition within_caps (config : Config) (g : list Segment) : Prop :=
  (1 < List.length g)%nat ->
  forall d,
    fleb (fsub (end_ (last g d)) (start (hd d g))) (max_duration config) = true
    /\ sum (map (fun i => len (text i)) g) <= max_chars config * max_lines config
    /\ Z.of_nat (List.length g) <= max_lines config.



(** ** Statements about utterances *)

(** A text that ends in ['.'], ['?'] or ['!']. *)
Definition ends_in_terminal (t : string) : Prop :=
  exists c, last_char t = Some c /\ is_terminal c = true.

(** The non-empty word lists among the recognizer results, in order. *)
Definition nonempty_groups (results : list RecognizerResult) : list (list Word) :=
  flat_map (fun res => match res with
                       | Some (w :: ws) => [w :: ws]
                       | _ => []
                       end) results.

(** A text that lacks terminal punctuation: it is not empty and its last
    character is none of ['.'], ['?'] and ['!']. *)
Definition lacks_terminal (t : string) : Prop :=
  exists c, last_char t = Some c /\ is_terminal c = false.

(** The utterance the specification describes for a group of words.
    An empty restored text stays empty.  Otherwise the text ends in
    terminal punctuation: in the period that was appended when the
    restored text lacks terminal punctuation, and in the terminal
    character of the restored text when it has one. *)
Definition normalizes (np_mean : list float -> float)
    (punctuator : option (string -> string)) (words : list Word) (u : Utterance)
  : Prop :=
  exists first rest,
    words = first :: rest
    /\ start u = round2 (w_start first)
    /\ end_ u = round2 (w_end (last words first))
    /\ confidence u = np_mean (map conf words)
    /\ let restored :=
         _restore_punctuation punctuator (String.concat " " (map word words)) in
       (restored = EmptyString -> text u = EmptyString)
       /\ (restored <> EmptyString -> ends_in_terminal (text u))
       /\ (lacks_terminal restored -> last_char (text u) = Some "."%char)
       /\ (forall c, last_char restored = Some c -> is_terminal c = true ->
                     last_char (text u) = Some c).

(** What the normalizer needs of the Unicode case mapping: a final
    ['.'], ['?'] or ['!'] stays in place. *)
Definition keeps_terminal (unicode_capitalize : string -> string) : Prop :=
  forall s c,
    last_char s = Some c -> is_terminal c = true ->
    last_char (unicode_capitalize s) = Some c.

(** The claim without the proviso: every emitted text ends in terminal
    punctuation. *)
Definition every_text_ends_in_terminal : Prop :=
  forall (np_mean : list float -> float) (punctuator : option (string -> string))
         (unicode_capitalize : string -> string)
         (results : list RecognizerResult),
    keeps_terminal unicode_capitalize ->
    Forall (fun u => ends_in_terminal (text u))
      (_process_results np_mean punctuator unicode_capitalize results).

(** ** Statements about timecodes *)

(** The magnitude of a finite float, in units of [2^-1074]. *)
Definition magnitude (x : float) : Z :=
  match x with
  | Fin _ m => m
  | _ => 0
  end.

(** The timecode of a non-negative float of magnitude [n] units: the
    hours, the minutes within the hour, and the seconds within the
    minute rounded to thousandths, ties to even. *)
Definition rounded_timecode (seconds : float) : Prop :=
  let n := magnitude seconds in
  let minutes := n mod (3600 * one_units) / (60 * one_units) in
  let remaining := n mod (60 * one_units) in
  let thousandths := round_half_even (remaining * 1000) one_units in
  exists hours : Z,
    _format_time seconds
    = Ok (format_02 hours ++ ":" ++ format_02 minutes ++ ":"
          ++ format_02 (thousandths / 1000) ++ ","
          ++ format_03 (thousandths mod 1000))%string
    /\ 0 <= hours
    /\ (n < 2 ^ 53 * one_units -> hours = n / (3600 * one_units))
    /\ 0 <= minutes < 60
    /\ 0 <= thousandths <= 60000
    /\ (2 <= String.length (format_02 hours))%nat
    /\ String.length (format_02 minutes) = 2%nat
    /\ String.length (format_02 (thousandths / 1000)) = 2%nat
    /\ String.length (format_03 (thousandths mod 1000)) = 3%nat.

(** The milliseconds the specification words: the seconds within the
    minute, truncated to thousandths. *)
Definition truncated_millis (seconds : float) : Z :=
  let remaining := magnitude seconds mod (60 * one_units) in
  (remaining * 1000 / one_units) mod 1000.

(** [s.endswith(suffix)]. *)
Definition ends_with (suffix s : string) : bool :=
  (String.length suffix <=? String.length s)%nat
  && String.eqb
       (substring (String.length s - String.length suffix) (String.length suffix) s)
       suffix.

(** The formatter as the specification words its last three digits:
    the timecode of every finite non-negative float ends in a comma and
    the truncated milliseconds. *)
Definition millis_are_truncated : Prop :=
  forall seconds : float,
    is_finite seconds = true ->
    is_binary64 seconds = true ->
    fleb zero seconds = true ->
    exists out,
      _format_time seconds = Ok out
      /\ ends_with ("," ++ format_03 (truncated_millis seconds)) out = true.

(** ** Sample data: the scenario of the specification *)

(** The mean as [numpy.mean] computes it for fewer than eight values:
    the sum from left to right, divided by the count. *)
Definition seq_mean (xs : list float) : float :=
  fdiv (fold_left fadd xs (Fin false 0)) (of_Z (Z.of_nat (List.length xs))).

(** The defaults of [_validate_config]: 8.0 seconds, 45 characters, 2 lines. *)
Definition default_config : Config :=
  {| max_duration := of_Z 8; max_chars := 45; max_lines := 2;
     speaker_diarization := false |}.

Definition utterance (start_tenths end_tenths : Z) (t : string) : Utterance :=
  {| start := of_ratio start_tenths 10; end_ := of_ratio end_tenths 10;
     text := t; confidence := of_Z 1; speaker := "SPK1" |}.

Definition hello : Utterance := utterance 0 15 "hello".
Definition world : Utterance := utterance 16 30 "world".
Definition third : Utterance := utterance 31 95 "third".

Definition fox : Utterance :=
  utterance 0 20 "The quick brown fox jumps over the lazy dog near the bank.".
Definition indeed : Utterance := utterance 21 30 "Indeed.".

(** ** Sample floats, as the IEEE 754 specification of the Standard Library
    represents them *)

Definition binary64 (neg : bool) (mantissa : positive) (exponent : Z) : float :=
  of_spec (SpecFloat.S754_finite neg mantissa exponent).

Definition sample_floats : list SpecFloat.spec_float :=
  [ SpecFloat.S754_zero false; SpecFloat.S754_zero true;
    SpecFloat.S754_finite false 0x1d1b3333333333 (-41);
    SpecFloat.S754_finite false 0x1ffcb923a29c78 (-53);
    SpecFloat.S754_finite true 0x18000000000000 (-52);
    SpecFloat.S754_finite false 0x1c200000000000 (-41);
    SpecFloat.S754_finite false 0x1e000000000000 (-47);
    SpecFloat.S754_finite true 0x10000000000001 (-52);
    SpecFloat.S754_infinity false; SpecFloat.S754_infinity true;
    SpecFloat.S754_nan ].

(** The smallest subnormal, the largest finite value, and neighbours of
    one and of two. *)
Definition extreme_floats : list SpecFloat.spec_float :=
  [ SpecFloat.S754_finite false 1 (-1074);
    SpecFloat.S754_finite false 0x1fffffffffffff 971;
    SpecFloat.S754_finite true 0x1fffffffffffff (-53);
    SpecFloat.S754_finite false 0x10000000000001 (-51) ].

Definition agree_on (op : float -> float -> float)
    (spec_op : SpecFloat.spec_float -> SpecFloat.spec_float -> SpecFloat.spec_float)
    (x y : SpecFloat.spec_float) : bool :=
  match op (of_spec x) (of_spec y), of_spec (spec_op x y) with
  | NaN, NaN => true
  | Inf a, Inf b => Bool.eqb a b
  | Fin a m, Fin b n => Bool.eqb a b && (m =? n)
  | _, _ => false
  end.

Definition agree_on_samples (samples : list SpecFloat.spec_float)
    (op : float -> float -> float)
    (spec_op : SpecFloat.spec_float -> SpecFloat.spec_float -> SpecFloat.spec_float)
  : bool :=
  forallb (fun x => forallb (agree_on op spec_op x) samples) samples.

(** ** Further statements about the optimizer *)

(** A relation that holds between every two neighbours of a list. *)
Fixpoint all_adjacent {A : Type} (R : A -> A -> Prop) (l : list A) : Prop :=
  match l with
  | a :: (b :: _) as tail => R a b /\ all_adjacent R tail
  | _ => True
  end.

(** A cue boundary: the first utterance of the next buffer did not pass
    the test of the loop against the buffer before it. *)
Definition boundary (config : Config) (g next : list Segment) : Prop :=
  match g, next with
  | first :: _, item :: _ => fits config first g item = false
  | _, _ => False
  end.

(** The packing the loop computes, from a buffer and the utterances
    still to come. *)
Fixpoint pack (config : Config) (buffer items : list Segment)
  : list (list Segment) :=
  match items with
  | [] => match buffer with
          | [] => []
          | _ :: _ => [buffer]
          end
  | item :: items' =>
      match buffer with
      | [] => pack config [item] items'
      | first :: _ =>
          if fits config first buffer item then pack config (buffer ++ [item]) items'
          else buffer :: pack config [item] items'
      end
  end.

(** ** Further statements about utterance texts *)

Definition is_lower (c : ascii) : bool :=
  let n := N_of_ascii c in ((97 <=? n) && (n <=? 122))%N.

Definition is_upper (c : ascii) : bool :=
  let n := N_of_ascii c in ((65 <=? n) && (n <=? 90))%N.

Fixpoint string_forallb (P : ascii -> bool) (s : string) : bool :=
  match s with
  | EmptyString => true
  | String c s' => P c && string_forallb P s'
  end.

(** [s[0]], when [s] is not empty. *)
Definition first_char (s : string) : option ascii :=
  match s with
  | EmptyString => None
  | String c _ => Some c
  end.

(** A text with no white space at either end. *)
Definition trimmed (t : string) : Prop :=
  (forall c, first_char t = Some c -> is_space c = false)
  /\ (forall c, last_char t = Some c -> is_space c = false).

(** A text whose first character is not a lower-case letter and whose
    other characters are not upper-case letters. *)
Definition capitalized (t : string) : Prop :=
  match t with
  | EmptyString => True
  | String c rest =>
      is_lower c = false
      /\ string_forallb (fun x => negb (is_upper x)) rest = true
  end.

(** A recognizer result whose restored text is ASCII; a result without
    words has no text. *)
Definition ascii_result (punctuator : option (string -> string))
    (res : RecognizerResult) : bool :=
  match res with
  | Some ((_ :: _) as words) =>
      is_ascii (_restore_punctuation punctuator (String.concat " " (map word words)))
  | _ => true
  end.

(** ** Further statements about timecodes and rendering *)

(** A time of the data model: a finite, non-negative binary64 value. *)
Definition well_timed (x : float) : bool :=
  is_finite x && is_binary64 x && fleb zero x.

(** A segment whose start and end are times of the data model. *)
Definition well_timed_segment (c : Segment) : bool :=
  well_timed (start c) && well_timed (end_ c).

(** The core of [process_file]: from the utterances to the text of the
    subtitle file. *)
Definition subtitles_of_utterances (np_mean : list float -> float)
    (config : Config) (segments : list Utterance) : result string :=
  optimized <- _optimize_segmentation np_mean config segments ;;
  _generate_srt config optimized.

(** A recognizer result whose first word starts and whose last word
    ends at a time of the data model; a result without words has no
    times to check. *)
Definition well_timed_result (res : RecognizerResult) : bool :=
  match res with
  | Some ((first :: _) as words) =>
      well_timed (w_start first) && well_timed (w_end (last words first))
  | _ => true
  end.

(** Lines 198 to 202 of [process_file] after the recognizer has run:
    normalize, optimize, render. *)
Definition subtitles_of_results (np_mean : list float -> float)
    (config : Config) (punctuator : option (string -> string))
    (unicode_capitalize : string -> string)
    (results : list RecognizerResult) : result string :=
  subtitles_of_utterances np_mean config
    (_process_results np_mean punctuator unicode_capitalize results).

(** Two recognizer results with words, one without the key and one
    with no word. *)
Definition sample_results : list RecognizerResult :=
  [ Some [ mkWord "hello" (of_ratio 12 100) (of_ratio 504 1000) one;
           mkWord "wORLD" (of_ratio 61 100) (of_ratio 1236 1000) one ];
    None; Some [];
    Some [ mkWord "really?" (of_ratio 20049 10000) (of_ratio 31 10) one ] ].

(** ** The configuration dictionary and the constructor

    Construction can fail with exceptions the core never raises; they
    are kept apart from [exn]. *)

Inductive error : Type :=
| Core (e : exn)
| KeyError (arg : string)
| FileNotFoundError (arg : string)
| TypeError
| External (name : string).

Inductive outcome (A : Type) : Type :=
| Return (a : A)
| Throw (e : error).

Arguments Return {A} a.
Arguments Throw {A} e.

Definition and_then {A B : Type} (c : outcome A) (k : A -> outcome B) : outcome B :=
  match c with
  | Return a => k a
  | Throw e => Throw e
  end.

Notation "x <~ c ;; k" := (and_then c (fun x => k))
  (at level 61, c at next level, right associativity).

(** An exception of the core seen from its caller. *)
Definition core {A : Type} (r : result A) : outcome A :=
  match r with
  | Ok a => Return a
  | Raise e => Throw (Core e)
  end.

(** The values [main] and a caller put into the dictionary. *)
Inductive value : Type :=
| VNone
| VBool (b : bool)
| VInt (z : Z)
| VFloat (x : float)
| VStr (s : string)
| VList (l : list string).

(** [bool(v)]. *)
Definition truthy (v : value) : bool :=
  match v with
  | VNone => false
  | VBool b => b
  | VInt z => negb (z =? 0)
  | VFloat x => nonzero x
  | VStr s => negb (String.eqb s EmptyString)
  | VList l => match l with [] => false | _ :: _ => true end
  end.

(** A [dict] with string keys, in insertion order. *)
Definition dict : Type := list (string * value).

(** [d.get(key)]. *)
Fixpoint get (key : string) (d : dict) : option value :=
  match d with
  | [] => None
  | (k, v) :: d' => if String.eqb k key then Some v else get key d'
  end.

(** [key in d]. *)
Definition contains (key : string) (d : dict) : bool :=
  match get key d with
  | Some _ => true
  | None => false
  end.

(** [d[key]]. *)
Definition subscript (key : string) (d : dict) : outcome value :=
  match get key d with
  | Some v => Return v
  | None => Throw (KeyError key)
  end.

(** [d.setdefault(key, v)], the dictionary after the call. *)
Definition setdefault (key : string) (v : value) (d : dict) : dict :=
  if contains key d then d else d ++ [(key, v)].

Inductive LogLevel : Type := DEBUG | INFO.

(** The attributes of a constructed [AdvancedSubtitleGenerator], and the
    level handed to [logging.basicConfig]. *)
Record Generator : Type := mkGenerator {
  self_config : dict;
  self_punctuator : option (string -> string);
  log_level : LogLevel
}.

Section Construction.

(** [Path(p).exists()]. *)
Variable path_exists : string -> bool.

(** The call of [transformers.pipeline] at lines 31 to 36. *)
Variable pipeline : outcome (string -> string).

Definition required_keys : list string :=
  ["video_paths"; "output_dir"; "model_path"]%string.

(** The loop over [required_keys]. *)
Fixpoint check_required (keys : list string) (config : dict) : outcome unit :=
  match keys with
  | [] => Return tt
  | key :: keys' =>
      if negb (contains key config)
      then Throw (KeyError ("Missing required config key: " ++ key)%string)
      else check_required keys' config
  end.

(** [_validate_config]: [Path(x)] raises [TypeError] unless [x] is a
    string. *)
Definition _validate_config (config : dict) : outcome dict :=
  _ <~ check_required required_keys config ;;
  model_path <~ subscript "model_path" config ;;
  match model_path with
  | VStr p =>
      if negb (path_exists p)
      then Throw (FileNotFoundError ("Model path not found: " ++ p)%string)
      else
        let config := setdefault "batch_size" (VInt 1) config in
        let config := setdefault "max_duration" (VFloat (of_Z 8)) config in
        let config := setdefault "max_chars" (VInt 45) config in
        let config := setdefault "max_lines" (VInt 2) config in
        let config := setdefault "audio_quality" (VInt 3) config in
        let config := setdefault "debug" (VBool false) config in
        let config := setdefault "target_languages" (VList ["en"%string]) config in
        let config := setdefault "speaker_diarization" (VBool false) config in
        Return config
  | _ => Throw TypeError
  end.

Definition _init_logging (config : dict) : outcome LogLevel :=
  debug <~ subscript "debug" config ;;
  Return (if truthy debug then DEBUG else INFO).

(** [_load_punctuation_model], the value of [self.punctuator] after the
    call. *)
Definition _load_punctuation_model (config : dict)
  : outcome (option (string -> string)) :=
  punctuation <~ subscript "punctuation" config ;;
  if truthy punctuation then
    generate <~ pipeline ;;
    Return (Some generate)
  else Return None.

Definition __init__ (config : dict) : outcome Generator :=
  config <~ _validate_config config ;;
  level <~ _init_logging config ;;
  punctuator <~ _load_punctuation_model config ;;
  Return {| self_config := config;
            self_punctuator := punctuator;
            log_level := level |}.

End Construction.

(** The keys [_validate_config] fills in, with their defaults. *)
Definition defaults : dict :=
  [ ("batch_size", VInt 1);
    ("max_duration", VFloat (of_Z 8));
    ("max_chars", VInt 45);
    ("max_lines", VInt 2);
    ("audio_quality", VInt 3);
    ("debug", VBool false);
    ("target_languages", VList ["en"]);
    ("speaker_diarization", VBool false) ]%string.

(** The parsed command line of [main]. *)
Record Args : Type := mkArgs {
  inputs : list string;
  model : string;
  output_dir : string;
  arg_max_duration : float;
  arg_max_chars : Z;
  arg_max_lines : Z;
  punctuation : bool;
  speakers : bool;
  debug : bool
}.

(** The dictionary [main] builds from the command line, once
    [video_paths] is filled. *)
Definition config_of_args (args : Args) (video_paths : list string) : dict :=
  [ ("video_paths", VList video_paths);
    ("output_dir", VStr (output_dir args));
    ("model_path", VStr (model args));
    ("max_duration", VFloat (arg_max_duration args));
    ("max_chars", VInt (arg_max_chars args));
    ("max_lines", VInt (arg_max_lines args));
    ("punctuation", VBool (punctuation args));
    ("speaker_diarization", VBool (speakers args));
    ("debug", VBool (debug args)) ]%string.

(** A dictionary a caller of the class may pass. *)
Definition minimal_config : dict :=
  [ ("video_paths", VList ["talk.mp4"]);
    ("output_dir", VStr "output");
    ("model_path", VStr "model") ]%string.

(** ** Audio files and transcription *)

(** A WAVE file as the [wave] module reads it: the frame rate and the
    frame size (bytes per frame, at least one) of the header, and the
    bytes of the data chunk. *)
Record WaveFile : Type := mkWaveFile {
  framerate : Z;
  framesize : positive;
  data : list Byte.byte
}.

(** [wf.getnframes()]: the size of the data chunk in whole frames. *)
Definition getnframes (wf : WaveFile) : Z :=
  Z.of_nat (List.length (data wf)) / Z.pos (framesize wf).

(** [wf.readframes(nframes)] at a position with [remaining] bytes left:
    the bytes returned and the bytes left. *)
Definition readframes (wf : WaveFile) (nframes : nat)
    (remaining : list Byte.byte) : list Byte.byte * list Byte.byte :=
  let size := (nframes * Pos.to_nat (framesize wf))%nat in
  (firstn size remaining, skipn size remaining).

(** [float(z)] for a Python int. *)
Definition float_of_int (z : Z) : result float :=
  match of_Z z with
  | Inf _ => Raise OverflowError
  | x => Ok x
  end.

(** [x / y] on Python floats. *)
Definition truediv (x y : float) : result float :=
  if nonzero y then Ok (fdiv x y) else Raise ZeroDivisionError.

(** [_get_audio_duration]: [frames / float(rate)]. *)
Definition _get_audio_duration (wf : WaveFile) : result float :=
  rate <- float_of_int (framerate wf) ;;
  frames <- float_of_int (getnframes wf) ;;
  truediv frames rate.

(** ['result' in res]. *)
Definition has_key (res : RecognizerResult) : bool :=
  match res with
  | Some _ => true
  | None => false
  end.

Section Transcription.

Variable np_mean : list float -> float.
Variable punctuator : option (string -> string).
Variable unicode_capitalize : string -> string.

(** The state of a [KaldiRecognizer] and its three methods; [Result]
    and [FinalResult] are followed by [json.loads] and seen through the
    key [result]. *)
Variable Recognizer : Type.
Variable AcceptWaveform : Recognizer -> list Byte.byte -> Recognizer * bool.
Variable Result : Recognizer -> Recognizer * RecognizerResult.
Variable FinalResult : Recognizer -> Recognizer * RecognizerResult.

(** The state of the loop of [_transcribe_audio]: the recognizer,
    [results] and the counter [progress.n]. *)
Definition Transcription : Type :=
  (Recognizer * list RecognizerResult * float)%type.

(** The body of the loop after a non-empty read.  [result['result']]
    raises [KeyError] when the key is missing; [progress.update] adds
    its argument to [progress.n]. *)
Definition accept_step (st : Transcription) (chunk : list Byte.byte)
  : outcome Transcription :=
  let '(recognizer, results, n) := st in
  let '(recognizer, accepted) := AcceptWaveform recognizer chunk in
  if accepted then
    let '(recognizer, result) := Result recognizer in
    let results := results ++ [result] in
    match result with
    | None => Throw (KeyError "result")
    | Some [] => Return (recognizer, results, fadd n zero)
    | Some ((first :: _) as words) =>
        Return (recognizer, results, fadd n (fsub (w_end (last words first)) n))
    end
  else Return (recognizer, results, n).

(** The [while True] loop, with a bound on the number of reads; [None]
    when the bound is reached. *)
Fixpoint transcribe_loop (fuel : nat) (wf : WaveFile)
    (remaining : list Byte.byte) (st : Transcription)
  : option (outcome Transcription) :=
  match fuel with
  | O => None
  | S fuel' =>
      let '(chunk, remaining') := readframes wf 4000 remaining in
      match chunk with
      | [] => Some (Return st)
      | _ :: _ =>
          match accept_step st chunk with
          | Return st' => transcribe_loop fuel' wf remaining' st'
          | Throw e => Some (Throw e)
          end
      end
  end.

(** [_transcribe_audio], from line 91 on, for a recognizer that has
    been constructed. *)
Definition _transcribe_audio (fuel : nat) (recognizer : Recognizer)
    (wf : WaveFile) : option (outcome (list Segment)) :=
  match _get_audio_duration wf with
  | Raise e => Some (Throw (Core e))
  | Ok duration =>
      match transcribe_loop fuel wf (data wf) (recognizer, [], zero) with
      | None => None
      | Some (Throw e) => Some (Throw e)
      | Some (Return (recognizer, results, _)) =>
          let '(_, final) := FinalResult recognizer in
          Some (Return (_process_results np_mean punctuator unicode_capitalize (results ++ [final])))
      end
  end.

(** The loop body over the chunks of successive reads. *)
Fixpoint accept_all (st : Transcription) (chunks : list (list Byte.byte))
  : outcome Transcription :=
  match chunks with
  | [] => Return st
  | chunk :: chunks' =>
      match accept_step st chunk with
      | Return st' => accept_all st' chunks'
      | Throw e => Throw e
      end
  end.

(** What a recognizer that is fed [chunks] one after the other ends as,
    and the results of the chunks it accepts. *)
Fixpoint heard (recognizer : Recognizer) (chunks : list (list Byte.byte))
  : Recognizer * list RecognizerResult :=
  match chunks with
  | [] => (recognizer, [])
  | chunk :: chunks' =>
      let '(recognizer, accepted) := AcceptWaveform recognizer chunk in
      if accepted then
        let '(recognizer, result) := Result recognizer in
        let '(final, results) := heard recognizer chunks' in
        (final, result :: results)
      else heard recognizer chunks'
  end.

End Transcription.

(** A recognizer that counts the bytes it has heard, accepts every
    chunk and reports one word ending at that count. *)
Definition counting_accept (heard_bytes : nat) (chunk : list Byte.byte) : nat * bool :=
  ((heard_bytes + List.length chunk)%nat, true).

Definition counting_result (heard_bytes : nat) : nat * RecognizerResult :=
  (heard_bytes,
   Some [ mkWord "word" zero (of_Z (Z.of_nat heard_bytes)) one ]).

Definition two_frames : WaveFile :=
  {| framerate := 2; framesize := 2;
     data := [Byte.x00; Byte.x01; Byte.x02; Byte.x03] |}.

(** Successive reads of at most [size] bytes, until a read is empty;
    [fuel] bounds the number of reads. *)
Fixpoint reads (fuel size : nat) (remaining : list Byte.byte)
  : list (list Byte.byte) :=
  match fuel with
  | O => []
  | S fuel' =>
      match firstn size remaining with
      | [] => []
      | chunk => chunk :: reads fuel' size (skipn size remaining)
      end
  end.

(** ** The videos [main] collects *)

Section Discovery.

(** [os.path.isdir], [os.walk] seen as the list of its
    [(root, files)], and [os.path.join]. *)
Variable isdir : string -> bool.
Variable walk : string -> list (string * list string).
Variable join : string -> string -> string.

Definition video_suffixes : list string := [".mp4"; ".mkv"; ".avi"; ".mov"]%string.

(** [s.lower()]. *)
Definition lower (s : string) : string := map_string lower_char s.

(** [s.endswith(suffixes)] for a tuple of suffixes. *)
Definition ends_with_any (suffixes : list string) (s : string) : bool :=
  existsb (fun suffix => ends_with suffix s) suffixes.

(** The three nested loops of lines 238 to 245, from the innermost, on
    the list [config['video_paths']]. *)
Definition collect_file (root : string) (video_paths : list string) (file : string)
  : list string :=
  if ends_with_any video_suffixes (lower file)
  then video_paths ++ [join root file]
  else video_paths.

Definition collect_walk (video_paths : list string) (entry : string * list string)
  : list string :=
  let '(root, files) := entry in fold_left (collect_file root) files video_paths.

Definition collect_input (video_paths : list string) (input_path : string)
  : list string :=
  if isdir input_path
  then fold_left collect_walk (walk input_path) video_paths
  else video_paths ++ [input_path].

Definition collect_video_paths (inputs : list string) : list string :=
  fold_left collect_input inputs [].

End Discovery.

(** Utterances or cues in chronological order: none ends before it
    starts, and none starts before the one before it has ended. *)
Definition chronological (l : list Segment) : Prop :=
  Forall (fun u => fleb (start u) (end_ u) = true) l
  /\ all_adjacent (fun u v => fleb (end_ u) (start v) = true) l.

(** * Properties *)

(** ** The error monad *)

Lemma mapM_app {A B : Type} (f : A -> result B) (l1 l2 : list A) (r1 r2 : list B) :
  mapM f l1 = Ok r1 -> mapM f l2 = Ok r2 -> mapM f (l1 ++ l2) = Ok (r1 ++ r2).
Proof.
  revert r1. induction l1 as [|a l1 IH]; intros r1 H1 H2; simpl in *.
  - injection H1 as <-. exact H2.
  - destruct (f a) as [b|e]; simpl in *; [|discriminate].
    destruct (mapM f l1) as [bs|e]; simpl in *; [|discriminate].
    injection H1 as <-. rewrite (IH bs eq_refl H2). reflexivity.
Qed.

Lemma mapM_Forall2 {A B : Type} (f : A -> result B) (l : list A) (r : list B) :
  mapM f l = Ok r <-> Forall2 (fun a b => f a = Ok b) l r.
Proof.
  revert r. induction l as [|a l IH]; intros r; simpl.
  - split; intros H.
    + injection H as <-. constructor.
    + inversion H. reflexivity.
  - split; intros H.
    + destruct (f a) as [b|e] eqn:Ea; simpl in H; [|discriminate].
      destruct (mapM f l) as [bs|e] eqn:El; simpl in H; [|discriminate].
      injection H as <-. constructor; [exact Ea | apply IH; reflexivity].
    + inversion H as [|a' b l' bs Hab Hl]; subst.
      rewrite Hab. simpl. apply IH in Hl. rewrite Hl. reflexivity.
Qed.

(** ** Lines of a text *)

Lemma split_on_nonempty (c : ascii) (s : string) : split_on c s <> [].
Proof.
  destruct s as [|a s]; cbn [split_on]; [discriminate|].
  destruct (Ascii.eqb a c); [discriminate|].
  destruct (split_on c s); discriminate.
Qed.

Lemma split_on_app_sep (c : ascii) (s1 s2 : string) :
  split_on c (s1 ++ String c s2) = split_on c s1 ++ split_on c s2.
Proof.
  induction s1 as [|a s1 IH]; cbn [String.append split_on].
  - rewrite Ascii.eqb_refl. reflexivity.
  - destruct (Ascii.eqb a c).
    + rewrite IH. reflexivity.
    + rewrite IH. pose proof (split_on_nonempty c s1) as Hne.
      destruct (split_on c s1) as [|w ws]; [contradiction|]. reflexivity.
Qed.

(** Splitting a join on line breaks gives back the lines of the parts. *)
Lemma lines_join (texts : list string) :
  texts <> [] -> lines (String.concat nl texts) = flat_map lines texts.
Proof.
  intros Hne. induction texts as [|t texts IH]; [contradiction|].
  destruct texts as [|t' texts].
  - cbn [String.concat flat_map]. rewrite app_nil_r. reflexivity.
  - change (String.concat nl (t :: t' :: texts))
      with (t ++ String "010" (String.concat nl (t' :: texts)))%string.
    unfold lines in *. rewrite split_on_app_sep, IH by discriminate. reflexivity.
Qed.

(** ** The cue optimizer *)

Section OptimizerFacts.

Variable np_mean : list float -> float.
Variable config : Config.

Local Abbreviation merge := (_merge_segment np_mean).
Local Abbreviation step := (optimize_step np_mean config).
Local Abbreviation gstep := (buffers_step config).

Lemma merge_nonempty (first : Segment) (rest : list Segment) :
  exists c, merge (first :: rest) = Ok c.
Proof. eexists. reflexivity. Qed.

Lemma merge_Ok_nonempty (g : list Segment) (c : Segment) :
  merge g = Ok c -> g <> [].
Proof. destruct g; [discriminate | discriminate]. Qed.

(** The loop and its record of buffers run in lock step. *)
Lemma step_simulation flushed optimized buffer item :
  mapM merge flushed = Ok optimized ->
  exists optimized',
    step (optimized, buffer) item = Ok (optimized', snd (gstep (flushed, buffer) item))
    /\ mapM merge (fst (gstep (flushed, buffer) item)) = Ok optimized'.
Proof.
  intros Hinv. unfold optimize_step, buffers_step.
  destruct buffer as [|first rest].
  - exists optimized. split; [reflexivity | exact Hinv].
  - destruct (fits config first (first :: rest) item).
    + exists optimized. split; [reflexivity | exact Hinv].
    + destruct (merge_nonempty first rest) as [c Hc].
      exists (optimized ++ [c]). rewrite Hc. simpl. split; [reflexivity|].
      apply mapM_app; [exact Hinv|]. cbn [mapM]. rewrite Hc. reflexivity.
Qed.

Lemma loop_simulation items : forall flushed optimized buffer,
  mapM merge flushed = Ok optimized ->
  exists optimized',
    for_each step items (optimized, buffer)
      = Ok (optimized', snd (fold_left gstep items (flushed, buffer)))
    /\ mapM merge (fst (fold_left gstep items (flushed, buffer))) = Ok optimized'.
Proof.
  induction items as [|item items IH]; intros flushed optimized buffer Hinv;
    cbn [for_each fold_left].
  - exists optimized. split; [reflexivity | exact Hinv].
  - destruct (step_simulation flushed optimized buffer item Hinv) as (o1 & Hs & Hm).
    rewrite Hs. cbn [bind].
    destruct (gstep (flushed, buffer) item) as [f1 b1]. cbn [fst snd] in *.
    apply IH. exact Hm.
Qed.

(** The optimizer is the merge of each recorded buffer. *)
Lemma optimize_as_merged_buffers (items : list Segment) :
  exists cues,
    _optimize_segmentation np_mean config items = Ok cues
    /\ mapM merge (cue_buffers config items) = Ok cues.
Proof.
  unfold _optimize_segmentation, cue_buffers.
  destruct (loop_simulation items [] [] [] eq_refl) as (o & Hl & Hm).
  rewrite Hl.
  destruct (fold_left gstep items ([], [])) as [flushed buffer].
  cbn [fst snd bind] in *.
  destruct buffer as [|first rest].
  - exists o. split; [reflexivity | exact Hm].
  - destruct (merge_nonempty first rest) as [c Hc].
    exists (o ++ [c]). cbv iota. rewrite Hc. cbn [bind]. split; [reflexivity|].
    apply mapM_app; [exact Hm|]. cbn [mapM]. rewrite Hc. reflexivity.
Qed.

Lemma buffers_step_cases flushed buffer item :
  (gstep (flushed, buffer) item = (flushed, [item]) /\ buffer = [])
  \/ (exists first rest,
        buffer = first :: rest
        /\ fits config first buffer item = true
        /\ gstep (flushed, buffer) item = (flushed, buffer ++ [item]))
  \/ (exists first rest,
        buffer = first :: rest
        /\ fits config first buffer item = false
        /\ gstep (flushed, buffer) item = (flushed ++ [buffer], [item])).
Proof.
  unfold buffers_step. destruct buffer as [|first rest].
  - left. split; reflexivity.
  - right. destruct (fits config first (first :: rest) item) eqn:Efits.
    + left. exists first, rest. repeat split; assumption.
    + right. exists first, rest. repeat split; assumption.
Qed.

(** What the recorded buffers hold is what has been consumed. *)
Lemma buffers_loop_concat items : forall flushed buffer,
  List.concat (fst (fold_left gstep items (flushed, buffer)))
    ++ snd (fold_left gstep items (flushed, buffer))
  = List.concat flushed ++ buffer ++ items.
Proof.
  induction items as [|item items IH]; intros flushed buffer; cbn [fold_left].
  - cbn [fst snd]. rewrite app_nil_r. reflexivity.
  - unfold buffers_step at 2 4. destruct buffer as [|first rest].
    + rewrite IH. reflexivity.
    + destruct (fits config first (first :: rest) item); rewrite IH.
      * rewrite <- app_assoc. reflexivity.
      * rewrite concat_app. cbn [List.concat]. rewrite app_nil_r, <- !app_assoc.
        reflexivity.
Qed.

Lemma cue_buffers_concat (items : list Segment) :
  List.concat (cue_buffers config items) = items.
Proof.
  unfold cue_buffers. pose proof (buffers_loop_concat items [] []) as H.
  destruct (fold_left gstep items ([], [])) as [flushed buffer].
  cbn [fst snd List.concat app] in H. destruct buffer as [|first rest].
  - rewrite app_nil_r in H. exact H.
  - rewrite concat_app. cbn [List.concat]. rewrite app_nil_r. exact H.
Qed.

(** A property of buffers that holds of every one-element buffer and
    survives each accepted utterance holds of every recorded buffer. *)
Section BufferInvariant.

Variable P : list Segment -> Prop.
Hypothesis P_single : forall item, P [item].
Hypothesis P_extend : forall first rest item,
  P (first :: rest) -> fits config first (first :: rest) item = true ->
  P ((first :: rest) ++ [item]).

Lemma buffers_loop_invariant items : forall flushed buffer,
  Forall P flushed -> (buffer <> [] -> P buffer) ->
  Forall P (fst (fold_left gstep items (flushed, buffer)))
  /\ (snd (fold_left gstep items (flushed, buffer)) <> [] ->
      P (snd (fold_left gstep items (flushed, buffer)))).
Proof.
  induction items as [|item items IH]; intros flushed buffer Hf Hb; cbn [fold_left].
  - split; assumption.
  - destruct (buffers_step_cases flushed buffer item)
      as [[-> ->] | [(first & rest & -> & Efits & ->) | (first & rest & -> & Efits & ->)]].
    + apply IH; [exact Hf | intros _; apply P_single].
    + apply IH; [exact Hf | intros _; apply P_extend; [apply Hb; discriminate | exact Efits]].
    + apply IH; [|intros _; apply P_single].
      apply Forall_app. split; [exact Hf|].
      constructor; [apply Hb; discriminate | constructor].
Qed.

Lemma cue_buffers_invariant (items : list Segment) :
  Forall P (cue_buffers config items).
Proof.
  unfold cue_buffers.
  destruct (buffers_loop_invariant items [] [] (Forall_nil _)) as [Hf Hb];
    [intros H; contradiction|].
  destruct (fold_left gstep items ([], [])) as [flushed buffer].
  cbn [fst snd] in *. destruct buffer as [|first rest]; [exact Hf|].
  apply Forall_app. split; [exact Hf|].
  constructor; [apply Hb; discriminate | constructor].
Qed.

End BufferInvariant.

Lemma cue_buffers_nonempty (items : list Segment) :
  Forall (fun g => g <> []) (cue_buffers config items).
Proof.
  apply cue_buffers_invariant.
  - intros item; discriminate.
  - intros first rest item _ _. discriminate.
Qed.

Lemma sum_from (xs : list Z) : forall a, fold_left Z.add xs a = a + sum xs.
Proof.
  unfold sum. induction xs as [|x xs IH]; intros a; cbn [fold_left].
  - lia.
  - rewrite (IH (a + x)), (IH (0 + x)). lia.
Qed.

Lemma sum_snoc (xs : list Z) (x : Z) : sum (xs ++ [x]) = sum xs + x.
Proof. unfold sum. rewrite fold_left_app. reflexivity. Qed.

Lemma sum_cons (x : Z) (xs : list Z) : sum (x :: xs) = x + sum xs.
Proof. unfold sum at 1. cbn [fold_left]. rewrite sum_from. lia. Qed.

Lemma cue_buffers_within_caps (items : list Segment) :
  Forall (within_caps config) (cue_buffers config items).
Proof.
  apply cue_buffers_invariant.
  - intros item Hlen. cbn in Hlen. lia.
  - intros first rest item _ Hfits _ d. unfold fits in Hfits.
    apply andb_prop in Hfits as [Hfits Hocc]. apply andb_prop in Hfits as [Hdur Hlen].
    rewrite last_last, map_app, length_app.
    change (map (fun i => len (text i)) [item]) with [len (text item)].
    rewrite sum_snoc. apply Z.leb_le in Hlen. apply Z.ltb_lt in Hocc.
    cbn [hd app List.length] in *.
    split; [exact Hdur|]. split; lia.
Qed.

Lemma merge_fields (g : list Segment) (c : Segment) :
  merge g = Ok c ->
  exists first rest,
    g = first :: rest
    /\ start c = start first
    /\ end_ c = end_ (last g first)
    /\ text c = String.concat nl (map text g)
    /\ confidence c = np_mean (map confidence g)
    /\ speaker c = speaker first.
Proof.
  destruct g as [|first rest]; [discriminate|]. intros H.
  injection H as <-. exists first, rest. repeat split; reflexivity.
Qed.

Lemma merged_lines (gs : list (list Segment)) (cs : list Segment) :
  Forall2 (fun g c => merge g = Ok c) gs cs ->
  flat_map (fun c => lines (text c)) cs
  = flat_map (fun u => lines (text u)) (List.concat gs).
Proof.
  induction 1 as [|g c gs cs Hgc _ IH]; [reflexivity|].
  cbn [flat_map List.concat]. rewrite flat_map_app, IH. f_equal.
  destruct (merge_fields g c Hgc) as (first & rest & -> & _ & _ & -> & _).
  rewrite lines_join by discriminate. rewrite flat_map_concat_map, map_map.
  symmetry. apply flat_map_concat_map.
Qed.

End OptimizerFacts.

(** ** The scenario of the specification *)

Example scenario_buffers :
  cue_buffers default_config [hello; world; third] = [[hello; world]; [third]].
Proof. vm_compute. reflexivity. Qed.

Example scenario_cues :
  _optimize_segmentation seq_mean default_config [hello; world; third]
  = Ok [ {| start := of_Z 0; end_ := of_Z 3;
            text := String.concat nl ["hello"; "world"]%string;
            confidence := of_Z 1; speaker := "SPK1" |};
         third ].
Proof. vm_compute. reflexivity. Qed.

(** ** Coverage, caps and safety of the optimizer *)

(** C1. For every utterance sequence and every configuration the optimizer
    returns cues that are, in order, the merges of the recorded buffers;
    these buffers concatenated are exactly the input sequence (nothing
    lost, duplicated, reordered or split), and the lines of the cue
    texts, in order, are the lines of the utterance texts. *)
Theorem optimizer_covers_every_utterance
    (np_mean : list float -> float) (config : Config) (items : list Utterance) :
  exists cues : list Cue,
    _optimize_segmentation np_mean config items = Ok cues
    /\ Forall2 (fun g c => _merge_segment np_mean g = Ok c)
         (cue_buffers config items) cues
    /\ List.concat (cue_buffers config items) = items
    /\ flat_map (fun c => lines (text c)) cues
       = flat_map (fun u => lines (text u)) items.
Proof.
  destruct (optimize_as_merged_buffers np_mean config items) as (cues & Hopt & Hm).
  apply mapM_Forall2 in Hm. exists cues.
  split; [exact Hopt|]. split; [exact Hm|]. split.
  - apply cue_buffers_concat.
  - rewrite (merged_lines np_mean _ _ Hm), cue_buffers_concat. reflexivity.
Qed.

(** When no utterance text holds a line break, splitting the cue texts
    on line breaks gives back the utterance texts themselves. *)
Lemma single_lines_flat_map (items : list Segment) :
  Forall (fun u => single_line (text u)) items ->
  flat_map (fun u => lines (text u)) items = map text items.
Proof.
  induction 1 as [|u items Hu _ IH]; [reflexivity|].
  cbn [flat_map map]. rewrite Hu, IH. reflexivity.
Qed.

Corollary cue_lines_are_utterance_texts
    (np_mean : list float -> float) (config : Config) (items cues : list Segment) :
  Forall (fun u => single_line (text u)) items ->
  _optimize_segmentation np_mean config items = Ok cues ->
  flat_map (fun c => lines (text c)) cues = map text items.
Proof.
  intros Hsingle Hopt.
  destruct (optimize_as_merged_buffers np_mean config items) as (cues' & Hopt' & Hm).
  rewrite Hopt in Hopt'. injection Hopt' as <-. apply mapM_Forall2 in Hm.
  rewrite (merged_lines np_mean _ _ Hm), cue_buffers_concat.
  apply single_lines_flat_map. exact Hsingle.
Qed.

(** C10. The optimizer never raises: every buffer it merges is
    non-empty, so [items[0]] and [items[-1]] in the merge are in bounds,
    and every cue has at least one constituent utterance. *)
Theorem optimizer_merges_nonempty_buffers
    (np_mean : list float -> float) (config : Config) (items : list Utterance) :
  (exists cues : list Cue,
     _optimize_segmentation np_mean config items = Ok cues
     /\ mapM (_merge_segment np_mean) (cue_buffers config items) = Ok cues)
  /\ Forall (fun g => (1 <= List.length g)%nat
                      /\ exists c, _merge_segment np_mean g = Ok c)
       (cue_buffers config items)
  /\ (forall g, _merge_segment np_mean g = Raise IndexError <-> g = []).
Proof.
  split; [apply optimize_as_merged_buffers|]. split.
  - eapply Forall_impl; [|apply cue_buffers_nonempty].
    intros [|first rest] Hne; [contradiction|]. split.
    + cbn [List.length]. lia.
    + apply merge_nonempty.
  - intros [|first rest]; split; intros H; try reflexivity; discriminate.
Qed.

(** C2. A cue merged from more than one utterance spans at most
    [max_duration], its constituent texts total at most
    [max_chars * max_lines] characters, and it has at most [max_lines]
    constituent utterances. *)
Theorem multi_utterance_cue_within_caps
    (np_mean : list float -> float) (config : Config)
    (items g : list Utterance) (c : Cue) :
  In g (cue_buffers config items) ->
  _merge_segment np_mean g = Ok c ->
  (1 < List.length g)%nat ->
  fleb (fsub (end_ c) (start c)) (max_duration config) = true
  /\ sum (map (fun u => len (text u)) g) <= max_chars config * max_lines config
  /\ Z.of_nat (List.length g) <= max_lines config.
Proof.
  intros Hin Hmerge Hlen.
  pose proof (cue_buffers_within_caps config items) as Hcaps.
  rewrite Forall_forall in Hcaps. specialize (Hcaps g Hin Hlen).
  destruct (merge_fields np_mean g c Hmerge) as (first & rest & Hg & Hs & He & _).
  rewrite Hs, He. specialize (Hcaps first). rewrite Hg in Hcaps at 2.
  exact Hcaps.
Qed.

Lemma multi_utterance_cue_within_caps_witness :
  let c := {| start := of_Z 0; end_ := of_Z 3;
              text := String.concat nl ["hello"; "world"]%string;
              confidence := of_Z 1; speaker := "SPK1"%string |} in
  fleb (fsub (end_ c) (start c)) (max_duration default_config) = true
  /\ sum (map (fun u => len (text u)) [hello; world])
     <= max_chars default_config * max_lines default_config
  /\ Z.of_nat (List.length [hello; world]) <= max_lines default_config.
Proof.
  intro c.
  apply (multi_utterance_cue_within_caps seq_mean default_config
           [hello; world; third] [hello; world] c).
  - vm_compute. left. reflexivity.
  - vm_compute. reflexivity.
  - simpl. lia.
Defined.

(** ** The acceptance test of the loop *)

Lemma fits_true_iff (config : Config) (first : Segment) (buffer : list Segment)
    (u : Segment) :
  fits config first buffer u = true <->
  fleb (fsub (end_ u) (start first)) (max_duration config) = true
  /\ sum (map (fun i => len (text i)) buffer) + len (text u)
     <= max_chars config * max_lines config
  /\ Z.of_nat (List.length buffer) < max_lines config.
Proof.
  unfold fits. rewrite !andb_true_iff, Z.leb_le, Z.ltb_lt. tauto.
Qed.

Lemma feqb_fleb (x y : float) : feqb x y = true -> fleb x y = true.
Proof.
  unfold feqb, fleb. destruct (fcompare x y) as [[| |]|]; intros H;
    try discriminate; reflexivity.
Qed.

(** C4. With a non-empty buffer, the incoming utterance is appended
    exactly when the prospective span is at most [max_duration], the
    prospective character total is at most [max_chars * max_lines] and
    the buffer holds fewer than [max_lines] utterances; otherwise the
    buffer is flushed and the utterance starts the next one.  Equality on
    the duration and character caps accepts; a buffer of [max_lines]
    utterances is flushed. *)
Theorem append_iff_all_three_caps_hold
    (np_mean : list float -> float) (config : Config)
    (optimized : list Cue) (first : Utterance) (rest : list Utterance)
    (u : Utterance) :
  let buffer := first :: rest in
  let prospective_duration := fsub (end_ u) (start first) in
  let prospective_length :=
    sum (map (fun i => len (text i)) buffer) + len (text u) in
  let accepted :=
    fleb prospective_duration (max_duration config) = true
    /\ prospective_length <= max_chars config * max_lines config
    /\ Z.of_nat (List.length buffer) < max_lines config in
  let flushed :=
    exists merged,
      _merge_segment np_mean buffer = Ok merged
      /\ optimize_step np_mean config (optimized, buffer) u
         = Ok (optimized ++ [merged], [u]) in
  (optimize_step np_mean config (optimized, buffer) u
     = Ok (optimized, buffer ++ [u]) <-> accepted)
  /\ (~ accepted <-> flushed)
  /\ (feqb prospective_duration (max_duration config) = true ->
      prospective_length = max_chars config * max_lines config ->
      Z.of_nat (List.length buffer) < max_lines config ->
      accepted)
  /\ (Z.of_nat (List.length buffer) = max_lines config -> flushed).
Proof.
  intros buffer d n accepted flushed.
  assert (Hacc : fits config first buffer u = true <-> accepted)
    by apply fits_true_iff.
  assert (Hstep_no : fits config first buffer u = false -> flushed).
  { intros Hf. eexists. split; [reflexivity|].
    unfold optimize_step, buffer. fold buffer. rewrite Hf. reflexivity. }
  assert (Hstep_yes : fits config first buffer u = true ->
            optimize_step np_mean config (optimized, buffer) u
            = Ok (optimized, buffer ++ [u])).
  { intros Hf. unfold optimize_step, buffer. fold buffer. rewrite Hf. reflexivity. }
  assert (Hexcl : flushed ->
            optimize_step np_mean config (optimized, buffer) u
            <> Ok (optimized, buffer ++ [u])).
  { intros (merged & _ & Hs) Heq. rewrite Hs in Heq. injection Heq as Ho _.
    apply (f_equal (@List.length Segment)) in Ho. rewrite length_app in Ho.
    cbn [List.length] in Ho. lia. }
  split; [|split; [|split]].
  - split.
    + intros Hs. apply Hacc.
      destruct (fits config first buffer u) eqn:Ef; [reflexivity|].
      exfalso. exact (Hexcl (Hstep_no eq_refl) Hs).
    + intros Ha. apply Hstep_yes, Hacc, Ha.
  - split.
    + intros Hna. apply Hstep_no.
      destruct (fits config first buffer u); [|reflexivity].
      exfalso. apply Hna, Hacc. reflexivity.
    + intros Hfl Ha. exact (Hexcl Hfl (Hstep_yes (proj2 Hacc Ha))).
  - intros Heq Hlen Hocc. split; [apply feqb_fleb; exact Heq|]. split; [lia | exact Hocc].
  - intros Hfull. apply Hstep_no.
    destruct (fits config first buffer u); [|reflexivity].
    destruct (proj1 Hacc eq_refl) as (_ & _ & Hocc). lia.
Qed.

(** The scenario of the specification: [world] joins [hello], [third]
    does not join them (the span would be 9.5 seconds). *)
Example scenario_steps :
  optimize_step seq_mean default_config ([], [hello]) world = Ok ([], [hello; world])
  /\ exists merged,
       optimize_step seq_mean default_config ([], [hello; world]) third
       = Ok ([merged], [third]).
Proof. split; [|eexists]; vm_compute; reflexivity. Qed.

(** A prospective span of exactly [max_duration] and a prospective
    total of exactly [max_chars * max_lines] characters are accepted. *)
Example equality_on_caps_accepts :
  let cfg := {| max_duration := of_Z 3; max_chars := 5; max_lines := 2;
                speaker_diarization := false |} in
  optimize_step seq_mean cfg ([], [hello]) world = Ok ([], [hello; world]).
Proof. vm_compute. reflexivity. Qed.

(** ** Lines of a cue *)


Lemma buffer_within_max_lines (config : Config) (items g : list Segment) :
  1 <= max_lines config ->
  In g (cue_buffers config items) ->
  Z.of_nat (List.length g) <= max_lines config.
Proof.
  intros Hmax Hin.
  pose proof (cue_buffers_within_caps config items) as Hcaps.
  rewrite Forall_forall in Hcaps. specialize (Hcaps g Hin).
  destruct g as [|u [|u' g']].
  - cbn [List.length]. lia.
  - cbn [List.length]. lia.
  - apply (Hcaps ltac:(cbn [List.length]; lia) u).
Qed.



(** ** The float model against the IEEE 754 specification of the
    Standard Library *)

(** [3725.6] is [0x1.d1b3333333333p+11] and [0.9996] is
    [0x1.ffcb923a29c78p-1], as [float.hex] prints them. *)
Example literal_3725_6 : of_ratio 37256 10 = binary64 false 0x1d1b3333333333 (-41).
Proof. vm_compute. reflexivity. Qed.

Example literal_0_9996 : of_ratio 9996 10000 = binary64 false 0x1ffcb923a29c78 (-53).
Proof. vm_compute. reflexivity. Qed.

Example fadd_agrees :
  agree_on_samples sample_floats fadd (SpecFloat.SFadd 53 1024) = true
  /\ agree_on_samples extreme_floats fadd (SpecFloat.SFadd 53 1024) = true.
Proof. split; vm_cast_no_check (eq_refl true). Qed.

Example fsub_agrees :
  agree_on_samples sample_floats fsub (SpecFloat.SFsub 53 1024) = true
  /\ agree_on_samples extreme_floats fsub (SpecFloat.SFsub 53 1024) = true.
Proof. split; vm_cast_no_check (eq_refl true). Qed.

Example fdiv_agrees :
  agree_on_samples sample_floats fdiv (SpecFloat.SFdiv 53 1024) = true
  /\ agree_on_samples extreme_floats fdiv (SpecFloat.SFdiv 53 1024) = true.
Proof. split; vm_cast_no_check (eq_refl true). Qed.

Example fleb_agrees :
  forallb (fun x => forallb (fun y =>
    Bool.eqb (fleb (of_spec x) (of_spec y)) (SpecFloat.SFleb x y))
    sample_floats) sample_floats = true.
Proof. vm_compute. reflexivity. Qed.

(** ** Timecodes and rendering on concrete inputs *)

(** C6. [0.0] is rendered as [00:00:00,000] and [3725.6] as
    [01:02:05,600]. *)
Theorem format_time_examples :
  _format_time zero = Ok "00:00:00,000"%string
  /\ _format_time (of_ratio 37256 10) = Ok "01:02:05,600"%string.
Proof. split; vm_compute; reflexivity. Qed.

(** C7. On the empty utterance sequence the optimizer returns the empty
    cue sequence, and rendering it writes the empty document. *)
Theorem empty_input_empty_document
    (np_mean : list float -> float) (config : Config) :
  _optimize_segmentation np_mean config [] = Ok []
  /\ _generate_srt config [] = Ok EmptyString
  /\ (cues <- _optimize_segmentation np_mean config [] ;; _generate_srt config cues)
     = Ok EmptyString.
Proof. repeat split. Qed.

(** ** The renderer against the block layout of the specification *)

Section Renderer.

Variable config : Config.

Lemma srt_step_block (idx : Z) (srt_content : list string) (seg : Segment) :
  srt_step config (idx, srt_content) seg
  = (block <- srt_block config idx seg ;; Ok (idx + 1, srt_content ++ [block])).
Proof.
  unfold srt_step, srt_block, speaker_prefix.
  destruct (_format_time (start seg)); [|reflexivity].
  destruct (_format_time (end_ seg)); reflexivity.
Qed.

Lemma srt_loop_blocks (segments : list Segment) : forall idx srt_content,
  for_each (srt_step config) segments (idx, srt_content)
  = (blocks <- srt_blocks config idx segments ;;
     Ok (idx + Z.of_nat (List.length segments), srt_content ++ blocks)).
Proof.
  induction segments as [|seg segments IH]; intros idx srt_content.
  - cbn [for_each srt_blocks bind List.length]. rewrite app_nil_r, Z.add_0_r.
    reflexivity.
  - cbn [for_each srt_blocks]. rewrite srt_step_block.
    destruct (srt_block config idx seg) as [block|e]; [|reflexivity].
    cbn [bind]. rewrite IH.
    destruct (srt_blocks config (idx + 1) segments) as [blocks|e]; [|reflexivity].
    cbn [bind List.length]. rewrite <- app_assoc.
    do 2 f_equal. lia.
Qed.

Lemma join_separated_by_blank_lines (blocks : list string) :
  String.concat nl blocks = separated_by_blank_lines blocks.
Proof.
  induction blocks as [|block blocks IH]; [reflexivity|].
  destruct blocks as [|block' blocks]; [reflexivity|].
  cbn [String.concat separated_by_blank_lines] in *. rewrite IH. reflexivity.
Qed.

(** C8. The document written by the renderer is, for the cues in order
    and numbered from 1, the blocks
    [index, line break, start --> end, line break, prefix, text, line break]
    separated by blank lines, the prefix being the bracketed speaker when
    [speaker_diarization] is set and empty otherwise; a timecode that
    cannot be formatted raises in both. *)
Theorem generate_srt_is_srt_document (cues : list Cue) :
  _generate_srt config cues = srt_document config cues.
Proof.
  unfold _generate_srt, srt_document. rewrite srt_loop_blocks.
  destruct (srt_blocks config 1 cues) as [blocks|e]; [|reflexivity].
  cbn [bind app]. rewrite join_separated_by_blank_lines. reflexivity.
Qed.

End Renderer.

Example scenario_document :
  (cues <- _optimize_segmentation seq_mean default_config [hello; world; third] ;;
   _generate_srt default_config cues)
  = Ok (String.concat nl
          [ "1"; "00:00:00,000 --> 00:00:03,000"; "hello"; "world"; "";
            "2"; "00:00:03,100 --> 00:00:09,500"; "third"; "" ])%string.
Proof. vm_compute. reflexivity. Qed.

Example speaker_prefix_shown :
  _generate_srt {| max_duration := of_Z 8; max_chars := 45; max_lines := 2;
                   speaker_diarization := true |} [hello]
  = Ok (String.concat nl [ "1"; "00:00:00,000 --> 00:00:01,500"; "[SPK1] hello"; "" ])%string.
Proof. vm_compute. reflexivity. Qed.

(** ** The utterance normalizer *)

Lemma last_char_append_char (s : string) (c : ascii) :
  last_char (s ++ String c EmptyString) = Some c.
Proof.
  induction s as [|a s IH]; [reflexivity|].
  cbn [String.append last_char]. rewrite IH.
  destruct (s ++ String c EmptyString)%string eqn:E; [|reflexivity].
  destruct s; discriminate.
Qed.

Lemma last_char_cons (a : ascii) (s : string) (c : ascii) :
  last_char s = Some c -> last_char (String a s) = Some c.
Proof. destruct s; [discriminate|]. intros H. exact H. Qed.

Lemma last_char_None (s : string) : last_char s = None -> s = EmptyString.
Proof.
  induction s as [|a s IH]; [reflexivity|].
  cbn [last_char]. destruct s; [discriminate|]. intros H.
  specialize (IH H). discriminate.
Qed.

Lemma last_char_lstrip (s : string) (c : ascii) :
  last_char s = Some c -> is_space c = false -> last_char (lstrip s) = Some c.
Proof.
  induction s as [|a s IH]; intros Hlast Hc; [discriminate|].
  cbn [lstrip]. destruct (is_space a) eqn:Ea; [|exact Hlast].
  apply IH; [|exact Hc]. destruct s as [|b s].
  - cbn in Hlast. injection Hlast as ->. congruence.
  - exact Hlast.
Qed.

Lemma last_char_rstrip (s : string) (c : ascii) :
  last_char s = Some c -> is_space c = false -> last_char (rstrip s) = Some c.
Proof.
  induction s as [|a s IH]; intros Hlast Hc; [discriminate|].
  cbn [rstrip]. destruct s as [|b s].
  - cbn in Hlast. injection Hlast as ->. cbn [rstrip]. rewrite Hc. reflexivity.
  - specialize (IH Hlast Hc).
    destruct (rstrip (String b s)) as [|r rs]; [discriminate|].
    apply last_char_cons. exact IH.
Qed.

Lemma last_char_map_string (f : ascii -> ascii) (s : string) :
  last_char (map_string f s) = option_map f (last_char s).
Proof.
  induction s as [|a s IH]; [reflexivity|].
  cbn [map_string last_char]. destruct s as [|b s]; [reflexivity|].
  cbn [map_string] in *. exact IH.
Qed.

Lemma is_terminal_cases (c : ascii) :
  is_terminal c = true -> c = "."%char \/ c = "?"%char \/ c = "!"%char.
Proof.
  unfold is_terminal. rewrite !orb_true_iff, !Ascii.eqb_eq. tauto.
Qed.

Lemma terminal_not_space (c : ascii) : is_terminal c = true -> is_space c = false.
Proof. intros H. destruct (is_terminal_cases c H) as [->|[->| ->]]; reflexivity. Qed.

Lemma terminal_case_fixed (c : ascii) :
  is_terminal c = true -> upper_char c = c /\ lower_char c = c.
Proof.
  intros H. destruct (is_terminal_cases c H) as [->|[->| ->]]; split; reflexivity.
Qed.

Lemma last_char_capitalize_ascii : keeps_terminal capitalize_ascii.
Proof.
  intros s c Hlast Hc. destruct (terminal_case_fixed c Hc) as [Hup Hlow].
  destruct s as [|a s]; [discriminate|]. cbn [capitalize_ascii].
  destruct s as [|b s].
  - cbn in Hlast. injection Hlast as ->. cbn. rewrite Hup. reflexivity.
  - apply last_char_cons. rewrite last_char_map_string.
    change (last_char (String a (String b s))) with (last_char (String b s)) in Hlast.
    rewrite Hlast. cbn [option_map]. rewrite Hlow. reflexivity.
Qed.

Lemma last_char_capitalize (unicode_capitalize : string -> string)
    (s : string) (c : ascii) :
  keeps_terminal unicode_capitalize ->
  last_char s = Some c -> is_terminal c = true ->
  last_char (capitalize unicode_capitalize s) = Some c.
Proof.
  intros Hkeeps Hlast Hc. unfold capitalize. destruct (is_ascii s).
  - apply last_char_capitalize_ascii; assumption.
  - apply Hkeeps; assumption.
Qed.

Lemma last_char_strip (s : string) (c : ascii) :
  last_char s = Some c -> is_terminal c = true -> last_char (strip s) = Some c.
Proof.
  intros Hlast Hc. unfold strip. pose proof (terminal_not_space c Hc) as Hsp.
  apply last_char_rstrip; [|exact Hsp]. apply last_char_lstrip; assumption.
Qed.

(** The last character after the terminal punctuation rule. *)
Lemma last_char_terminate (t : string) :
  (lacks_terminal t -> last_char (terminate t) = Some "."%char)
  /\ (forall c, last_char t = Some c -> is_terminal c = true ->
                last_char (terminate t) = Some c).
Proof.
  unfold terminate. split.
  - intros (c & Hlast & Hc). rewrite Hlast, Hc. cbn [negb].
    apply last_char_append_char.
  - intros c Hlast Hc. rewrite Hlast, Hc. cbn [negb]. exact Hlast.
Qed.

Section Normalizer.

Variable np_mean : list float -> float.
Variable punctuator : option (string -> string).
Variable unicode_capitalize : string -> string.

Lemma normalized_text_last_char (t : string) :
  keeps_terminal unicode_capitalize ->
  (t = EmptyString ->
   capitalize unicode_capitalize (strip (terminate t)) = EmptyString)
  /\ (t <> EmptyString ->
      ends_in_terminal (capitalize unicode_capitalize (strip (terminate t))))
  /\ (lacks_terminal t ->
      last_char (capitalize unicode_capitalize (strip (terminate t))) = Some "."%char)
  /\ (forall c, last_char t = Some c -> is_terminal c = true ->
                last_char (capitalize unicode_capitalize (strip (terminate t))) = Some c).
Proof.
  intros capitalize_keeps_terminal.
  destruct (last_char_terminate t) as [Hlacks Hkeeps].
  assert (Hthrough : forall c,
            last_char (terminate t) = Some c -> is_terminal c = true ->
            last_char (capitalize unicode_capitalize (strip (terminate t))) = Some c).
  { intros c Hlast Hc.
    apply last_char_capitalize; [exact capitalize_keeps_terminal | | exact Hc].
    apply last_char_strip; assumption. }
  split; [|split; [|split]].
  - intros ->. reflexivity.
  - intros Hne. destruct (last_char t) as [c|] eqn:Hlast.
    + destruct (is_terminal c) eqn:Hc.
      * exists c. split; [|exact Hc]. apply Hthrough; [|exact Hc].
        apply Hkeeps; [reflexivity | exact Hc].
      * exists "."%char. split; [|reflexivity]. apply Hthrough; [|reflexivity].
        apply Hlacks. exists c. split; [exact Hlast | exact Hc].
    + apply last_char_None in Hlast. contradiction.
  - intros Hl. apply Hthrough; [apply Hlacks; exact Hl | reflexivity].
  - intros c Hlast Hc. apply Hthrough; [apply Hkeeps; assumption | exact Hc].
Qed.

Lemma process_loop (results : list RecognizerResult) :
  keeps_terminal unicode_capitalize ->
  forall groups processed,
  Forall2 (normalizes np_mean punctuator) groups processed ->
  Forall2 (normalizes np_mean punctuator) (groups ++ nonempty_groups results)
    (fold_left (process_step np_mean punctuator unicode_capitalize) results processed).
Proof.
  intros Hkeeps.
  induction results as [|res results IH]; intros groups processed Hinv.
  - cbn [nonempty_groups flat_map fold_left]. rewrite app_nil_r. exact Hinv.
  - cbn [fold_left]. unfold nonempty_groups. cbn [flat_map]. fold (nonempty_groups results).
    destruct res as [[|first rest]|]; cbn [process_step app].
    + apply IH. exact Hinv.
    + replace (groups ++ (first :: rest) :: nonempty_groups results)
        with ((groups ++ [first :: rest]) ++ nonempty_groups results)
        by (rewrite <- app_assoc; reflexivity).
      apply IH. apply Forall2_app; [exact Hinv|]. constructor; [|constructor].
      exists first, rest. cbn [start end_ confidence text].
      split; [reflexivity|]. split; [reflexivity|]. split; [reflexivity|].
      split; [reflexivity|]. cbv zeta. apply normalized_text_last_char. exact Hkeeps.
    + apply IH. exact Hinv.
Qed.

(** C9, amended. The normalizer emits nothing for a result whose word
    list is missing or empty and exactly one utterance, in input order,
    for every other result: its start is the first word's start rounded
    to two decimals, its end the last word's end rounded to two
    decimals, its confidence the arithmetic mean [numpy.mean] of the
    words' [conf], and its text is empty when the restored text is
    empty and otherwise ends in ['.'], ['?'] or ['!']: in the period
    that was appended when the restored text lacks terminal
    punctuation, in the terminal character of the restored text when it
    has one.  Of the case mapping of characters outside ASCII it is
    only asked that it keeps a final ['.'], ['?'] or ['!']. *)
Theorem process_results_normalizes (results : list RecognizerResult) :
  keeps_terminal unicode_capitalize ->
  Forall2 (normalizes np_mean punctuator) (nonempty_groups results)
    (_process_results np_mean punctuator unicode_capitalize results).
Proof. intros Hkeeps. apply (process_loop results Hkeeps [] []). constructor. Qed.

End Normalizer.

Lemma process_results_normalizes_witness :
  Forall2 (normalizes seq_mean None) (nonempty_groups sample_results)
    (_process_results seq_mean None capitalize_ascii sample_results).
Proof.
  apply (process_results_normalizes seq_mean None capitalize_ascii sample_results).
  exact last_char_capitalize_ascii.
Defined.

(** A group of one word with an empty [word], punctuation restoration
    off: the text stays empty, the period is appended to non-empty texts
    only. *)
Lemma empty_text_is_not_terminated : ~ every_text_ends_in_terminal.
Proof.
  intros claim.
  specialize (claim seq_mean None capitalize_ascii
                [Some [ {| word := EmptyString; w_start := zero;
                           w_end := one; conf := one |} ]]
                last_char_capitalize_ascii).
  unfold _process_results in claim. cbn [fold_left process_step app] in claim.
  apply Forall_inv in claim. destruct claim as (c & Hlast & _).
  cbn [text] in Hlast. vm_compute in Hlast. discriminate.
Qed.

Example process_results_sample :
  map text
    (_process_results seq_mean None capitalize_ascii
       [ Some [ mkWord "hello" zero one one; mkWord "wORLD" one one one ];
         None; Some [];
         Some [ mkWord "really?" zero one one ] ])
  = [ "Hello world."; "Really?" ]%string.
Proof. vm_compute. reflexivity. Qed.

(** ** Round to nearest, ties to even *)

Module Rounding.

Lemma cancel_twos_spec (p q g : positive) :
  let '(p', q', g') := cancel_twos p q g in
  exists k : positive, (g' = k * g /\ p = p' * k /\ q = q' * k)%positive.
Proof.
  revert q g. induction p as [p IH|p IH|]; intros q g; cbn [cancel_twos];
    try (exists 1%positive; repeat split; lia).
  destruct q as [q|q|]; try (exists 1%positive; repeat split; lia).
  specialize (IH q (xO g)). destruct (cancel_twos p q g~0) as [[p' q'] g'].
  destruct IH as (k & Hg & Hp & Hq). exists (xO k). repeat split; lia.
Qed.

(** [div_mod] is Euclidean division. *)
Lemma div_mod_eq (p q : Z) : div_mod p q = (p / q, p mod q).
Proof.
  destruct p as [|a|a], q as [|b|b]; try reflexivity.
  unfold div_mod. pose proof (cancel_twos_spec a b 1) as H.
  destruct (cancel_twos a b 1) as [[a' b'] g]. destruct H as (k & Hg & Ha & Hb).
  assert (g = k) by lia. subst k. clear Hg.
  rewrite Ha, Hb, !Pos2Z.inj_mul.
  rewrite Z.div_mul_cancel_r by lia. rewrite Z.mul_mod_distr_r by lia. reflexivity.
Qed.

Lemma round_half_even_eq (p q : Z) :
  round_half_even p q =
  match 2 * (p mod q) ?= q with
  | Lt => p / q
  | Gt => p / q + 1
  | Eq => if Z.even (p / q) then p / q else p / q + 1
  end.
Proof. unfold round_half_even. rewrite div_mod_eq. reflexivity. Qed.

Lemma round_half_even_bounds (p q : Z) :
  p / q <= round_half_even p q <= p / q + 1.
Proof.
  rewrite round_half_even_eq.
  destruct (2 * (p mod q) ?= q); [destruct (Z.even (p / q))| |]; lia.
Qed.

Lemma round_half_even_nonneg (p q : Z) :
  0 <= p -> 0 < q -> 0 <= round_half_even p q.
Proof.
  intros Hp Hq. pose proof (round_half_even_bounds p q).
  pose proof (Z.div_pos p q Hp Hq). lia.
Qed.

(** A multiple of [q] is its own rounding. *)
Lemma round_half_even_exact (d q : Z) :
  0 < q -> round_half_even (q * d) q = d.
Proof.
  intros Hq. rewrite round_half_even_eq.
  replace (q * d) with (d * q) by lia.
  rewrite Z.mod_mul, Z.div_mul by lia.
  destruct (Z.compare_spec (2 * 0) q); [lia | reflexivity | lia].
Qed.

(** Rounding does not jump over an integer. *)
Lemma round_half_even_le (p q w : Z) :
  0 < q -> p <= q * w -> round_half_even p q <= w.
Proof.
  intros Hq Hp. rewrite round_half_even_eq.
  pose proof (Z.mod_pos_bound p q Hq) as Hr.
  pose proof (Z.div_mod p q ltac:(lia)) as Hdm.
  assert (Hd : p / q <= w) by nia.
  destruct (Z.compare_spec (2 * (p mod q)) q) as [Heq|Hlt|Hgt].
  - destruct (Z.even (p / q)); [exact Hd|].
    assert (p / q <> w) by (intros E; rewrite E in Hdm; nia). lia.
  - exact Hd.
  - assert (p / q <> w) by (intros E; rewrite E in Hdm; nia). lia.
Qed.

Lemma quantum_eq (p q : Z) :
  quantum p q = 2 ^ Z.max 0 (Z.log2 (p / q) - 52).
Proof. unfold quantum. rewrite div_mod_eq. reflexivity. Qed.

Lemma quantum_pos (p q : Z) : 0 < quantum p q.
Proof. rewrite quantum_eq. apply Z.pow_pos_nonneg; lia. Qed.

Lemma round_units_nonneg (p q : Z) : 0 <= p -> 0 < q -> 0 <= round_units p q.
Proof.
  intros Hp Hq. unfold round_units. pose proof (quantum_pos p q) as Hu.
  apply Z.mul_nonneg_nonneg; [|lia].
  apply round_half_even_nonneg; [exact Hp | nia].
Qed.

Lemma grid_pos (v : Z) : 0 < grid v.
Proof. apply Z.pow_pos_nonneg; lia. Qed.

Lemma quantum_mul (q v : Z) : 0 < q -> quantum (q * v) q = grid v.
Proof.
  intros Hq. rewrite quantum_eq. unfold grid.
  replace (q * v) with (v * q) by lia. rewrite Z.div_mul by lia. reflexivity.
Qed.

(** A magnitude on its own grid is its own rounding. *)
Lemma round_units_exact (q v : Z) :
  0 < q -> v mod grid v = 0 -> round_units (q * v) q = v.
Proof.
  intros Hq Hv. unfold round_units. rewrite quantum_mul by exact Hq.
  pose proof (grid_pos v) as Hu.
  apply Z.div_exact in Hv; [|lia].
  replace (q * v) with (q * grid v * (v / grid v)) by nia.
  rewrite round_half_even_exact by nia. lia.
Qed.

(** Rounding does not jump over a point of its grid. *)
Lemma round_units_le_grid (p q n : Z) :
  0 < q -> p <= q * n -> n mod quantum p q = 0 -> round_units p q <= n.
Proof.
  intros Hq Hp Hn. unfold round_units. pose proof (quantum_pos p q) as Hu.
  apply Z.div_exact in Hn; [|lia].
  set (u := quantum p q) in *. set (w := n / u) in *.
  assert (round_half_even p (q * u) <= w) by (apply round_half_even_le; nia).
  nia.
Qed.

Lemma round_units_le_pow2 (p q e : Z) :
  0 <= p -> 0 < q -> 0 <= e -> p < q * 2 ^ e -> round_units p q <= 2 ^ e.
Proof.
  intros Hp Hq He Hlt. unfold round_units. rewrite quantum_eq.
  set (k := Z.max 0 (Z.log2 (p / q) - 52)).
  assert (Hk : 0 <= k) by lia.
  assert (Hpe : 0 < 2 ^ e) by (apply Z.pow_pos_nonneg; lia).
  assert (Hpk : 0 < 2 ^ k) by (apply Z.pow_pos_nonneg; lia).
  assert (Hdiv : p / q < 2 ^ e) by (apply Z.div_lt_upper_bound; lia).
  destruct (Z.le_gt_cases k e) as [Hke|Hke].
  - assert (Hsplit : 2 ^ e = 2 ^ (e - k) * 2 ^ k)
      by (rewrite <- Z.pow_add_r by lia; f_equal; lia).
    assert (0 < 2 ^ (e - k)) by (apply Z.pow_pos_nonneg; lia).
    assert (round_half_even p (q * 2 ^ k) <= 2 ^ (e - k))
      by (apply round_half_even_le; nia).
    nia.
  - exfalso. assert (Hlog : e < Z.log2 (p / q)) by lia.
    assert (Hpos : 0 < p / q).
    { destruct (Z.lt_trichotomy 0 (p / q)) as [H|[H|H]]; [exact H| |].
      - rewrite <- H in Hlog. cbn in Hlog. lia.
      - rewrite Z.log2_nonpos in Hlog by lia. lia. }
    pose proof (Z.log2_spec (p / q) Hpos) as [Hlow _].
    assert (2 ^ e <= 2 ^ Z.log2 (p / q)) by (apply Z.pow_le_mono_r; lia).
    lia.
Qed.

(** Grids are nested. *)
Lemma grid_divide (a n : Z) : 0 <= a <= n -> (grid a | grid n).
Proof.
  intros [Ha Han]. unfold grid.
  assert (Hlog : Z.log2 a <= Z.log2 n) by (apply Z.log2_le_mono; exact Han).
  set (i := Z.max 0 (Z.log2 a - 52)). set (j := Z.max 0 (Z.log2 n - 52)).
  exists (2 ^ (j - i)). rewrite <- Z.pow_add_r by lia. f_equal. lia.
Qed.

Lemma on_grid_below (a n : Z) :
  0 <= a <= n -> n mod grid n = 0 -> n mod grid a = 0.
Proof.
  intros Han Hn. pose proof (grid_pos a). pose proof (grid_pos n).
  apply Z.mod_divide; [lia|]. apply Z.mod_divide in Hn; [|lia].
  eapply Z.divide_trans; [apply grid_divide; exact Han | exact Hn].
Qed.

(** Integers below [2^53], scaled to units, are on their grid. *)
Lemma scaled_integer_on_grid (k e : Z) :
  0 <= k < 2 ^ 53 -> 0 <= e -> (k * 2 ^ e) mod grid (k * 2 ^ e) = 0.
Proof.
  intros [Hk0 Hk] He. destruct (Z.eq_dec k 0) as [->|Hne].
  - rewrite Z.mul_0_l. apply Z.mod_0_l. pose proof (grid_pos 0). lia.
  - unfold grid. rewrite Z.log2_mul_pow2 by lia.
    assert (Hlog : Z.log2 k < 53) by (apply Z.log2_lt_pow2; lia).
    set (j := Z.max 0 (e + Z.log2 k - 52)).
    assert (Hj : 0 <= j <= e) by lia.
    replace (2 ^ e) with (2 ^ (e - j) * 2 ^ j)
      by (rewrite <- Z.pow_add_r by lia; f_equal; lia).
    rewrite Z.mul_assoc. apply Z.mod_mul.
    assert (0 < 2 ^ j) by (apply Z.pow_pos_nonneg; lia). lia.
Qed.

End Rounding.

(** ** [divmod] on non-negative floats *)

Module DivMod.

Import Rounding.

Lemma one_units_eq : one_units = 2 ^ 1074.
Proof. reflexivity. Qed.

Lemma overflow_units_eq : overflow_units = 2 ^ 1024 * one_units.
Proof.
  unfold overflow_units, one_units. rewrite <- Z.pow_add_r by lia. reflexivity.
Qed.

Lemma one_units_pos : 0 < one_units.
Proof. rewrite one_units_eq. apply Z.pow_pos_nonneg; lia. Qed.

Lemma half_units_pos : 0 < one_units / 2.
Proof.
  rewrite one_units_eq. replace 1074 with (1 + 1073) by lia.
  rewrite Z.pow_add_r by lia. rewrite Z.mul_comm, Z.div_mul by lia.
  apply Z.pow_pos_nonneg; lia.
Qed.

#[local] Opaque one_units overflow_units.

(** Large powers of two are kept as variables in arithmetic goals. *)
Ltac hide_pow k :=
  let P := fresh "P" in set (P := 2 ^ k) in *; clearbody P.

Lemma signed_zero (s : bool) : signed s 0 = 0.
Proof. destruct s; reflexivity. Qed.

Lemma of_exact_finite (neg : bool) (p q : Z) :
  round_units p q < overflow_units ->
  of_exact neg p q = Fin neg (round_units p q).
Proof.
  intros H. unfold of_exact. apply Z.ltb_lt in H. rewrite H. reflexivity.
Qed.

(** Subtraction of a smaller magnitude, both of the sign of a
    non-negative float. *)
Lemma fsub_nonneg_le (s : bool) (a b : Z) :
  0 <= b <= a -> (s = true -> a = 0) ->
  fsub (Fin s a) (Fin s b)
  = if a - b =? 0 then Fin false 0 else of_exact false (a - b) 1.
Proof.
  intros Hab Hs. unfold fsub, fneg, fadd. destruct s.
  - assert (a = 0) by (apply Hs; reflexivity). assert (b = 0) by lia. subst.
    reflexivity.
  - cbn [signed negb andb]. replace (a + - b) with (a - b) by lia.
    destruct (a - b =? 0) eqn:E; [reflexivity|].
    apply Z.eqb_neq in E. replace (a - b <? 0) with false by (symmetry; apply Z.ltb_ge; lia).
    rewrite Z.abs_eq by lia. reflexivity.
Qed.

(** Integer magnitudes below [2^53] are exact. *)
Lemma round_units_integer (q k : Z) :
  0 < q -> 0 <= k < 2 ^ 53 -> round_units (q * (k * one_units)) q = k * one_units.
Proof.
  intros Hq Hk. apply round_units_exact; [exact Hq|].
  rewrite one_units_eq. apply scaled_integer_on_grid; [exact Hk | lia].
Qed.

Section NonNegative.

(** The dividend [(-1)^s * n] is a non-negative binary64 value; the
    divisor is the integer [c]. *)
Variables (s : bool) (n c : Z).
Hypothesis n_nonneg : 0 <= n.
Hypothesis s_zero : s = true -> n = 0.
Hypothesis c_range : 4 <= c < 2 ^ 53.
Hypothesis n_binary64 :
  n < 2 ^ 53 * one_units \/ (n < overflow_units /\ n mod grid n = 0).

Let W := c * one_units.
Let r := n mod W.
Let k := n / W.

Local Lemma W_pos : 0 < W.
Proof. pose proof one_units_pos. unfold W. nia. Qed.

Local Lemma r_range : 0 <= r < W.
Proof. apply Z.mod_pos_bound, W_pos. Qed.

Local Lemma k_nonneg : 0 <= k.
Proof. apply Z.div_pos; [exact n_nonneg | apply W_pos]. Qed.

Local Lemma n_split : n = W * k + r.
Proof. apply Z.div_mod. pose proof W_pos. lia. Qed.

Local Lemma small_k : n < 2 ^ 53 * one_units -> 0 <= c * k < 2 ^ 53.
Proof.
  intros Hn. pose proof one_units_pos. pose proof k_nonneg. pose proof r_range.
  pose proof n_split. unfold W in *. split; [nia|].
  assert (c * k * one_units < 2 ^ 53 * one_units) by nia. nia.
Qed.

Local Lemma pow_2098 : overflow_units = 4 * (2 ^ 2096).
Proof.
  rewrite overflow_units_eq, one_units_eq, <- Z.pow_add_r by lia.
  change 4 with (2 ^ 2). rewrite <- Z.pow_add_r by lia. reflexivity.
Qed.

(** [vx - mod]. *)
Lemma sub_step :
  exists a',
    fsub (Fin s n) (Fin s r) = Fin false a'
    /\ 0 <= a' < overflow_units
    /\ (n < 2 ^ 53 * one_units -> a' = W * k).
Proof.
  pose proof r_range as Hr. pose proof n_split as Hn. pose proof k_nonneg as Hk.
  pose proof W_pos as HW. pose proof one_units_pos as Hu.
  assert (Ha : n - r = W * k) by lia.
  rewrite fsub_nonneg_le by (try exact s_zero; lia).
  destruct (n - r =? 0) eqn:E.
  - apply Z.eqb_eq in E. exists 0. split; [reflexivity|]. split.
    + rewrite pow_2098. assert (0 < 2 ^ 2096) by (apply Z.pow_pos_nonneg; lia).
      hide_pow 2096. lia.
    + intros _. lia.
  - assert (Hnn : 0 <= round_units (n - r) 1) by (apply round_units_nonneg; lia).
    assert (Hexact : n < 2 ^ 53 * one_units -> round_units (n - r) 1 = W * k).
    { intros Hsmall. pose proof (small_k Hsmall) as Hck.
      replace (n - r) with (1 * (c * k * one_units)) by (unfold W in Ha; lia).
      rewrite round_units_integer by lia. unfold W. lia. }
    assert (Hlt : round_units (n - r) 1 < overflow_units).
    { destruct n_binary64 as [Hsmall|[Hfin Hgrid]].
      - rewrite (Hexact Hsmall). rewrite overflow_units_eq.
        assert (2 ^ 53 < 2 ^ 1024) by (apply Z.pow_lt_mono_r; lia).
        pose proof (small_k Hsmall) as Hck. hide_pow 1024. unfold W. nia.
      - assert (round_units (n - r) 1 <= n); [|lia].
        apply round_units_le_grid; [lia | lia |].
        replace (n - r) with (1 * (n - r)) by lia.
        rewrite quantum_mul by lia. apply on_grid_below; [lia | exact Hgrid]. }
    exists (round_units (n - r) 1).
    rewrite of_exact_finite by exact Hlt. repeat split; assumption.
Qed.

(** [(vx - mod) / wx]. *)
Lemma div_step (a' : Z) :
  0 <= a' < overflow_units ->
  (n < 2 ^ 53 * one_units -> a' = W * k) ->
  exists b,
    fdiv (Fin false a') (Fin false W) = Fin false b
    /\ 0 <= b <= 2 ^ 2096
    /\ (n < 2 ^ 53 * one_units -> b = k * one_units).
Proof.
  intros Ha Hexact. pose proof W_pos as HW. pose proof one_units_pos as Hu.
  pose proof k_nonneg as Hk.
  pose proof (fun p q Hp Hq => round_units_le_pow2 p q 2096 Hp Hq ltac:(lia))
    as Hbound.
  pose proof pow_2098 as Hover. rewrite Hover in Ha.
  assert (Hp : 0 < 2 ^ 2096) by (apply Z.pow_pos_nonneg; lia).
  hide_pow 2096.
  unfold fdiv. replace (W =? 0) with false by (symmetry; apply Z.eqb_neq; lia).
  cbn [xorb]. destruct (a' =? 0) eqn:E.
  - apply Z.eqb_eq in E. exists 0. split; [reflexivity|]. split; [lia|].
    intros Hsmall. specialize (Hexact Hsmall). nia.
  - apply Z.eqb_neq in E.
    assert (Hle : round_units (a' * one_units) W <= P).
    { apply Hbound; [nia | lia |]. unfold W. nia. }
    assert (Hnn : 0 <= round_units (a' * one_units) W)
      by (apply round_units_nonneg; nia).
    exists (round_units (a' * one_units) W).
    rewrite of_exact_finite by (rewrite Hover; lia).
    split; [reflexivity|]. split; [lia|].
    intros Hsmall. rewrite (Hexact Hsmall).
    replace (W * k * one_units) with (W * (k * one_units)) by lia.
    apply round_units_integer; [lia|].
    pose proof (small_k Hsmall). nia.
Qed.

Lemma fltb_nonneg_zero (m : Z) : 0 <= m -> fltb (Fin false m) zero = false.
Proof.
  intros Hm. unfold fltb, fcompare, zero, signed.
  destruct (Z.compare_spec m 0); try reflexivity. lia.
Qed.

Lemma fgtb_zero_half : fgtb (Fin false 0) half = false.
Proof.
  pose proof half_units_pos. unfold fgtb, fltb, fcompare, half, signed.
  destruct (Z.compare_spec (one_units / 2) 0); try reflexivity. lia.
Qed.

Lemma int_of_float_nonneg (m : Z) :
  int_of_float (Fin false m) = Ok (m / one_units).
Proof. unfold int_of_float. rewrite div_mod_eq. reflexivity. Qed.

(** The quotient snapped to an integral value, and [int] of it. *)
Lemma floor_step (b : Z) (x : float) :
  0 <= b <= 2 ^ 2096 ->
  exists q h,
    (if nonzero (Fin false b) then
       if fgtb (fsub (Fin false b) (ffloor (Fin false b))) half
       then fadd (ffloor (Fin false b)) one
       else ffloor (Fin false b)
     else copysign zero x) = q
    /\ int_of_float q = Ok h
    /\ 0 <= h
    /\ (b mod one_units = 0 -> h = b / one_units).
Proof.
  intros Hb. pose proof one_units_pos as Hu.
  pose proof (fun p q Hp Hq => round_units_le_pow2 p q 2097 Hp Hq ltac:(lia))
    as Hbound.
  pose proof pow_2098 as Hover.
  assert (Hpow : 2 ^ 2097 = 2 * 2 ^ 2096)
    by (change 2097 with (1 + 2096); rewrite Z.pow_add_r by lia; reflexivity).
  assert (Hone : one_units < 2 ^ 2096)
    by (rewrite one_units_eq; apply Z.pow_lt_mono_r; lia).
  hide_pow 2097. hide_pow 2096.
  unfold nonzero. destruct (b =? 0) eqn:E; cbn [negb].
  - apply Z.eqb_eq in E. subst b. exists (copysign zero x), 0.
    split; [reflexivity|]. split.
    + unfold copysign, zero, int_of_float. rewrite div_mod_eq. cbn [fst].
      rewrite Z.div_0_l by lia. rewrite signed_zero. reflexivity.
    + split; [lia|]. intros _. rewrite Z.div_0_l by lia. reflexivity.
  - apply Z.eqb_neq in E. unfold ffloor. rewrite div_mod_eq. cbn [fst].
    set (f := b / one_units * one_units).
    assert (Hdm : b = one_units * (b / one_units) + b mod one_units)
      by (apply Z.div_mod; lia).
    pose proof (Z.mod_pos_bound b one_units Hu) as Hmod.
    assert (Hdiv : 0 <= b / one_units) by (apply Z.div_pos; lia).
    assert (Hf : 0 <= f <= b) by (unfold f; nia).
    assert (Hfl : int_of_float (Fin false f) = Ok (b / one_units)).
    { rewrite int_of_float_nonneg. unfold f. rewrite Z.div_mul by lia. reflexivity. }
    rewrite fsub_nonneg_le by (try discriminate; lia).
    destruct (b - f =? 0) eqn:Ez.
    + rewrite fgtb_zero_half. exists (Fin false f), (b / one_units).
      repeat split; try assumption.
    + apply Z.eqb_neq in Ez. destruct (fgtb (of_exact false (b - f) 1) half).
      * unfold fadd, one. cbn [signed].
        replace (f + one_units =? 0) with false by (symmetry; apply Z.eqb_neq; lia).
        replace (f + one_units <? 0) with false by (symmetry; apply Z.ltb_ge; lia).
        rewrite Z.abs_eq by lia.
        assert (Hle : round_units (f + one_units) 1 <= P)
          by (apply Hbound; lia).
        rewrite of_exact_finite by (rewrite Hover; lia).
        exists (Fin false (round_units (f + one_units) 1)),
               (round_units (f + one_units) 1 / one_units).
        split; [reflexivity|]. split; [apply int_of_float_nonneg|]. split.
        -- apply Z.div_pos; [|lia]. apply round_units_nonneg; lia.
        -- intros Hexact. exfalso. unfold f in Ez. lia.
      * exists (Fin false f), (b / one_units). repeat split; try assumption.
Qed.

(** [divmod] of a non-negative binary64 value by the integer [c]: the
    remainder is exact, the quotient is a non-negative integer, equal to
    the integer quotient when the dividend is below [2^53]. *)
Lemma float_divmod_nonneg :
  exists q h,
    float_divmod (Fin s n) (Fin false W) = Ok (q, Fin false r)
    /\ int_of_float q = Ok h
    /\ 0 <= h
    /\ (n < 2 ^ 53 * one_units -> h = k).
Proof.
  pose proof W_pos as HW. pose proof r_range as Hr. pose proof one_units_pos as Hu.
  destruct sub_step as (a' & Hsub & Ha & Haexact).
  destruct (div_step a' Ha Haexact) as (b & Hdiv & Hb & Hbexact).
  destruct (floor_step b (fdiv (Fin s n) (Fin false W)) Hb) as (q & h & Hq & Hint & Hh & Hhexact).
  exists q, h. split; [|split; [exact Hint|split; [exact Hh|]]].
  - unfold float_divmod.
    replace (nonzero (Fin false W)) with true
      by (unfold nonzero; symmetry; apply negb_true_iff, Z.eqb_neq; lia).
    cbn [negb]. cbv zeta.
    replace (fmod (Fin s n) (Fin false W)) with (Fin s r).
    2:{ unfold fmod. replace (W =? 0) with false by (symmetry; apply Z.eqb_neq; lia).
        rewrite div_mod_eq. reflexivity. }
    rewrite Hsub, Hdiv. unfold nonzero at 1. destruct (r =? 0) eqn:Er; cbn [negb].
    + apply Z.eqb_eq in Er. rewrite Hq. unfold copysign, zero, sign_bit.
      rewrite Er. reflexivity.
    + apply Z.eqb_neq in Er.
      assert (Hs : s = false).
      { destruct s; [|reflexivity]. exfalso. apply Er.
        subst r. rewrite (s_zero eq_refl). apply Z.mod_0_l. lia. }
      rewrite Hs in Hq |- *. rewrite !fltb_nonneg_zero by lia. cbn [xorb].
      rewrite Hq. reflexivity.
  - intros Hsmall. rewrite Hhexact.
    + rewrite (Hbexact Hsmall). apply Z.div_mul. lia.
    + rewrite (Hbexact Hsmall). apply Z.mod_mul. lia.
Qed.

End NonNegative.

End DivMod.

(** ** The shape of a timecode *)

Module TimeCode.

Import Rounding DivMod.

Local Open Scope string_scope.

Lemma app_assoc (a b c : string) : (a ++ b) ++ c = a ++ (b ++ c).
Proof. induction a as [|x a IH]; cbn [append]; [reflexivity | rewrite IH; reflexivity]. Qed.

Lemma length_app (a b : string) :
  String.length (a ++ b) = (String.length a + String.length b)%nat.
Proof. induction a as [|x a IH]; cbn [append String.length]; [reflexivity | rewrite IH; reflexivity]. Qed.

Lemma replace_app (x y : ascii) (a b : string) :
  replace x y (a ++ b) = replace x y a ++ replace x y b.
Proof. induction a as [|c a IH]; cbn [append replace]; [reflexivity | rewrite IH; reflexivity]. Qed.

Lemma replace_zeros (k : nat) : replace "." "," (zeros k) = zeros k.
Proof. induction k as [|k IH]; cbn [zeros replace]; [reflexivity | rewrite IH; reflexivity]. Qed.

Lemma replace_uint (d : Decimal.uint) :
  replace "." "," (NilEmpty.string_of_uint d) = NilEmpty.string_of_uint d.
Proof. induction d; cbn [NilEmpty.string_of_uint replace]; rewrite ?IHd; reflexivity. Qed.

Lemma replace_digits (n : Z) : replace "." "," (digits n) = digits n.
Proof.
  unfold digits, NilZero.string_of_uint.
  destruct (N.to_uint (Z.to_N n)); try apply replace_uint. reflexivity.
Qed.

(** Digits and padding hold no decimal point. *)
Lemma replace_zero_pad (width : nat) (n : Z) :
  replace "." "," (zero_pad width false (digits n)) = zero_pad width false (digits n).
Proof.
  unfold zero_pad. cbn [append]. rewrite replace_app, replace_zeros, replace_digits.
  reflexivity.
Qed.

Lemma format_02_nonneg (n : Z) : 0 <= n -> format_02 n = zero_pad 2 false (digits n).
Proof.
  intros Hn. unfold format_02.
  replace (n <? 0)%Z with false by (symmetry; apply Z.ltb_ge; lia).
  rewrite Z.abs_eq by lia. reflexivity.
Qed.

Lemma length_zero_pad (width : nat) (body : string) :
  (width <= String.length (zero_pad width false body))%nat.
Proof.
  unfold zero_pad. cbn [append String.length]. rewrite length_app.
  assert (String.length (zeros (width - 0 - String.length body))
          = (width - 0 - String.length body)%nat) as ->.
  { generalize (width - 0 - String.length body)%nat. intros k.
    induction k as [|k IH]; cbn [zeros String.length]; [reflexivity | rewrite IH; reflexivity]. }
  lia.
Qed.

(** Facts checked on every number of an initial segment of the integers. *)
Lemma below_checked (P : Z -> bool) (bound : nat) :
  forallb (fun i => P (Z.of_nat i)) (seq 0 bound) = true ->
  forall n, 0 <= n < Z.of_nat bound -> P n = true.
Proof.
  intros Hall n Hn. rewrite forallb_forall in Hall.
  specialize (Hall (Z.to_nat n)). rewrite Z2Nat.id in Hall by lia.
  apply Hall, in_seq. lia.
Qed.

Lemma length_format_02 (n : Z) : 0 <= n < 100 -> String.length (format_02 n) = 2%nat.
Proof.
  intros Hn. apply Nat.eqb_eq.
  apply (below_checked (fun i => Nat.eqb (String.length (format_02 i)) 2) 100);
    [vm_compute; reflexivity | exact Hn].
Qed.

Lemma length_format_03 (n : Z) : 0 <= n < 1000 -> String.length (format_03 n) = 3%nat.
Proof.
  intros Hn. apply Nat.eqb_eq.
  apply (below_checked (fun i => Nat.eqb (String.length (format_03 i)) 3) 1000);
    [vm_compute; reflexivity | exact Hn].
Qed.

(** [06.3f] of a magnitude: whole part padded to two digits, a point,
    three decimals. *)
Lemma format_06_3f_nonneg (m : Z) :
  0 <= m ->
  let thousandths := round_half_even (m * 1000) one_units in
  format_06_3f (Fin false m)
  = format_02 (thousandths / 1000) ++ "." ++ format_03 (thousandths mod 1000).
Proof.
  intros Hm t. pose proof one_units_pos as Hu.
  assert (Ht : 0 <= t) by (apply round_half_even_nonneg; lia).
  assert (Hd : (0 <= t / 1000)%Z) by (apply Z.div_pos; lia).
  pose proof (Z.mod_pos_bound t 1000 ltac:(lia)) as Hr.
  unfold format_06_3f. fold t. rewrite format_02_nonneg by exact Hd.
  unfold zero_pad at 1 2. cbn [append]. rewrite app_assoc. f_equal.
  rewrite length_app. cbn [String.length]. rewrite length_format_03 by exact Hr.
  f_equal. lia.
Qed.

Lemma of_Z_small (z : Z) : 0 <= z < 2 ^ 53 -> of_Z z = Fin false (z * one_units).
Proof.
  intros Hz. pose proof one_units_pos as Hu. unfold of_Z.
  replace (z <? 0)%Z with false by (symmetry; apply Z.ltb_ge; lia).
  rewrite Z.abs_eq by lia.
  replace (z * one_units)%Z with (1 * (z * one_units))%Z at 1 by lia.
  assert (Hr : round_units (1 * (z * one_units)) 1 = (z * one_units)%Z)
    by (apply round_units_integer; lia).
  rewrite of_exact_finite; rewrite Hr; [reflexivity|].
  rewrite overflow_units_eq.
  assert (2 ^ 53 < 2 ^ 1024)%Z by (apply Z.pow_lt_mono_r; lia).
  hide_pow 1024. hide_pow 53. nia.
Qed.

End TimeCode.

(** [0.9996] is rendered [00:00:01,000]: the [.3f] conversion rounds,
    truncation would give [00:00:00,999]. *)
Lemma format_time_rounds_up : ~ millis_are_truncated.
Proof.
  intros claim.
  destruct (claim (of_ratio 9996 10000)) as (out & Hout & Hends);
    try (vm_compute; reflexivity).
  vm_compute in Hout. injection Hout as <-.
  vm_compute in Hends. discriminate.
Qed.

Example truncated_millis_0_9996 : truncated_millis (of_ratio 9996 10000) = 999.
Proof. vm_compute. reflexivity. Qed.

Section TimeCodeShape.

Import Rounding DivMod TimeCode.

#[local] Opaque one_units overflow_units.

Lemma binary64_fields (s : bool) (n : Z) :
  is_binary64 (Fin s n) = true ->
  0 <= n /\ n < overflow_units /\ n mod grid n = 0.
Proof.
  unfold is_binary64. rewrite !andb_true_iff, Z.leb_le, Z.ltb_lt, Z.eqb_eq.
  rewrite div_mod_eq. cbn [snd]. tauto.
Qed.

Lemma nonneg_sign (s : bool) (n : Z) :
  0 <= n -> fleb zero (Fin s n) = true -> s = true -> n = 0.
Proof.
  intros Hn Hle ->. unfold fleb, fcompare, zero, signed in Hle.
  destruct (Z.compare_spec 0 (- n)); try discriminate; lia.
Qed.

(** C5, amended. For every finite non-negative float the formatter
    returns [HH:MM:SS,mmm]: the hours in at least two digits (not
    wrapped at 24), the minutes and the seconds in two digits, a comma,
    and three digits of thousandths, the seconds within the minute
    being rounded to the nearest thousandth (ties to even), not
    truncated. *)
Theorem format_time_rounds_to_thousandths (seconds : float) :
  is_finite seconds = true ->
  is_binary64 seconds = true ->
  fleb zero seconds = true ->
  rounded_timecode seconds.
Proof.
  intros Hfin Hb64 Hnonneg. destruct seconds as [| |s n]; try discriminate.
  destruct (binary64_fields s n Hb64) as (Hn & Hover & Hgrid).
  pose proof (nonneg_sign s n Hn Hnonneg) as Hs.
  pose proof one_units_pos as Hu.
  assert (Hp53 : 3600 < 2 ^ 53) by (apply Z.log2_lt_pow2; [lia | reflexivity]).
  unfold rounded_timecode. cbn [magnitude]. cbv zeta.
  set (r1 := n mod (3600 * one_units)).
  set (r2 := n mod (60 * one_units)).
  set (t := round_half_even (r2 * 1000) one_units).
  assert (Hr1 : 0 <= r1 < 3600 * one_units) by (apply Z.mod_pos_bound; lia).
  assert (Hr2 : 0 <= r2 < 60 * one_units) by (apply Z.mod_pos_bound; lia).
  assert (Hr12 : r1 mod (60 * one_units) = r2).
  { unfold r1, r2. apply Z.mod_mod_divide. exists 60. lia. }
  destruct (float_divmod_nonneg s n 3600 Hn Hs ltac:(lia) (or_intror (conj Hover Hgrid)))
    as (q1 & h & Hdm1 & Hint1 & Hh & Hhex).
  assert (Hsmall : r1 < 2 ^ 53 * one_units).
  { assert (3600 * one_units <= 2 ^ 53 * one_units)
      by (apply Z.mul_le_mono_nonneg_r; lia).
    lia. }
  destruct (float_divmod_nonneg false r1 60 ltac:(lia) ltac:(discriminate) ltac:(lia)
              (or_introl Hsmall))
    as (q2 & m & Hdm2 & Hint2 & Hm & Hmex).
  cbv zeta in Hdm1, Hdm2, Hhex, Hmex. fold r1 in Hdm1. rewrite Hr12 in Hdm2.
  specialize (Hmex Hsmall). subst m.
  assert (Hmin : r1 / (60 * one_units) < 60)
    by (apply Z.div_lt_upper_bound; lia).
  assert (Ht : 0 <= t <= 60000).
  { split; [apply round_half_even_nonneg; lia|].
    apply round_half_even_le; lia. }
  assert (Htd : 0 <= t / 1000 < 100).
  { split; [apply Z.div_pos; lia|]. apply Z.div_lt_upper_bound; lia. }
  pose proof (Z.mod_pos_bound t 1000 ltac:(lia)) as Htm.
  exists h. split.
  { unfold _format_time. rewrite (of_Z_small 3600), (of_Z_small 60) by lia.
    rewrite Hdm1. cbn [bind]. rewrite Hdm2. cbn [bind].
    rewrite Hint1. cbn [bind]. rewrite Hint2. cbn [bind]. f_equal.
    pose proof (format_06_3f_nonneg r2 ltac:(lia)) as Hfmt. cbv zeta in Hfmt.
    fold t in Hfmt. rewrite Hfmt.
    rewrite !replace_app.
    rewrite (format_02_nonneg h), (format_02_nonneg (r1 / (60 * one_units))),
      (format_02_nonneg (t / 1000)) by lia.
    rewrite !replace_zero_pad. unfold format_03. rewrite replace_zero_pad.
    reflexivity. }
  split; [exact Hh|]. split; [exact Hhex|]. split; [lia|]. split; [exact Ht|].
  split; [rewrite format_02_nonneg by lia; apply length_zero_pad|].
  split; [apply length_format_02; lia|].
  split; [apply length_format_02; lia | apply length_format_03; lia].
Qed.

End TimeCodeShape.

Lemma format_time_rounds_to_thousandths_witness :
  rounded_timecode (of_ratio 9996 10000).
Proof.
  apply (format_time_rounds_to_thousandths (of_ratio 9996 10000));
    vm_compute; reflexivity.
Defined.

Example format_time_0_9996 :
  _format_time (of_ratio 9996 10000) = Ok "00:00:01,000"%string.
Proof. vm_compute. reflexivity. Qed.

(** Hours do not wrap: 100 hours and one second. *)
Example format_time_100_hours :
  _format_time (of_Z 360001) = Ok "100:00:01,000"%string.
Proof. vm_compute. reflexivity. Qed.

(** Seconds that round up to the next minute are not carried over. *)
Example format_time_59_9996 :
  _format_time (of_ratio 599996 10000) = Ok "00:00:60,000"%string.
Proof. vm_compute. reflexivity. Qed.

(** The spec's example [3725.6] leaves [5.599999999999909] seconds,
    whose truncation to thousandths is 599. *)
Example truncated_millis_3725_6 : truncated_millis (of_ratio 37256 10) = 599.
Proof. vm_compute. reflexivity. Qed.

(** Infinity has no timecode: [divmod] yields NaN and [int] raises. *)
Example format_time_infinity : _format_time (Inf false) = Raise ValueError.
Proof. vm_compute. reflexivity. Qed.

(** * Further properties *)

(** ** The packing of the optimizer *)

Section Packing.

Variable config : Config.

Lemma buffers_loop_pack (items : list Segment) : forall flushed buffer,
  (let '(flushed', buffer') := fold_left (buffers_step config) items (flushed, buffer) in
   match buffer' with
   | [] => flushed'
   | _ :: _ => flushed' ++ [buffer']
   end)
  = flushed ++ pack config buffer items.
Proof.
  induction items as [|item items IH]; intros flushed buffer; cbn [fold_left pack].
  - destruct buffer; [rewrite app_nil_r|]; reflexivity.
  - unfold buffers_step at 2. destruct buffer as [|first rest].
    + apply IH.
    + destruct (fits config first (first :: rest) item).
      * apply IH.
      * rewrite IH, <- app_assoc. reflexivity.
Qed.

Lemma cue_buffers_pack (items : list Segment) :
  cue_buffers config items = pack config [] items.
Proof. unfold cue_buffers. apply (buffers_loop_pack items [] []). Qed.

(** A packing from a non-empty buffer starts with a block that begins
    like the buffer. *)
Lemma pack_head (items : list Segment) : forall first rest,
  exists rest' blocks, pack config (first :: rest) items = (first :: rest') :: blocks.
Proof.
  induction items as [|item items IH]; intros first rest; cbn [pack].
  - exists rest, []. reflexivity.
  - destruct (fits config first (first :: rest) item).
    + apply (IH first (rest ++ [item])).
    + exists rest, (pack config [item] items). reflexivity.
Qed.

Lemma pack_boundaries (items : list Segment) : forall first rest,
  all_adjacent (boundary config) (pack config (first :: rest) items).
Proof.
  induction items as [|item items IH]; intros first rest; cbn [pack].
  - exact I.
  - destruct (fits config first (first :: rest) item) eqn:Efits.
    + apply (IH first (rest ++ [item])).
    + destruct (pack_head items item []) as (rest' & blocks & Hhead).
      specialize (IH item []). rewrite Hhead in *. split; [exact Efits | exact IH].
Qed.

End Packing.

(** X1. The packing is greedy: wherever one cue ends and the next
    begins, the first utterance of the next one had failed the test of
    the loop against the whole buffer of the one before. *)
Theorem cue_boundaries_are_forced (config : Config) (items : list Utterance) :
  all_adjacent (boundary config) (cue_buffers config items).
Proof.
  rewrite cue_buffers_pack. destruct items as [|item items]; [exact I|].
  apply (pack_boundaries config items item []).
Qed.

Lemma sum_nonneg (xs : list Z) : Forall (fun y => 0 <= y) xs -> 0 <= sum xs.
Proof.
  induction 1 as [|y ys Hy _ IH]; [unfold sum; cbn; lia|].
  rewrite sum_cons. lia.
Qed.

Lemma sum_member_le (xs : list Z) (x : Z) :
  Forall (fun y => 0 <= y) xs -> In x xs -> x <= sum xs.
Proof.
  induction 1 as [|y ys Hy Hys IH]; [contradiction|].
  pose proof (sum_nonneg ys Hys). rewrite sum_cons.
  intros [->|Hin]; [lia|]. specialize (IH Hin). lia.
Qed.

(** X2. An utterance whose text alone is longer than
    [max_chars * max_lines] is never merged with another: the cue that
    holds it holds nothing else. *)
Theorem overlong_utterance_stands_alone
    (config : Config) (items g : list Utterance) (u : Utterance) :
  In g (cue_buffers config items) ->
  In u g ->
  max_chars config * max_lines config < len (text u) ->
  g = [u].
Proof.
  intros Hg Hu Hlong.
  pose proof (cue_buffers_within_caps config items) as Hcaps.
  rewrite Forall_forall in Hcaps. specialize (Hcaps g Hg).
  destruct g as [|a [|b g']].
  - contradiction.
  - destruct Hu as [->|[]]. reflexivity.
  - exfalso. destruct (Hcaps ltac:(cbn [List.length]; lia) a) as (_ & Hsum & _).
    assert (len (text u) <= sum (map (fun i => len (text i)) (a :: b :: g'))); [|lia].
    apply sum_member_le.
    + apply Forall_map, Forall_forall. intros i _. unfold len. lia.
    + apply (in_map (fun i => len (text i))). exact Hu.
Qed.

Lemma overlong_utterance_stands_alone_witness :
  [fox] = [fox].
Proof.
  apply (overlong_utterance_stands_alone
           {| max_duration := of_Z 8; max_chars := 5; max_lines := 2;
              speaker_diarization := false |}
           [hello; fox; indeed] [fox] fox).
  - vm_compute. right. left. reflexivity.
  - left. reflexivity.
  - vm_compute. reflexivity.
Defined.

Lemma singletons_of_concat {A : Type} (gs : list (list A)) :
  Forall (fun g => List.length g = 1%nat) gs ->
  gs = map (fun a => [a]) (List.concat gs).
Proof.
  induction 1 as [|g gs Hg _ IH]; [reflexivity|].
  destruct g as [|a [|b g']]; try discriminate.
  cbn [List.concat app map]. rewrite <- IH. reflexivity.
Qed.

Lemma fleb_nan (x : float) : fleb x NaN = false.
Proof. destruct x; reflexivity. Qed.

(** X3. With [max_lines <= 1], or with a NaN [max_duration], nothing is
    ever merged: every utterance becomes a cue of its own. *)
Theorem no_merge_without_room
    (np_mean : list float -> float) (config : Config) (items : list Utterance) :
  max_lines config <= 1 \/ max_duration config = NaN ->
  cue_buffers config items = map (fun u => [u]) items
  /\ _optimize_segmentation np_mean config items
     = mapM (fun u => _merge_segment np_mean [u]) items.
Proof.
  intros Hroom.
  assert (Hone : Forall (fun g => List.length g = 1%nat) (cue_buffers config items)).
  { pose proof (cue_buffers_within_caps config items) as Hcaps.
    pose proof (cue_buffers_nonempty config items) as Hne.
    rewrite Forall_forall in *. intros g Hg.
    specialize (Hcaps g Hg). specialize (Hne g Hg).
    destruct g as [|a [|b g']]; [contradiction | reflexivity |].
    exfalso. destruct (Hcaps ltac:(cbn [List.length]; lia) a) as (Hdur & _ & Hocc).
    destruct Hroom as [Hlines|Hnan].
    - cbn [List.length] in Hocc. lia.
    - rewrite Hnan, fleb_nan in Hdur. discriminate. }
  assert (Hbuffers : cue_buffers config items = map (fun u => [u]) items).
  { rewrite (singletons_of_concat _ Hone) at 1. rewrite cue_buffers_concat. reflexivity. }
  split; [exact Hbuffers|].
  destruct (optimize_as_merged_buffers np_mean config items) as (cues & -> & Hm).
  rewrite <- Hm, Hbuffers. clear. induction items as [|u items IH]; [reflexivity|].
  cbn [map mapM]. rewrite IH. reflexivity.
Qed.

Lemma no_merge_without_room_witness :
  let cfg := {| max_duration := of_Z 8; max_chars := 45; max_lines := 1;
                speaker_diarization := false |} in
  cue_buffers cfg [hello; world] = map (fun u => [u]) [hello; world]
  /\ _optimize_segmentation seq_mean cfg [hello; world]
     = mapM (fun u => _merge_segment seq_mean [u]) [hello; world].
Proof.
  intro cfg. apply (no_merge_without_room seq_mean cfg [hello; world]).
  left. vm_compute. discriminate.
Defined.

Lemma length_concat_bounds {A : Type} (gs : list (list A)) (n : Z) :
  Forall (fun g => 1 <= Z.of_nat (List.length g) <= n) gs ->
  Z.of_nat (List.length gs) <= Z.of_nat (List.length (List.concat gs))
  /\ Z.of_nat (List.length (List.concat gs)) <= n * Z.of_nat (List.length gs).
Proof.
  induction 1 as [|g gs Hg _ IH]; [cbn; lia|].
  cbn [List.concat List.length]. rewrite length_app. lia.
Qed.

(** X4. There are never more cues than utterances, a non-empty input
    gives at least one cue, and with [max_lines >= 1] there are at least
    [len(items) / max_lines] cues. *)
Theorem cue_count_bounds
    (np_mean : list float -> float) (config : Config) (items : list Utterance) :
  exists cues : list Cue,
    _optimize_segmentation np_mean config items = Ok cues
    /\ (List.length cues <= List.length items)%nat
    /\ (items <> [] -> cues <> [])
    /\ (1 <= max_lines config ->
        Z.of_nat (List.length items)
        <= max_lines config * Z.of_nat (List.length cues)).
Proof.
  destruct (optimize_as_merged_buffers np_mean config items) as (cues & Hopt & Hm).
  exists cues. split; [exact Hopt|].
  apply mapM_Forall2, Forall2_length in Hm. rewrite <- Hm.
  pose proof (cue_buffers_concat config items) as Hcat.
  pose proof (cue_buffers_nonempty config items) as Hne.
  assert (Hlow : (List.length (cue_buffers config items) <= List.length items)%nat).
  { assert (H : Forall (fun g => 1 <= Z.of_nat (List.length g)
                                 <= Z.of_nat (List.length items))
                  (cue_buffers config items)).
    { rewrite Forall_forall in *. intros g Hg. specialize (Hne g Hg).
      split; [destruct g; [contradiction | cbn [List.length]; lia]|].
      apply Nat2Z.inj_le. rewrite <- Hcat.
      clear - Hg. induction (cue_buffers config items) as [|h t IH]; [contradiction|].
      cbn [List.concat]. rewrite length_app. destruct Hg as [->|Hg]; [lia|].
      specialize (IH Hg). lia. }
    apply length_concat_bounds in H. rewrite Hcat in H. lia. }
  split; [exact Hlow|]. split.
  - intros Hitems Hcues. apply Hitems. rewrite <- Hcat.
    assert (E : cue_buffers config items = []).
    { destruct (cue_buffers config items); [reflexivity|].
      destruct cues; [cbn in Hm; discriminate | discriminate]. }
    rewrite E. reflexivity.
  - intros Hmax.
    assert (H : Forall (fun g => 1 <= Z.of_nat (List.length g) <= max_lines config)
                  (cue_buffers config items)).
    { rewrite Forall_forall in *. intros g Hg. specialize (Hne g Hg).
      split; [destruct g; [contradiction | cbn [List.length]; lia]|].
      apply (buffer_within_max_lines config items); assumption. }
    apply length_concat_bounds in H. rewrite Hcat in H. lia.
Qed.

(** ** The shape of normalized texts *)

Lemma upper_char_not_lower (c : ascii) : is_lower (upper_char c) = false.
Proof. destruct c as [[] [] [] [] [] [] [] []]; reflexivity. Qed.

Lemma lower_char_not_upper (c : ascii) : is_upper (lower_char c) = false.
Proof. destruct c as [[] [] [] [] [] [] [] []]; reflexivity. Qed.

Lemma is_space_upper_char (c : ascii) : is_space (upper_char c) = is_space c.
Proof. destruct c as [[] [] [] [] [] [] [] []]; reflexivity. Qed.

Lemma is_space_lower_char (c : ascii) : is_space (lower_char c) = is_space c.
Proof. destruct c as [[] [] [] [] [] [] [] []]; reflexivity. Qed.

Lemma first_char_lstrip (s : string) (c : ascii) :
  first_char (lstrip s) = Some c -> is_space c = false.
Proof.
  induction s as [|a s IH]; cbn [lstrip]; [discriminate|].
  destruct (is_space a) eqn:Ea; [exact IH|].
  cbn [first_char]. intros H. injection H as <-. exact Ea.
Qed.

Lemma first_char_rstrip (s : string) (c : ascii) :
  first_char (rstrip s) = Some c -> first_char s = Some c.
Proof.
  destruct s as [|a s]; cbn [rstrip]; [discriminate|].
  destruct (rstrip s); [destruct (is_space a); [discriminate|]|]; intros H; exact H.
Qed.

Lemma last_char_rstrip_not_space (s : string) (c : ascii) :
  last_char (rstrip s) = Some c -> is_space c = false.
Proof.
  induction s as [|a s IH]; cbn [rstrip]; [discriminate|].
  destruct (rstrip s) as [|r rs] eqn:Er.
  - destruct (is_space a) eqn:Ea; [discriminate|].
    cbn [last_char]. intros H. injection H as <-. exact Ea.
  - intros H. apply IH. exact H.
Qed.

Lemma strip_trimmed (s : string) : trimmed (strip s).
Proof.
  unfold strip. split; intros c Hc.
  - apply first_char_rstrip in Hc. apply (first_char_lstrip s). exact Hc.
  - apply (last_char_rstrip_not_space (lstrip s)). exact Hc.
Qed.

Lemma capitalize_trimmed (s : string) : trimmed s -> trimmed (capitalize_ascii s).
Proof.
  intros [Hfirst Hlast]. destruct s as [|a s]; [split; discriminate|].
  cbn [capitalize_ascii]. split; intros c Hc.
  - cbn [first_char] in Hc. injection Hc as <-.
    rewrite is_space_upper_char. apply Hfirst. reflexivity.
  - destruct s as [|b s].
    + cbn in Hc. injection Hc as <-. rewrite is_space_upper_char.
      apply Hlast. reflexivity.
    + change (last_char (map_string lower_char (String b s)) = Some c) in Hc.
      rewrite last_char_map_string in Hc.
      change (last_char (String a (String b s))) with (last_char (String b s)) in Hlast.
      destruct (last_char (String b s)) as [d|]; [|discriminate].
      cbn [option_map] in Hc. injection Hc as <-.
      rewrite is_space_lower_char. apply Hlast. reflexivity.
Qed.

Lemma capitalize_capitalized (s : string) : capitalized (capitalize_ascii s).
Proof.
  destruct s as [|a s]; [exact I|]. cbn [capitalize_ascii capitalized].
  split; [apply upper_char_not_lower|].
  induction s as [|b s IH]; [reflexivity|].
  cbn [map_string string_forallb]. rewrite lower_char_not_upper, IH. reflexivity.
Qed.

Lemma is_ascii_app (a b : string) :
  is_ascii (a ++ b) = is_ascii a && is_ascii b.
Proof.
  induction a as [|c a IH]; [reflexivity|].
  cbn [String.append is_ascii]. rewrite IH. apply andb_assoc.
Qed.

Lemma is_ascii_lstrip (s : string) : is_ascii s = true -> is_ascii (lstrip s) = true.
Proof.
  induction s as [|c s IH]; intros H; [reflexivity|]. cbn [lstrip].
  destruct (is_space c); [|exact H].
  cbn [is_ascii] in H. apply andb_true_iff in H as [_ H]. apply IH, H.
Qed.

Lemma is_ascii_rstrip (s : string) : is_ascii s = true -> is_ascii (rstrip s) = true.
Proof.
  induction s as [|c s IH]; intros H; [reflexivity|].
  cbn [is_ascii] in H. apply andb_true_iff in H as [Hc H]. specialize (IH H).
  cbn [rstrip]. destruct (rstrip s) as [|r rs].
  - destruct (is_space c); [reflexivity|]. cbn [is_ascii]. rewrite Hc. reflexivity.
  - cbn [is_ascii] in *. rewrite Hc, IH. reflexivity.
Qed.

Lemma is_ascii_terminate (t : string) :
  is_ascii t = true -> is_ascii (terminate t) = true.
Proof.
  intros H. unfold terminate. destruct (last_char t) as [c|]; [|exact H].
  destruct (negb (is_terminal c)); [|exact H].
  rewrite is_ascii_app, H. reflexivity.
Qed.

(** X5. When the restored text of every result is ASCII, every text
    the normalizer emits has no white space at either end, does not
    begin with a lower-case letter and holds no upper-case letter after
    its first character. *)
Theorem normalized_texts_trimmed_and_capitalized
    (np_mean : list float -> float) (punctuator : option (string -> string))
    (unicode_capitalize : string -> string)
    (results : list RecognizerResult) :
  forallb (ascii_result punctuator) results = true ->
  Forall (fun u => trimmed (text u) /\ capitalized (text u))
    (_process_results np_mean punctuator unicode_capitalize results).
Proof.
  unfold _process_results.
  assert (Hloop : forall processed,
            forallb (ascii_result punctuator) results = true ->
            Forall (fun u => trimmed (text u) /\ capitalized (text u)) processed ->
            Forall (fun u => trimmed (text u) /\ capitalized (text u))
              (fold_left (process_step np_mean punctuator unicode_capitalize)
                 results processed)).
  { induction results as [|res results IH]; intros processed Hascii Hinv; [exact Hinv|].
    cbn [forallb] in Hascii. apply andb_true_iff in Hascii as [Hres Hascii].
    cbn [fold_left]. apply IH; [exact Hascii|].
    destruct res as [[|first rest]|]; cbn [process_step]; try exact Hinv.
    apply Forall_app. split; [exact Hinv|]. constructor; [|constructor].
    cbn [text]. cbn [ascii_result] in Hres.
    unfold capitalize, strip.
    rewrite (is_ascii_rstrip _ (is_ascii_lstrip _ (is_ascii_terminate _ Hres))).
    split.
    - apply capitalize_trimmed, strip_trimmed.
    - apply capitalize_capitalized. }
  intros Hascii. apply Hloop; [exact Hascii | constructor].
Qed.

Lemma normalized_texts_trimmed_and_capitalized_witness :
  Forall (fun u => trimmed (text u) /\ capitalized (text u))
    (_process_results seq_mean None capitalize_ascii sample_results).
Proof.
  apply (normalized_texts_trimmed_and_capitalized seq_mean None capitalize_ascii
           sample_results).
  vm_compute. reflexivity.
Defined.

(** ** Width and failures of timecodes *)

Section TimeCodeWidth.

Import Rounding DivMod TimeCode.

#[local] Opaque one_units overflow_units.

(** The four fields of the timecode of a non-negative magnitude [n]:
    the hours, the minutes within the hour, and the seconds within the
    minute rounded to thousandths. *)
Lemma format_time_values (s : bool) (n : Z) :
  0 <= n -> n < overflow_units -> n mod grid n = 0 -> (s = true -> n = 0) ->
  exists h : Z,
    _format_time (Fin s n)
    = Ok (format_02 h ++ ":"
          ++ format_02 (n mod (3600 * one_units) / (60 * one_units)) ++ ":"
          ++ format_02 (round_half_even (n mod (60 * one_units) * 1000) one_units / 1000)
          ++ ","
          ++ format_03 (round_half_even (n mod (60 * one_units) * 1000) one_units mod 1000))%string
    /\ 0 <= h
    /\ (n < 360000 * one_units -> h < 100)
    /\ 0 <= n mod (3600 * one_units) / (60 * one_units) < 60
    /\ 0 <= round_half_even (n mod (60 * one_units) * 1000) one_units <= 60000.
Proof.
  intros Hn Hover Hgrid Hs. pose proof one_units_pos as Hu.
  assert (Hp53 : 360000 < 2 ^ 53) by (apply Z.log2_lt_pow2; [lia | reflexivity]).
  set (r1 := n mod (3600 * one_units)).
  set (r2 := n mod (60 * one_units)).
  set (t := round_half_even (r2 * 1000) one_units).
  assert (Hr1 : 0 <= r1 < 3600 * one_units) by (apply Z.mod_pos_bound; lia).
  assert (Hr2 : 0 <= r2 < 60 * one_units) by (apply Z.mod_pos_bound; lia).
  assert (Hr12 : r1 mod (60 * one_units) = r2).
  { unfold r1, r2. apply Z.mod_mod_divide. exists 60. lia. }
  destruct (float_divmod_nonneg s n 3600 Hn Hs ltac:(lia) (or_intror (conj Hover Hgrid)))
    as (q1 & h & Hdm1 & Hint1 & Hh & Hhex).
  assert (Hscale : 360000 * one_units <= 2 ^ 53 * one_units)
    by (apply Z.mul_le_mono_nonneg_r; lia).
  assert (Hsmall : r1 < 2 ^ 53 * one_units) by lia.
  destruct (float_divmod_nonneg false r1 60 ltac:(lia) ltac:(discriminate) ltac:(lia)
              (or_introl Hsmall))
    as (q2 & m & Hdm2 & Hint2 & Hm & Hmex).
  cbv zeta in Hdm1, Hdm2, Hhex, Hmex. fold r1 in Hdm1. rewrite Hr12 in Hdm2.
  specialize (Hmex Hsmall). subst m.
  assert (Hmin : r1 / (60 * one_units) < 60)
    by (apply Z.div_lt_upper_bound; lia).
  assert (Ht : 0 <= t <= 60000).
  { split; [apply round_half_even_nonneg; lia|].
    apply round_half_even_le; lia. }
  assert (Htd : 0 <= t / 1000 < 100).
  { split; [apply Z.div_pos; lia|]. apply Z.div_lt_upper_bound; lia. }
  exists h.
  split.
  { unfold _format_time. rewrite (of_Z_small 3600), (of_Z_small 60) by lia.
    rewrite Hdm1. cbn [bind]. rewrite Hdm2. cbn [bind].
    rewrite Hint1. cbn [bind]. rewrite Hint2. cbn [bind]. f_equal.
    pose proof (format_06_3f_nonneg r2 ltac:(lia)) as Hfmt. cbv zeta in Hfmt.
    fold t in Hfmt. rewrite Hfmt.
    rewrite !replace_app.
    rewrite (format_02_nonneg h), (format_02_nonneg (r1 / (60 * one_units))),
      (format_02_nonneg (t / 1000)) by lia.
    rewrite !replace_zero_pad. unfold format_03. rewrite replace_zero_pad.
    reflexivity. }
  split; [exact Hh|].
  split.
  { intros Hhundred. rewrite (Hhex ltac:(lia)). apply Z.div_lt_upper_bound; lia. }
  split; [lia | exact Ht].
Qed.

Lemma format_time_fields (s : bool) (n : Z) :
  0 <= n -> n < overflow_units -> n mod grid n = 0 -> (s = true -> n = 0) ->
  exists hh mm ss mmm : string,
    _format_time (Fin s n) = Ok (hh ++ ":" ++ mm ++ ":" ++ ss ++ "," ++ mmm)%string
    /\ (2 <= String.length hh)%nat
    /\ (n < 360000 * one_units -> String.length hh = 2%nat)
    /\ String.length mm = 2%nat
    /\ String.length ss = 2%nat
    /\ String.length mmm = 3%nat.
Proof.
  intros Hn Hover Hgrid Hs.
  destruct (format_time_values s n Hn Hover Hgrid Hs) as (h & Hout & Hh & Hh2 & Hm & Ht).
  set (t := round_half_even (n mod (60 * one_units) * 1000) one_units) in *.
  assert (Htd : 0 <= t / 1000 < 100).
  { split; [apply Z.div_pos; lia|]. apply Z.div_lt_upper_bound; lia. }
  pose proof (Z.mod_pos_bound t 1000 ltac:(lia)) as Htm.
  eexists _, _, _, _. split; [exact Hout|].
  split; [rewrite format_02_nonneg by lia; apply length_zero_pad|].
  split; [intros Hlt; apply length_format_02; split; [exact Hh | exact (Hh2 Hlt)]|].
  split; [apply length_format_02; lia|].
  split; [apply length_format_02; lia | apply length_format_03; lia].
Qed.

Lemma well_timed_fields (x : float) :
  well_timed x = true ->
  exists s n,
    x = Fin s n /\ 0 <= n /\ n < overflow_units /\ n mod grid n = 0
    /\ (s = true -> n = 0).
Proof.
  unfold well_timed. rewrite !andb_true_iff. intros [[Hfin Hb64] Hnonneg].
  destruct x as [| |s n]; try discriminate.
  destruct (binary64_fields s n Hb64) as (Hn & Hover & Hgrid).
  exists s, n. repeat split; try assumption.
  apply nonneg_sign; assumption.
Qed.

Lemma fltb_bound (s : bool) (n k : Z) :
  0 <= n -> (s = true -> n = 0) -> 0 <= k < 2 ^ 53 ->
  fltb (Fin s n) (of_Z k) = true -> n < k * one_units.
Proof.
  intros Hn Hs Hk. rewrite of_Z_small by exact Hk.
  unfold fltb, fcompare. pose proof one_units_pos.
  change (signed false (k * one_units)) with (k * one_units).
  destruct (Z.compare_spec (signed s n) (k * one_units)) as [Heq|Hlt|Hgt];
    intros Hcmp; try discriminate Hcmp.
  destruct s; cbn [signed] in Hlt; [|exact Hlt].
  rewrite (Hs eq_refl) in *. lia.
Qed.

(** X6. The timecode of a finite non-negative float has at least
    twelve characters, and exactly twelve below 100 hours
    ([seconds < 360000.0]). *)
Theorem format_time_width (seconds : float) :
  well_timed seconds = true ->
  exists out,
    _format_time seconds = Ok out
    /\ (12 <= String.length out)%nat
    /\ (fltb seconds (of_Z 360000) = true -> String.length out = 12%nat).
Proof.
  intros Hwt. destruct (well_timed_fields seconds Hwt) as (s & n & -> & Hn & Hover & Hgrid & Hs).
  destruct (format_time_fields s n Hn Hover Hgrid Hs)
    as (hh & mm & ss & mmm & Hout & Hhh & Hhh2 & Hmm & Hss & Hmmm).
  exists (hh ++ ":" ++ mm ++ ":" ++ ss ++ "," ++ mmm)%string.
  split; [exact Hout|].
  assert (Hlen : String.length (hh ++ ":" ++ mm ++ ":" ++ ss ++ "," ++ mmm)
                 = (String.length hh + 10)%nat).
  { rewrite !length_app. cbn [String.length]. lia. }
  rewrite Hlen. split; [lia|].
  intros Hlt. rewrite Hhh2; [reflexivity|].
  apply (fltb_bound s); [exact Hn | exact Hs | | exact Hlt].
  split; [lia|]. apply Z.log2_lt_pow2; [lia | reflexivity].
Qed.

Lemma format_time_raises (seconds : float) :
  is_finite seconds = false -> _format_time seconds = Raise ValueError.
Proof.
  destruct seconds as [|[|]|s n]; intros H; try discriminate;
    vm_compute; reflexivity.
Qed.

(** X7. A NaN or infinite number of seconds has no timecode: the
    formatter raises [ValueError]. *)
Theorem format_time_not_finite (seconds : float) :
  is_finite seconds = false -> _format_time seconds = Raise ValueError.
Proof. exact (format_time_raises seconds). Qed.

(** X12. The seconds are rounded after the minutes are split off, and
    nothing is carried: from 59.9995 seconds into a minute on, the
    timecode shows the minute it was in and the seconds [60,000]. *)
Theorem format_time_sixty_seconds (seconds : float) :
  well_timed seconds = true ->
  119999 * one_units <= 2000 * (magnitude seconds mod (60 * one_units)) ->
  exists hours : Z,
    _format_time seconds
    = Ok (format_02 hours ++ ":"
          ++ format_02 (magnitude seconds mod (3600 * one_units) / (60 * one_units))
          ++ ":60,000")%string.
Proof.
  intros Hwt Hlate.
  destruct (well_timed_fields seconds Hwt) as (s & n & -> & Hn & Hover & Hgrid & Hs).
  cbn [magnitude] in *.
  destruct (format_time_values s n Hn Hover Hgrid Hs) as (h & Hout & _ & _ & _ & Ht).
  exists h. rewrite Hout. pose proof one_units_pos as Hu.
  set (r2 := n mod (60 * one_units)) in *.
  assert (Hr2 : 0 <= r2 < 60 * one_units) by (apply Z.mod_pos_bound; lia).
  assert (Hsixty : round_half_even (r2 * 1000) one_units = 60000).
  { apply Z.le_antisymm; [apply Ht|].
    rewrite round_half_even_eq.
    assert (Hd : 59999 <= r2 * 1000 / one_units) by (apply Z.div_le_lower_bound; lia).
    pose proof (Z.div_mod (r2 * 1000) one_units ltac:(lia)) as Hdm.
    pose proof (Z.mod_pos_bound (r2 * 1000) one_units Hu) as Hm.
    set (d := r2 * 1000 / one_units) in *. set (m := (r2 * 1000) mod one_units) in *.
    destruct (Z.compare_spec (2 * m) one_units) as [Heq|Hlt|Hgt].
    - destruct (Z.even d) eqn:Heven; [|lia].
      destruct (Z.eq_dec d 59999) as [->|]; [discriminate Heven|lia].
    - nia.
    - lia. }
  rewrite Hsixty. reflexivity.
Qed.

End TimeCodeWidth.

Lemma format_time_width_witness :
  exists out,
    _format_time (of_ratio 37256 10) = Ok out
    /\ (12 <= String.length out)%nat
    /\ (fltb (of_ratio 37256 10) (of_Z 360000) = true -> String.length out = 12%nat).
Proof.
  apply (format_time_width (of_ratio 37256 10)). vm_compute. reflexivity.
Defined.

Lemma format_time_not_finite_witness : _format_time NaN = Raise ValueError.
Proof. apply (format_time_not_finite NaN). reflexivity. Defined.

Lemma format_time_sixty_seconds_witness :
  exists hours : Z,
    _format_time (of_ratio 1199996 10000)
    = Ok (format_02 hours ++ ":"
          ++ format_02 (magnitude (of_ratio 1199996 10000) mod (3600 * one_units)
                        / (60 * one_units))
          ++ ":60,000")%string.
Proof.
  apply (format_time_sixty_seconds (of_ratio 1199996 10000)).
  - vm_compute. reflexivity.
  - vm_compute. discriminate.
Defined.

(** ** Rendering: success and failure *)

Lemma format_time_ok (x : float) :
  well_timed x = true -> exists out, _format_time x = Ok out.
Proof.
  intros Hwt. destruct (well_timed_fields x Hwt) as (s & n & -> & Hn & Hover & Hgrid & Hs).
  destruct (format_time_fields s n Hn Hover Hgrid Hs) as (hh & mm & ss & mmm & Hout & _).
  eexists. exact Hout.
Qed.

Section Rendering.

Variable config : Config.

Lemma srt_block_ok (idx : Z) (cue : Cue) :
  well_timed_segment cue = true -> exists block, srt_block config idx cue = Ok block.
Proof.
  unfold well_timed_segment. rewrite andb_true_iff. intros [Hs He].
  destruct (format_time_ok _ Hs) as [a Ha]. destruct (format_time_ok _ He) as [b Hb].
  unfold srt_block. rewrite Ha, Hb. eexists. reflexivity.
Qed.

Lemma srt_blocks_ok (cues : list Cue) : forall idx,
  forallb well_timed_segment cues = true ->
  exists blocks,
    srt_blocks config idx cues = Ok blocks
    /\ List.length blocks = List.length cues.
Proof.
  induction cues as [|cue cues IH]; intros idx Hall.
  - exists []. split; reflexivity.
  - cbn [forallb] in Hall. apply andb_true_iff in Hall as [Hcue Hall].
    destruct (srt_block_ok idx cue Hcue) as [block Hblock].
    destruct (IH (idx + 1) Hall) as (blocks & Hblocks & Hlen).
    exists (block :: blocks). cbn [srt_blocks]. rewrite Hblock. cbn [bind].
    rewrite Hblocks. cbn [bind List.length]. rewrite Hlen. split; reflexivity.
Qed.

Lemma generate_srt_blocks (cues : list Cue) :
  _generate_srt config cues
  = (blocks <- srt_blocks config 1 cues ;; Ok (String.concat nl blocks)).
Proof.
  unfold _generate_srt. rewrite srt_loop_blocks.
  destruct (srt_blocks config 1 cues); reflexivity.
Qed.

(** X8. When the start and the end of every cue are finite
    non-negative floats, the renderer does not raise, and the document
    it writes is one block per cue joined by line breaks. *)
Theorem generate_srt_succeeds (cues : list Cue) :
  forallb well_timed_segment cues = true ->
  exists blocks,
    _generate_srt config cues = Ok (String.concat nl blocks)
    /\ srt_blocks config 1 cues = Ok blocks
    /\ List.length blocks = List.length cues.
Proof.
  intros Hall. destruct (srt_blocks_ok cues 1 Hall) as (blocks & Hblocks & Hlen).
  exists blocks. rewrite generate_srt_blocks, Hblocks. repeat split. exact Hlen.
Qed.

Lemma srt_block_not_finite (idx : Z) (cue : Cue) :
  is_finite (start cue) = false
  \/ (well_timed (start cue) = true /\ is_finite (end_ cue) = false) ->
  srt_block config idx cue = Raise ValueError.
Proof.
  unfold srt_block. intros [Hs|[Hs He]].
  - rewrite (format_time_raises _ Hs). reflexivity.
  - destruct (format_time_ok _ Hs) as [a ->]. cbn [bind].
    rewrite (format_time_raises _ He). reflexivity.
Qed.

Lemma srt_blocks_not_finite (good : list Cue) (bad : Cue) (rest : list Cue) :
  forall idx,
  forallb well_timed_segment good = true ->
  is_finite (start bad) = false
  \/ (well_timed (start bad) = true /\ is_finite (end_ bad) = false) ->
  srt_blocks config idx (good ++ bad :: rest) = Raise ValueError.
Proof.
  induction good as [|cue good IH]; intros idx Hgood Hbad; cbn [app srt_blocks].
  - rewrite (srt_block_not_finite idx bad Hbad). reflexivity.
  - cbn [forallb] in Hgood. apply andb_true_iff in Hgood as [Hcue Hgood].
    destruct (srt_block_ok idx cue Hcue) as [block ->]. cbn [bind].
    rewrite (IH (idx + 1) Hgood Hbad). reflexivity.
Qed.

(** X9. The first cue with a NaN or infinite start or end makes the
    renderer raise [ValueError]: no document is written, whatever the
    cues after it. *)
Theorem generate_srt_not_finite (good : list Cue) (bad : Cue) (rest : list Cue) :
  forallb well_timed_segment good = true ->
  is_finite (start bad) = false
  \/ (well_timed (start bad) = true /\ is_finite (end_ bad) = false) ->
  _generate_srt config (good ++ bad :: rest) = Raise ValueError.
Proof.
  intros Hgood Hbad. rewrite generate_srt_blocks.
  rewrite (srt_blocks_not_finite good bad rest 1 Hgood Hbad). reflexivity.
Qed.

End Rendering.

Lemma generate_srt_succeeds_witness :
  exists blocks,
    _generate_srt default_config [hello; third] = Ok (String.concat nl blocks)
    /\ srt_blocks default_config 1 [hello; third] = Ok blocks
    /\ List.length blocks = List.length [hello; third].
Proof.
  apply (generate_srt_succeeds default_config [hello; third]).
  vm_compute. reflexivity.
Defined.

Lemma generate_srt_not_finite_witness :
  _generate_srt default_config
    ([hello] ++ {| start := of_Z 2; end_ := Inf false; text := "late";
                   confidence := of_Z 1; speaker := "SPK1" |} :: [third])
  = Raise ValueError.
Proof.
  apply (generate_srt_not_finite default_config [hello]).
  - vm_compute. reflexivity.
  - right. split; vm_compute; reflexivity.
Defined.

(** ** From utterances to the subtitle file *)

Section Pipeline.

Variable np_mean : list float -> float.
Variable config : Config.

Lemma last_in {A : Type} (l : list A) (d : A) : l <> [] -> In (last l d) l.
Proof.
  induction l as [|a l IH]; [contradiction|]. intros _.
  destruct l as [|b l]; [left; reflexivity|].
  right. apply IH. discriminate.
Qed.

Lemma cue_times_come_from_utterances_aux (items : list Utterance) :
  exists cues : list Cue,
    _optimize_segmentation np_mean config items = Ok cues
    /\ Forall (fun c => exists u v,
                 In u items /\ In v items
                 /\ start c = start u /\ speaker c = speaker u
                 /\ end_ c = end_ v) cues.
Proof.
  destruct (optimize_as_merged_buffers np_mean config items) as (cues & Hopt & Hm).
  exists cues. split; [exact Hopt|]. apply mapM_Forall2 in Hm.
  assert (Hsub : forall g, In g (cue_buffers config items) -> forall u, In u g -> In u items).
  { intros g Hg u Hu. rewrite <- (cue_buffers_concat config items).
    apply in_concat. exists g. split; assumption. }
  clear Hopt. revert Hm Hsub. generalize (cue_buffers config items). intros groups Hm.
  induction Hm as [|g c gs cs Hgc _ IH]; intros Hsub; [constructor|].
  constructor.
  - destruct (merge_fields np_mean g c Hgc) as (first & rest & Hg & Hs & He & _ & _ & Hsp).
    exists first, (last g first).
    split; [|split; [|split; [exact Hs|split; [exact Hsp|exact He]]]].
    + apply (Hsub g); [left; reflexivity|]. rewrite Hg. left. reflexivity.
    + apply (Hsub g); [left; reflexivity|]. apply last_in. rewrite Hg. discriminate.
  - apply IH. intros g' Hg'. apply Hsub. right. exact Hg'.
Qed.

(** X10. The optimizer invents no timestamp and no speaker: the start
    and the speaker of every cue are those of an input utterance, and
    its end is the end of an input utterance. *)
Theorem cue_times_come_from_utterances (items : list Utterance) :
  exists cues : list Cue,
    _optimize_segmentation np_mean config items = Ok cues
    /\ Forall (fun c => exists u v,
                 In u items /\ In v items
                 /\ start c = start u /\ speaker c = speaker u
                 /\ end_ c = end_ v) cues.
Proof. exact (cue_times_come_from_utterances_aux items). Qed.

(** X11. From utterances with finite non-negative times the core of
    [process_file] never raises: the optimizer returns cues and the
    renderer a document. *)
Theorem subtitles_of_well_timed_utterances (items : list Utterance) :
  forallb well_timed_segment items = true ->
  exists cues doc,
    _optimize_segmentation np_mean config items = Ok cues
    /\ forallb well_timed_segment cues = true
    /\ _generate_srt config cues = Ok doc
    /\ subtitles_of_utterances np_mean config items = Ok doc.
Proof.
  intros Hitems. rewrite forallb_forall in Hitems.
  destruct (cue_times_come_from_utterances_aux items) as (cues & Hopt & Hfrom).
  assert (Hcues : forallb well_timed_segment cues = true).
  { apply forallb_forall. rewrite Forall_forall in Hfrom. intros c Hc.
    destruct (Hfrom c Hc) as (u & v & Hu & Hv & Hs & _ & He).
    pose proof (Hitems u Hu) as Hwu. pose proof (Hitems v Hv) as Hwv.
    unfold well_timed_segment in *. rewrite andb_true_iff in *.
    rewrite Hs, He. split; [apply Hwu | apply Hwv]. }
  destruct (srt_blocks_ok config cues 1 Hcues) as (blocks & Hblocks & _).
  exists cues, (String.concat nl blocks).
  assert (Hgen : _generate_srt config cues = Ok (String.concat nl blocks))
    by (rewrite generate_srt_blocks, Hblocks; reflexivity).
  repeat split; try assumption.
  unfold subtitles_of_utterances. rewrite Hopt. exact Hgen.
Qed.

End Pipeline.

(** ** Rounding to hundredths keeps times well formed *)

Section RoundedTimes.

Import Rounding DivMod TimeCode.

#[local] Opaque one_units overflow_units.

Lemma round_units_on_grid (p q : Z) :
  0 <= p -> 0 < q -> round_units p q mod grid (round_units p q) = 0.
Proof.
  intros Hp Hq. unfold round_units. rewrite quantum_eq.
  set (L := Z.log2 (p / q)). set (e := Z.max 0 (L - 52)).
  assert (HL : 0 <= L) by apply Z.log2_nonneg.
  assert (He : 0 <= e) by lia.
  assert (Hu : 0 < 2 ^ e) by (apply Z.pow_pos_nonneg; lia).
  assert (Hr0 : 0 <= round_half_even p (q * 2 ^ e))
    by (apply round_half_even_nonneg; nia).
  assert (Hr1 : round_half_even p (q * 2 ^ e) <= 2 ^ 53).
  { apply round_half_even_le; [nia|].
    assert (Hd : 0 <= p / q) by (apply Z.div_pos; lia).
    assert (Hlt : p / q + 1 <= 2 ^ (L + 1)).
    { destruct (Z.eq_dec (p / q) 0) as [H0|H0].
      - rewrite H0. unfold L. rewrite H0. cbn. lia.
      - pose proof (Z.log2_spec (p / q) ltac:(lia)) as [_ Hs].
        fold L in Hs. rewrite <- Z.add_1_r in Hs. lia. }
    assert (Hpow : 2 ^ (L + 1) <= 2 ^ e * 2 ^ 53).
    { rewrite <- Z.pow_add_r by lia. apply Z.pow_le_mono_r; lia. }
    pose proof (Z.mul_succ_div_gt p q Hq) as Hsucc.
    set (P53 := 2 ^ 53) in *. clearbody P53.
    set (PL := 2 ^ (L + 1)) in *. clearbody PL.
    set (U := 2 ^ e) in *. clearbody U.
    set (d := p / q) in *. clearbody d.
    assert (p < q * PL) by nia.
    assert (q * PL <= q * (U * P53)) by (apply Z.mul_le_mono_nonneg_l; lia).
    lia. }
  set (r := round_half_even p (q * 2 ^ e)) in *. clearbody r.
  destruct (Z.eq_dec r (2 ^ 53)) as [->|Hne].
  - replace (2 ^ 53 * 2 ^ e) with (2 ^ 52 * 2 ^ (e + 1)).
    + apply scaled_integer_on_grid; [|lia].
      split; [apply Z.pow_nonneg; lia | apply Z.pow_lt_mono_r; lia].
    + rewrite <- !Z.pow_add_r by lia. f_equal. lia.
  - apply scaled_integer_on_grid; lia.
Qed.

Lemma well_timed_intro (s : bool) (n : Z) :
  0 <= n -> n < overflow_units -> n mod grid n = 0 -> (s = true -> n = 0) ->
  well_timed (Fin s n) = true.
Proof.
  intros Hn Hover Hgrid Hs. unfold well_timed, is_finite, is_binary64.
  rewrite div_mod_eq. cbn [snd andb]. rewrite Hgrid.
  replace (0 <=? n) with true by (symmetry; apply Z.leb_le; exact Hn).
  replace (n <? overflow_units) with true by (symmetry; apply Z.ltb_lt; exact Hover).
  cbn [andb]. change (0 =? 0) with true. cbn [andb].
  unfold fleb, fcompare, zero. cbn [signed].
  destruct s; cbn [signed].
  - rewrite (Hs eq_refl). reflexivity.
  - destruct (Z.compare_spec 0 n); try reflexivity. lia.
Qed.

Lemma divide_one_units (m : Z) :
  2 ^ 53 * one_units <= m -> m mod grid m = 0 -> (one_units | m).
Proof.
  intros Hbig Hgrid. pose proof one_units_pos as Hu.
  assert (Hm : 0 < m).
  { assert (0 < 2 ^ 53) by (apply Z.pow_pos_nonneg; lia). nia. }
  assert (Hlog : 1127 <= Z.log2 m).
  { apply Z.log2_le_pow2; [exact Hm|].
    replace (2 ^ 1127) with (2 ^ 53 * one_units); [exact Hbig|].
    rewrite one_units_eq, <- Z.pow_add_r by lia. reflexivity. }
  apply Z.divide_trans with (grid m).
  - unfold grid. rewrite Z.max_r by lia. rewrite one_units_eq.
    exists (2 ^ (Z.log2 m - 52 - 1074)).
    rewrite <- Z.pow_add_r by lia. f_equal. lia.
  - apply Z.mod_divide; [pose proof (grid_pos m); lia | exact Hgrid].
Qed.

Lemma round2_nonneg (s : bool) (m : Z) :
  0 <= m -> m < overflow_units -> m mod grid m = 0 ->
  exists n,
    round2 (Fin s m) = Fin s n
    /\ 0 <= n /\ n < overflow_units /\ n mod grid n = 0
    /\ (m = 0 -> n = 0).
Proof.
  intros Hm Hover Hgrid. pose proof one_units_pos as Hu.
  unfold round2. cbv zeta.
  set (h := round_half_even (m * 100) one_units).
  assert (Hh : 0 <= h) by (apply round_half_even_nonneg; lia).
  assert (Hzero : 0 mod grid 0 = 0) by (apply Z.mod_0_l; pose proof (grid_pos 0); lia).
  assert (Hover0 : 0 < overflow_units).
  { rewrite overflow_units_eq. apply Z.mul_pos_pos; [apply Z.pow_pos_nonneg; lia | exact Hu]. }
  destruct (Z.eqb_spec h 0) as [Hh0|Hh0].
  { exists 0. repeat split; lia. }
  assert (Hm0 : m <> 0).
  { intros ->. apply Hh0. unfold h.
    replace (0 * 100) with (one_units * 0) by lia.
    apply round_half_even_exact. exact Hu. }
  assert (Hbound : round_units (h * one_units) 100 < overflow_units
                   /\ 0 <= round_units (h * one_units) 100).
  { split; [|apply round_units_nonneg; nia].
    destruct (Z_lt_le_dec m (2 ^ 53 * one_units)) as [Hsmall|Hbig].
    - assert (Hh53 : h <= 2 ^ 53 * 100).
      { apply round_half_even_le; [exact Hu|]. nia. }
      assert (Hle : round_units (h * one_units) 100 <= 2 ^ 1128).
      { apply round_units_le_pow2; [nia | lia | lia |].
        replace (2 ^ 1128) with (2 ^ 54 * one_units)
          by (rewrite one_units_eq, <- Z.pow_add_r by lia; reflexivity).
        replace (2 ^ 54) with (2 * 2 ^ 53)
          by (change 54 with (1 + 53); rewrite Z.pow_add_r by lia; reflexivity).
        assert (0 < 2 ^ 53) by (apply Z.pow_pos_nonneg; lia).
        set (P := 2 ^ 53) in *. clearbody P. nia. }
      apply Z.le_lt_trans with (2 ^ 1128); [exact Hle|].
      rewrite overflow_units_eq, one_units_eq, <- Z.pow_add_r by lia.
      apply Z.pow_lt_mono_r; lia.
    - destruct (divide_one_units m Hbig Hgrid) as [j Hj].
      assert (Hhj : h = j * 100).
      { unfold h. rewrite Hj. replace (j * one_units * 100) with (one_units * (j * 100)) by lia.
        apply round_half_even_exact. exact Hu. }
      rewrite Hhj. replace (j * 100 * one_units) with (100 * m) by lia.
      rewrite round_units_exact by (try lia; exact Hgrid). exact Hover. }
  destruct Hbound as [Hlt Hge].
  exists (round_units (h * one_units) 100).
  rewrite of_exact_finite by exact Hlt.
  repeat split; try assumption; [|contradiction].
  apply round_units_on_grid; nia.
Qed.

Lemma round2_well_timed (x : float) :
  well_timed x = true -> well_timed (round2 x) = true.
Proof.
  intros Hwt. destruct (well_timed_fields x Hwt) as (s & m & -> & Hm & Hover & Hgrid & Hs).
  destruct (round2_nonneg s m Hm Hover Hgrid) as (n & -> & Hn & Hnover & Hngrid & Hn0).
  apply well_timed_intro; try assumption.
  intros Hst. apply Hn0, Hs, Hst.
Qed.

End RoundedTimes.

(** ** From recognizer results to the subtitle file *)

Section FromResults.

Variable np_mean : list float -> float.
Variable config : Config.
Variable punctuator : option (string -> string).
Variable unicode_capitalize : string -> string.

Lemma process_loop_invariant (P : Segment -> Prop) (Q : RecognizerResult -> Prop) :
  (forall processed res,
     Q res -> Forall P processed ->
     Forall P (process_step np_mean punctuator unicode_capitalize processed res)) ->
  forall results processed,
    Forall Q results -> Forall P processed ->
    Forall P (fold_left (process_step np_mean punctuator unicode_capitalize) results processed).
Proof.
  intros Hstep results. induction results as [|res results IH]; intros processed HQ HP.
  - exact HP.
  - cbn [fold_left]. inversion HQ as [|? ? Hres Hrest]; subst.
    apply IH; [exact Hrest|]. apply Hstep; assumption.
Qed.

Lemma process_results_times (results : list RecognizerResult) :
  forallb well_timed_result results = true ->
  forallb well_timed_segment (_process_results np_mean punctuator unicode_capitalize results) = true.
Proof.
  intros Hall. apply forallb_forall. apply Forall_forall.
  unfold _process_results.
  apply (process_loop_invariant (fun u => well_timed_segment u = true)
           (fun res => well_timed_result res = true)).
  - intros processed res Hres Hinv.
    destruct res as [[|first rest]|]; cbn [process_step]; try exact Hinv.
    apply Forall_app. split; [exact Hinv|]. constructor; [|constructor].
    unfold well_timed_segment. cbn [start end_].
    unfold well_timed_result in Hres. apply andb_true_iff in Hres as [Hs He].
    apply andb_true_iff. split; apply round2_well_timed; assumption.
  - apply Forall_forall. apply forallb_forall. exact Hall.
  - constructor.
Qed.

Lemma process_results_speaker (results : list RecognizerResult) :
  Forall (fun u => speaker u = "SPK1"%string)
    (_process_results np_mean punctuator unicode_capitalize results).
Proof.
  unfold _process_results.
  apply (process_loop_invariant (fun u => speaker u = "SPK1"%string) (fun _ => True)).
  - intros processed res _ Hinv.
    destruct res as [[|first rest]|]; cbn [process_step]; try exact Hinv.
    apply Forall_app. split; [exact Hinv|]. constructor; [reflexivity|constructor].
  - apply Forall_forall. intros; exact I.
  - constructor.
Qed.

(** X13. Rounding to hundredths keeps times well formed: when the
    first word of every result starts and its last word ends at a
    finite non-negative float, so does every utterance. *)
Theorem process_results_well_timed (results : list RecognizerResult) :
  forallb well_timed_result results = true ->
  forallb well_timed_segment (_process_results np_mean punctuator unicode_capitalize results) = true.
Proof. exact (process_results_times results). Qed.

(** X14. From recognizer results with finite non-negative word times,
    normalizing, optimizing and rendering never raises: a document is
    produced, with one block per cue and at most one cue per result. *)
Theorem subtitles_of_well_timed_results (results : list RecognizerResult) :
  forallb well_timed_result results = true ->
  exists cues blocks,
    _optimize_segmentation np_mean config
      (_process_results np_mean punctuator unicode_capitalize results) = Ok cues
    /\ srt_blocks config 1 cues = Ok blocks
    /\ subtitles_of_results np_mean config punctuator unicode_capitalize results
       = Ok (String.concat nl blocks)
    /\ (List.length blocks <= List.length results)%nat.
Proof.
  intros Hall. pose proof (process_results_times results Hall) as Hutt.
  set (items := _process_results np_mean punctuator unicode_capitalize results) in *.
  rewrite forallb_forall in Hutt.
  destruct (cue_times_come_from_utterances_aux np_mean config items)
    as (cues & Hopt & Hfrom).
  assert (Hcues : forallb well_timed_segment cues = true).
  { apply forallb_forall. rewrite Forall_forall in Hfrom. intros c Hc.
    destruct (Hfrom c Hc) as (u & v & Hu & Hv & Hs & _ & He).
    pose proof (Hutt u Hu) as Hwu. pose proof (Hutt v Hv) as Hwv.
    unfold well_timed_segment in *. rewrite andb_true_iff in *.
    rewrite Hs, He. split; [apply Hwu | apply Hwv]. }
  destruct (srt_blocks_ok config cues 1 Hcues) as (blocks & Hblocks & Hlen).
  exists cues, blocks. split; [exact Hopt|]. split; [exact Hblocks|]. split.
  - unfold subtitles_of_results, subtitles_of_utterances. fold items.
    rewrite Hopt. cbn [bind]. rewrite generate_srt_blocks, Hblocks. reflexivity.
  - rewrite Hlen.
    destruct (optimize_as_merged_buffers np_mean config items) as (cues' & Hopt' & Hm).
    rewrite Hopt in Hopt'. injection Hopt' as <-.
    apply mapM_Forall2 in Hm. apply Forall2_length in Hm. rewrite <- Hm.
    apply Nat.le_trans with (List.length items).
    + pose proof (cue_buffers_concat config items) as Hcat.
      pose proof (cue_buffers_nonempty config items) as Hne.
      rewrite <- Hcat at 2. clear Hcat Hm.
      induction (cue_buffers config items) as [|g gs IH]; [apply Nat.le_refl|].
      cbn [List.concat List.length]. rewrite List.length_app.
      inversion Hne as [|? ? Hg Hgs]; subst.
      specialize (IH Hgs). destruct g as [|a g]; [contradiction|].
      cbn [List.length]. lia.
    + unfold items, _process_results. clear.
      assert (Hloop : forall processed,
                (List.length (fold_left (process_step np_mean punctuator unicode_capitalize) results processed)
                 <= List.length processed + List.length results)%nat).
      { induction results as [|res results IH]; intros processed; cbn [fold_left List.length].
        - lia.
        - specialize (IH (process_step np_mean punctuator unicode_capitalize processed res)).
          assert (List.length (process_step np_mean punctuator unicode_capitalize processed res)
                  <= S (List.length processed))%nat.
          { destruct res as [[|first rest]|]; cbn [process_step]; try lia.
            rewrite List.length_app. cbn [List.length]. lia. }
          lia. }
      apply (Hloop []).
Qed.

(** X15. Speaker labels are a placeholder: whatever the recognizer
    results, every cue of the pipeline carries the speaker [SPK1]. *)
Theorem cue_speakers_are_placeholders (results : list RecognizerResult) :
  exists cues,
    _optimize_segmentation np_mean config
      (_process_results np_mean punctuator unicode_capitalize results) = Ok cues
    /\ Forall (fun c => speaker c = "SPK1"%string) cues.
Proof.
  destruct (cue_times_come_from_utterances_aux np_mean config
              (_process_results np_mean punctuator unicode_capitalize results))
    as (cues & Hopt & Hfrom).
  exists cues. split; [exact Hopt|].
  pose proof (process_results_speaker results) as Hspk.
  rewrite Forall_forall in *. intros c Hc.
  destruct (Hfrom c Hc) as (u & _ & Hu & _ & _ & Hs & _).
  rewrite Hs. apply Hspk. exact Hu.
Qed.

End FromResults.

Lemma subtitles_of_well_timed_utterances_witness :
  exists cues doc,
    _optimize_segmentation seq_mean default_config [hello; world; third] = Ok cues
    /\ forallb well_timed_segment cues = true
    /\ _generate_srt default_config cues = Ok doc
    /\ subtitles_of_utterances seq_mean default_config [hello; world; third] = Ok doc.
Proof.
  apply (subtitles_of_well_timed_utterances seq_mean default_config [hello; world; third]).
  vm_compute. reflexivity.
Defined.

Lemma process_results_well_timed_witness :
  forallb well_timed_segment (_process_results seq_mean None capitalize_ascii sample_results) = true.
Proof.
  apply (process_results_well_timed seq_mean None capitalize_ascii sample_results).
  vm_compute. reflexivity.
Defined.

Lemma subtitles_of_well_timed_results_witness :
  exists cues blocks,
    _optimize_segmentation seq_mean default_config
      (_process_results seq_mean None capitalize_ascii sample_results) = Ok cues
    /\ srt_blocks default_config 1 cues = Ok blocks
    /\ subtitles_of_results seq_mean default_config None capitalize_ascii sample_results
       = Ok (String.concat nl blocks)
    /\ (List.length blocks <= List.length sample_results)%nat.
Proof.
  apply (subtitles_of_well_timed_results seq_mean default_config None capitalize_ascii
           sample_results).
  vm_compute. reflexivity.
Defined.

(** ** Validation of the configuration *)

Section ConfigFacts.

Variable path_exists : string -> bool.
Variable pipeline : outcome (string -> string).

Local Abbreviation validate := (_validate_config path_exists).

Lemma get_app (key k : string) (v : value) (d : dict) :
  get key (d ++ [(k, v)])
  = match get key d with
    | Some x => Some x
    | None => if String.eqb k key then Some v else None
    end.
Proof.
  induction d as [|[k' v'] d IH]; cbn [app get]; [reflexivity|].
  destruct (String.eqb k' key); [reflexivity | exact IH].
Qed.

Lemma get_setdefault (key k : string) (v : value) (d : dict) :
  get key (setdefault k v d)
  = match get key d with
    | Some x => Some x
    | None => if String.eqb k key then Some v else None
    end.
Proof.
  unfold setdefault, contains. destruct (get k d) as [x|] eqn:Hk; [|apply get_app].
  destruct (get key d) as [y|] eqn:Hkey; [reflexivity|].
  destruct (String.eqb_spec k key) as [->|_]; [congruence | reflexivity].
Qed.

Lemma setdefault_present (k : string) (v : value) (d : dict) :
  contains k d = true -> setdefault k v d = d.
Proof. intros H. unfold setdefault. rewrite H. reflexivity. Qed.

Lemma check_required_ok (keys : list string) (config : dict) :
  check_required keys config = Return tt
  <-> forall k, In k keys -> contains k config = true.
Proof.
  induction keys as [|key keys IH]; cbn [check_required].
  - split; [intros _ k [] | reflexivity].
  - destruct (contains key config) eqn:Hkey; cbn [negb].
    + rewrite IH. split.
      * intros H k [<-|Hin]; [exact Hkey | apply H, Hin].
      * intros H k Hin. apply H. right. exact Hin.
    + split; [discriminate|]. intros H.
      specialize (H key (or_introl eq_refl)). congruence.
Qed.

Lemma check_required_missing (before : list string) (key : string)
    (after : list string) (config : dict) :
  (forall k, In k before -> contains k config = true) ->
  contains key config = false ->
  check_required (before ++ key :: after) config
  = Throw (KeyError ("Missing required config key: " ++ key)%string).
Proof.
  induction before as [|k before IH]; intros Hbefore Hkey; cbn [app check_required].
  - rewrite Hkey. reflexivity.
  - rewrite (Hbefore k (or_introl eq_refl)). cbn [negb]. apply IH; [|exact Hkey].
    intros k' Hin. apply Hbefore. right. exact Hin.
Qed.

(** What a successful validation has checked and what it returns. *)
Lemma validate_inversion (config config' : dict) :
  validate config = Return config' ->
  (forall k, In k required_keys -> contains k config = true)
  /\ (exists p, get "model_path" config = Some (VStr p) /\ path_exists p = true)
  /\ config'
     = setdefault "speaker_diarization" (VBool false)
         (setdefault "target_languages" (VList ["en"%string])
            (setdefault "debug" (VBool false)
               (setdefault "audio_quality" (VInt 3)
                  (setdefault "max_lines" (VInt 2)
                     (setdefault "max_chars" (VInt 45)
                        (setdefault "max_duration" (VFloat (of_Z 8))
                           (setdefault "batch_size" (VInt 1) config))))))).
Proof.
  unfold _validate_config. intros H.
  destruct (check_required required_keys config) as [[]|e] eqn:Hreq;
    cbn [and_then] in H; [|discriminate].
  split; [exact (proj1 (check_required_ok _ _) Hreq)|].
  unfold subscript in H.
  destruct (get "model_path" config) as [[| | | |p|]|] eqn:Hmodel;
    cbn [and_then] in H; try discriminate.
  destruct (path_exists p) eqn:Hexists; cbn [negb] in H; [|discriminate].
  cbv zeta in H. injection H as <-.
  split; [exists p; split; [reflexivity | exact Hexists] | reflexivity].
Qed.

Lemma validate_returns (config : dict) (p : string) :
  (forall k, In k required_keys -> contains k config = true) ->
  get "model_path" config = Some (VStr p) ->
  path_exists p = true ->
  exists config', validate config = Return config'.
Proof.
  intros Hreq Hmodel Hexists.
  unfold _validate_config. rewrite (proj2 (check_required_ok _ _) Hreq). cbn [and_then].
  unfold subscript. rewrite Hmodel. cbn [and_then]. rewrite Hexists. cbn [negb].
  cbv zeta. eexists. reflexivity.
Qed.

Lemma validate_lookup (config config' : dict) :
  validate config = Return config' ->
  forall k,
    get k config'
    = match get k config with
      | Some v => Some v
      | None => get k defaults
      end.
Proof.
  intros H k. destruct (validate_inversion config config' H) as (_ & _ & ->).
  rewrite !get_setdefault. destruct (get k config); [reflexivity|].
  unfold defaults. cbn [get].
  repeat match goal with
         | |- context [String.eqb ?a k] => destruct (String.eqb a k); [reflexivity|]
         end.
  reflexivity.
Qed.

(** X16. Validation raises [KeyError] for the first of [video_paths],
    [output_dir] and [model_path] that the dictionary lacks, with that
    key in the message, whatever else the dictionary holds. *)
Theorem validate_config_missing_key
    (before : list string) (key : string) (after : list string) (config : dict) :
  required_keys = before ++ key :: after ->
  (forall k, In k before -> contains k config = true) ->
  contains key config = false ->
  validate config
  = Throw (KeyError ("Missing required config key: " ++ key)%string).
Proof.
  intros Hkeys Hbefore Hkey. unfold _validate_config. rewrite Hkeys.
  rewrite (check_required_missing before key after config Hbefore Hkey).
  reflexivity.
Qed.


Lemma contains_of_lookup (config config' : dict) (k : string) :
  validate config = Return config' ->
  contains k config = true \/ contains k defaults = true ->
  contains k config' = true.
Proof.
  intros H Hk. unfold contains in *. rewrite (validate_lookup config config' H k).
  destruct (get k config); [reflexivity|].
  destruct Hk as [Hk|Hk]; [discriminate | exact Hk].
Qed.

(** X18. Validation is idempotent: validating the dictionary it
    returned returns that dictionary unchanged. *)
Theorem validate_config_idempotent (config config' : dict) :
  validate config = Return config' -> validate config' = Return config'.
Proof.
  intros H. destruct (validate_inversion config config' H) as (Hreq & (p & Hmodel & Hexists) & _).
  assert (Hreq' : check_required required_keys config' = Return tt).
  { apply check_required_ok. intros k Hk.
    apply (contains_of_lookup config config' k H). left. apply Hreq, Hk. }
  assert (Hmodel' : get "model_path" config' = Some (VStr p)).
  { rewrite (validate_lookup config config' H), Hmodel. reflexivity. }
  unfold _validate_config at 1. rewrite Hreq'. cbn [and_then].
  unfold subscript. rewrite Hmodel'. cbn [and_then]. rewrite Hexists. cbn [negb].
  cbv zeta.
  assert (Hdef : forall k, contains k defaults = true -> contains k config' = true).
  { intros k Hk. apply (contains_of_lookup config config' k H). right. exact Hk. }
  repeat (rewrite (setdefault_present _ _ config') by (apply Hdef; reflexivity)).
  reflexivity.
Qed.

(** X19. [punctuation] is read but has no default: constructing the
    generator from a dictionary that passes validation and lacks this
    key raises [KeyError] on [punctuation]. *)
Theorem init_requires_punctuation (config : dict) (p : string) :
  (forall k, In k required_keys -> contains k config = true) ->
  get "model_path" config = Some (VStr p) ->
  path_exists p = true ->
  contains "punctuation" config = false ->
  __init__ path_exists pipeline config = Throw (KeyError "punctuation").
Proof.
  intros Hreq Hmodel Hexists Hpunct.
  destruct (validate_returns config p Hreq Hmodel Hexists) as [config' H].
  unfold __init__. rewrite H. cbn [and_then].
  pose proof (validate_lookup config config' H) as Hget.
  unfold _init_logging, _load_punctuation_model, subscript.
  assert (Hdebug : exists v, get "debug" config' = Some v).
  { pose proof (contains_of_lookup config config' "debug" H (or_intror eq_refl)) as Hc.
    unfold contains in Hc. destruct (get "debug" config') as [v|]; [|discriminate].
    exists v. reflexivity. }
  destruct Hdebug as [v ->]. cbn [and_then].
  rewrite (Hget "punctuation"%string).
  unfold contains in Hpunct. destruct (get "punctuation" config); [discriminate|].
  reflexivity.
Qed.

End ConfigFacts.

Lemma validate_config_missing_key_witness :
  _validate_config (fun _ => true)
    [("video_paths", VList []); ("model_path", VStr "model")]%string
  = Throw (KeyError "Missing required config key: output_dir").
Proof.
  apply (validate_config_missing_key (fun _ => true)
           ["video_paths"%string] "output_dir" ["model_path"%string]).
  - reflexivity.
  - intros k [<-|[]]. reflexivity.
  - reflexivity.
Defined.

Lemma validate_config_idempotent_witness :
  exists config',
    _validate_config (fun _ => true) minimal_config = Return config'
    /\ _validate_config (fun _ => true) config' = Return config'.
Proof.
  eexists. split; [reflexivity|].
  apply (validate_config_idempotent (fun _ => true) minimal_config). reflexivity.
Defined.

Lemma init_requires_punctuation_witness :
  __init__ (fun _ => true) (Throw (External "OSError")) minimal_config
  = Throw (KeyError "punctuation").
Proof.
  apply (init_requires_punctuation (fun _ => true) (Throw (External "OSError"))
           minimal_config "model").
  - intros k [<-|[<-|[<-|[]]]]; reflexivity.
  - reflexivity.
  - reflexivity.
  - reflexivity.
Defined.

(** ** The duration of an audio file *)

Section AudioDuration.

Import Rounding DivMod TimeCode.

#[local] Opaque one_units overflow_units.

Lemma float_of_int_small (z : Z) :
  0 <= z < 2 ^ 53 -> float_of_int z = Ok (Fin false (z * one_units)).
Proof. intros Hz. unfold float_of_int. rewrite of_Z_small by exact Hz. reflexivity. Qed.

Lemma getnframes_nonneg (wf : WaveFile) : 0 <= getnframes wf.
Proof. unfold getnframes. apply Z.div_pos; lia. Qed.

Lemma pow53_units_below_overflow : 2 ^ 53 * one_units < overflow_units.
Proof.
  rewrite overflow_units_eq. apply Z.mul_lt_mono_pos_r; [exact one_units_pos|].
  apply Z.pow_lt_mono_r; lia.
Qed.

Lemma duration_of_counts (frames rate : Z) :
  0 <= frames < 2 ^ 53 -> 0 < rate < 2 ^ 53 ->
  exists d,
    truediv (Fin false (frames * one_units)) (Fin false (rate * one_units))
    = Ok (Fin false d)
    /\ 0 <= d < overflow_units
    /\ d mod grid d = 0
    /\ forall n, frames = n * rate -> d = n * one_units.
Proof.
  intros Hf Hr. pose proof one_units_pos as Hu.
  pose proof pow53_units_below_overflow as Hbelow.
  assert (Hrate : rate * one_units <> 0) by nia.
  unfold truediv, nonzero, fdiv.
  destruct (Z.eqb_spec (rate * one_units) 0) as [Hz|_]; [contradiction|].
  cbn [negb xorb].
  destruct (Z.eqb_spec (frames * one_units) 0) as [Hzero|Hpos].
  - exists 0. split; [reflexivity|]. split; [lia|]. split.
    + apply Z.mod_0_l. pose proof (grid_pos 0). lia.
    + intros n Hn. nia.
  - set (p := frames * one_units * one_units). set (q := rate * one_units).
    assert (Hq : 0 < q) by (unfold q; nia).
    assert (Hp : 0 <= p) by (unfold p; nia).
    assert (Hle : round_units p q <= 2 ^ 1127).
    { apply round_units_le_pow2; [exact Hp | exact Hq | lia |].
      replace (2 ^ 1127) with (2 ^ 53 * one_units)
        by (rewrite one_units_eq, <- Z.pow_add_r by lia; reflexivity).
      unfold p, q.
      assert (0 < 2 ^ 53) by (apply Z.pow_pos_nonneg; lia).
      set (P := 2 ^ 53) in *. clearbody P.
      assert (frames * one_units < P * one_units) by nia.
      assert (P * one_units <= rate * (P * one_units)) by nia.
      assert (0 < one_units * one_units) by nia.
      nia. }
    assert (Hlt : round_units p q < overflow_units).
    { apply Z.le_lt_trans with (2 ^ 1127); [exact Hle|].
      replace (2 ^ 1127) with (2 ^ 53 * one_units)
        by (rewrite one_units_eq, <- Z.pow_add_r by lia; reflexivity).
      exact Hbelow. }
    exists (round_units p q). rewrite of_exact_finite by exact Hlt.
    split; [reflexivity|].
    split; [split; [apply round_units_nonneg; assumption | exact Hlt]|].
    split; [apply round_units_on_grid; [exact Hp | exact Hq]|].
    intros n Hn.
    assert (Hn0 : 0 <= n < 2 ^ 53) by nia.
    unfold p, q. rewrite Hn.
    replace (n * rate * one_units * one_units)
      with (rate * one_units * (n * one_units)) by lia.
    apply round_units_integer; [nia | exact Hn0].
Qed.

Lemma duration_zero_rate (wf : WaveFile) :
  framerate wf = 0 -> getnframes wf < 2 ^ 53 ->
  _get_audio_duration wf = Raise ZeroDivisionError.
Proof.
  intros Hrate Hframes. pose proof (getnframes_nonneg wf) as Hnn.
  unfold _get_audio_duration. rewrite Hrate.
  rewrite (float_of_int_small 0) by (split; [lia | apply Z.pow_pos_nonneg; lia]).
  cbn [bind]. rewrite (float_of_int_small (getnframes wf)) by lia. cbn [bind].
  unfold truediv, nonzero. rewrite Z.mul_0_l. reflexivity.
Qed.

(** X20. For a file with a positive frame rate the duration is a
    finite non-negative float, and a file of [n * rate] frames lasts
    exactly [n] seconds. *)
Theorem audio_duration_exact (wf : WaveFile) :
  0 < framerate wf < 2 ^ 53 -> getnframes wf < 2 ^ 53 ->
  exists duration,
    _get_audio_duration wf = Ok duration
    /\ well_timed duration = true
    /\ forall n, getnframes wf = n * framerate wf -> duration = of_Z n.
Proof.
  intros Hrate Hframes. pose proof (getnframes_nonneg wf) as Hnn.
  destruct (duration_of_counts (getnframes wf) (framerate wf) ltac:(lia) Hrate)
    as (d & Hdiv & Hd & Hgrid & Hexact).
  exists (Fin false d). split; [|split].
  - unfold _get_audio_duration.
    rewrite (float_of_int_small (framerate wf)) by lia. cbn [bind].
    rewrite (float_of_int_small (getnframes wf)) by lia. cbn [bind].
    exact Hdiv.
  - apply well_timed_intro; first [exact Hgrid | discriminate | lia].
  - intros n Hn. rewrite (Hexact n Hn). symmetry. apply of_Z_small. nia.
Qed.

End AudioDuration.

Lemma audio_duration_exact_witness :
  exists duration,
    _get_audio_duration two_frames = Ok duration
    /\ well_timed duration = true
    /\ forall n, getnframes two_frames = n * framerate two_frames -> duration = of_Z n.
Proof.
  apply (audio_duration_exact two_frames).
  - split; [reflexivity|].
    apply Z.lt_le_trans with (2 ^ 2); [reflexivity | apply Z.pow_le_mono_r; lia].
  - apply Z.lt_le_trans with (2 ^ 2); [reflexivity | apply Z.pow_le_mono_r; lia].
Defined.

(** ** Transcription *)

Section TranscriptionFacts.

Variable np_mean : list float -> float.
Variable punctuator : option (string -> string).
Variable unicode_capitalize : string -> string.
Variable Recognizer : Type.
Variable AcceptWaveform : Recognizer -> list Byte.byte -> Recognizer * bool.
Variable Result : Recognizer -> Recognizer * RecognizerResult.
Variable FinalResult : Recognizer -> Recognizer * RecognizerResult.

Local Abbreviation step := (accept_step Recognizer AcceptWaveform Result).
Local Abbreviation loop := (transcribe_loop Recognizer AcceptWaveform Result).
Local Abbreviation hear := (heard Recognizer AcceptWaveform Result).
Local Abbreviation accept := (accept_all Recognizer AcceptWaveform Result).

Lemma reads_concat (size : nat) : forall fuel remaining,
  (0 < size)%nat -> (List.length remaining <= fuel)%nat ->
  List.concat (reads fuel size remaining) = remaining.
Proof.
  induction fuel as [|fuel IH]; intros remaining Hsize Hfuel.
  - destruct remaining; [reflexivity | cbn [List.length] in Hfuel; lia].
  - cbn [reads]. destruct (firstn size remaining) as [|b chunk] eqn:Hchunk.
    + destruct remaining as [|a remaining]; [reflexivity|].
      destruct size; [lia | cbn [firstn] in Hchunk; discriminate Hchunk].
    + cbn [List.concat]. rewrite <- Hchunk. rewrite IH.
      * apply firstn_skipn.
      * exact Hsize.
      * rewrite length_skipn. destruct remaining as [|a remaining];
          [rewrite firstn_nil in Hchunk; discriminate Hchunk|].
        cbn [List.length] in *. lia.
Qed.

Lemma reads_bounded (size : nat) : forall fuel remaining,
  Forall (fun chunk => (0 < List.length chunk <= size)%nat) (reads fuel size remaining).
Proof.
  induction fuel as [|fuel IH]; intros remaining; cbn [reads]; [constructor|].
  destruct (firstn size remaining) as [|b chunk] eqn:Hchunk; [constructor|].
  constructor; [|apply IH]. rewrite <- Hchunk. split.
  - rewrite Hchunk. cbn [List.length]. lia.
  - apply firstn_le_length.
Qed.

Lemma loop_reads (wf : WaveFile) : forall fuel remaining st,
  (List.length remaining < fuel)%nat ->
  loop fuel wf remaining st
  = Some (accept st
            (reads (List.length remaining) (4000 * Pos.to_nat (framesize wf)) remaining)).
Proof.
  set (size := (4000 * Pos.to_nat (framesize wf))%nat).
  assert (Hsize : (0 < size)%nat) by (unfold size; pose proof (Pos2Nat.is_pos (framesize wf)); lia).
  assert (Hfuel : forall fuel fuel' remaining,
            (List.length remaining <= fuel)%nat -> (List.length remaining <= fuel')%nat ->
            reads fuel size remaining = reads fuel' size remaining).
  { induction fuel as [|fuel IH]; intros fuel' remaining H H'.
    - destruct remaining; [|cbn [List.length] in H; lia].
      destruct fuel'; [reflexivity|]. cbn [reads]. rewrite firstn_nil. reflexivity.
    - destruct fuel' as [|fuel'].
      + destruct remaining; [|cbn [List.length] in H'; lia].
        cbn [reads]. rewrite firstn_nil. reflexivity.
      + cbn [reads]. destruct (firstn size remaining) as [|b chunk] eqn:Hchunk; [reflexivity|].
        f_equal. destruct remaining as [|a remaining]; [rewrite firstn_nil in Hchunk; discriminate|].
        apply IH; rewrite length_skipn; cbn [List.length] in *; lia. }
  induction fuel as [|fuel IH]; intros remaining st Hlt; [lia|].
  cbn [transcribe_loop]. unfold readframes. fold size.
  destruct remaining as [|a remaining].
  - rewrite firstn_nil. reflexivity.
  - cbn [List.length reads].
    destruct (firstn size (a :: remaining)) as [|b chunk] eqn:Hchunk.
    + destruct size; [lia | cbn [firstn] in Hchunk; discriminate Hchunk].
    + cbn [accept_all]. destruct (step st (b :: chunk)) as [st'|e]; [|reflexivity].
      rewrite IH by (rewrite length_skipn; cbn [List.length] in *; lia).
      f_equal. f_equal. apply Hfuel; rewrite length_skipn; cbn [List.length]; lia.
Qed.

Lemma accept_all_heard : forall chunks recognizer results n,
  (forallb has_key (snd (hear recognizer chunks)) = true ->
   exists n',
     accept (recognizer, results, n) chunks
     = Return (fst (hear recognizer chunks),
               results ++ snd (hear recognizer chunks), n'))
  /\ (forallb has_key (snd (hear recognizer chunks)) = false ->
      accept (recognizer, results, n) chunks = Throw (KeyError "result")).
Proof.
  induction chunks as [|chunk chunks IH]; intros recognizer results n.
  - cbn [heard accept_all fst snd forallb]. split; [|discriminate].
    intros _. exists n. rewrite app_nil_r. reflexivity.
  - cbn [heard accept_all]. unfold accept_step.
    destruct (AcceptWaveform recognizer chunk) as [recognizer1 accepted].
    destruct accepted.
    + destruct (Result recognizer1) as [recognizer2 result].
      destruct (hear recognizer2 chunks) as [final rest] eqn:Hrest.
      cbn [fst snd forallb].
      destruct result as [words|]; cbn [has_key andb].
      * assert (Hcont : forall n1,
                  (forallb has_key rest = true ->
                   exists n',
                     accept (recognizer2, results ++ [Some words], n1) chunks
                     = Return (final, results ++ Some words :: rest, n'))
                  /\ (forallb has_key rest = false ->
                      accept (recognizer2, results ++ [Some words], n1) chunks
                      = Throw (KeyError "result"))).
        { intros n1. specialize (IH recognizer2 (results ++ [Some words]) n1).
          rewrite Hrest in IH. cbn [fst snd] in IH.
          rewrite <- List.app_assoc in IH. exact IH. }
        destruct words as [|first words]; apply Hcont.
      * split; [discriminate | reflexivity].
    + apply IH.
Qed.

(** X21. The recognizer hears the whole data chunk, in order, in reads
    of at most 4000 frames.  When every result it reports on the way
    has the key [result], the utterances of those results and of the
    final result are returned; when one lacks the key the call raises
    [KeyError], although the same result would be skipped as the final
    one. *)
Theorem transcribe_audio_hears_everything (fuel : nat) (recognizer : Recognizer)
    (wf : WaveFile) (duration : float) :
  _get_audio_duration wf = Ok duration ->
  (List.length (data wf) < fuel)%nat ->
  exists chunks,
    List.concat chunks = data wf
    /\ Forall (fun chunk =>
                 (0 < List.length chunk <= 4000 * Pos.to_nat (framesize wf))%nat) chunks
    /\ _transcribe_audio np_mean punctuator unicode_capitalize Recognizer AcceptWaveform Result FinalResult
         fuel recognizer wf
       = Some (if forallb has_key (snd (hear recognizer chunks))
               then Return (_process_results np_mean punctuator unicode_capitalize
                              (snd (hear recognizer chunks)
                               ++ [snd (FinalResult (fst (hear recognizer chunks)))]))
               else Throw (KeyError "result")).
Proof.
  intros Hduration Hfuel.
  set (size := (4000 * Pos.to_nat (framesize wf))%nat).
  assert (Hsize : (0 < size)%nat) by (unfold size; pose proof (Pos2Nat.is_pos (framesize wf)); lia).
  exists (reads (List.length (data wf)) size (data wf)).
  split; [apply reads_concat; [exact Hsize | apply Nat.le_refl]|].
  split; [apply reads_bounded|].
  unfold _transcribe_audio. rewrite Hduration.
  rewrite (loop_reads wf fuel (data wf) _ Hfuel). fold size.
  destruct (accept_all_heard (reads (List.length (data wf)) size (data wf))
              recognizer [] zero) as [Hall Hmissing].
  destruct (forallb has_key
              (snd (hear recognizer (reads (List.length (data wf)) size (data wf))))).
  - destruct (Hall eq_refl) as [n' ->]. cbn [app].
    destruct (FinalResult (fst (hear recognizer (reads (List.length (data wf)) size (data wf)))))
      as [r final].
    reflexivity.
  - rewrite (Hmissing eq_refl). reflexivity.
Qed.

(** X22. With a frame rate of zero the call raises
    [ZeroDivisionError] while computing the duration, before the
    recognizer hears anything. *)
Theorem transcribe_audio_zero_rate (fuel : nat) (recognizer : Recognizer)
    (wf : WaveFile) :
  framerate wf = 0 -> getnframes wf < 2 ^ 53 ->
  _transcribe_audio np_mean punctuator unicode_capitalize Recognizer AcceptWaveform Result FinalResult
    fuel recognizer wf
  = Some (Throw (Core ZeroDivisionError)).
Proof.
  intros Hrate Hframes. unfold _transcribe_audio.
  rewrite (duration_zero_rate wf Hrate Hframes). reflexivity.
Qed.

End TranscriptionFacts.

Lemma small_file (wf : WaveFile) :
  (List.length (data wf) <= 4)%nat -> getnframes wf < 2 ^ 53.
Proof.
  intros Hlen. unfold getnframes.
  apply Z.le_lt_trans with (Z.of_nat (List.length (data wf))).
  - apply Z.div_le_upper_bound; [lia|]. nia.
  - apply Z.lt_le_trans with (2 ^ 3); [cbn; lia | apply Z.pow_le_mono_r; lia].
Qed.

Lemma transcribe_audio_hears_everything_witness :
  exists chunks,
    List.concat chunks = data two_frames
    /\ Forall (fun chunk =>
                 (0 < List.length chunk <= 4000 * Pos.to_nat (framesize two_frames))%nat)
         chunks
    /\ _transcribe_audio seq_mean None capitalize_ascii nat counting_accept counting_result counting_result
         5 0%nat two_frames
       = Some (if forallb has_key (snd (heard nat counting_accept counting_result 0%nat chunks))
               then Return (_process_results seq_mean None capitalize_ascii
                              (snd (heard nat counting_accept counting_result 0%nat chunks)
                               ++ [snd (counting_result
                                          (fst (heard nat counting_accept counting_result
                                                  0%nat chunks)))]))
               else Throw (KeyError "result")).
Proof.
  apply (transcribe_audio_hears_everything seq_mean None capitalize_ascii nat counting_accept
           counting_result counting_result 5 0%nat two_frames (of_Z 1)).
  - vm_compute. reflexivity.
  - cbn. lia.
Defined.

Lemma transcribe_audio_zero_rate_witness :
  _transcribe_audio seq_mean None capitalize_ascii nat counting_accept counting_result counting_result
    0 0%nat {| framerate := 0; framesize := 2; data := [Byte.x00; Byte.x01] |}
  = Some (Throw (Core ZeroDivisionError)).
Proof.
  apply (transcribe_audio_zero_rate seq_mean None capitalize_ascii nat counting_accept
           counting_result counting_result 0 0%nat).
  - reflexivity.
  - apply small_file. cbn. lia.
Defined.

(** ** The videos and the generator of [main] *)

Section DiscoveryFacts.

Variable isdir : string -> bool.
Variable walk : string -> list (string * list string).
Variable join : string -> string -> string.

Local Abbreviation file_step := (collect_file join).
Local Abbreviation walk_step := (collect_walk join).
Local Abbreviation input_step := (collect_input isdir walk join).

Lemma collect_files_in (root : string) (files : list string) : forall acc p,
  In p (fold_left (file_step root) files acc)
  <-> In p acc
      \/ exists file,
           In file files
           /\ ends_with_any video_suffixes (lower file) = true
           /\ p = join root file.
Proof.
  induction files as [|file files IH]; intros acc p; cbn [fold_left].
  - split; [intros H; left; exact H | intros [H|(file & [] & _)]; exact H].
  - rewrite IH. unfold collect_file.
    destruct (ends_with_any video_suffixes (lower file)) eqn:Hvideo.
    + rewrite in_app_iff. cbn [In]. split.
      * intros [[H|[H|[]]]|(f & Hf & Hv & Hp)].
        -- left. exact H.
        -- right. exists file. repeat split; [left; reflexivity | exact Hvideo | symmetry; exact H].
        -- right. exists f. repeat split; [right; exact Hf | exact Hv | exact Hp].
      * intros [H|(f & [<-|Hf] & Hv & Hp)].
        -- left. left. exact H.
        -- left. right. left. symmetry. exact Hp.
        -- right. exists f. repeat split; assumption.
    + split.
      * intros [H|(f & Hf & Hv & Hp)]; [left; exact H|].
        right. exists f. repeat split; [right; exact Hf | exact Hv | exact Hp].
      * intros [H|(f & [<-|Hf] & Hv & Hp)]; [left; exact H | congruence |].
        right. exists f. repeat split; assumption.
Qed.

Lemma collect_walk_in (entries : list (string * list string)) : forall acc p,
  In p (fold_left walk_step entries acc)
  <-> In p acc
      \/ exists root files file,
           In (root, files) entries
           /\ In file files
           /\ ends_with_any video_suffixes (lower file) = true
           /\ p = join root file.
Proof.
  induction entries as [|[root files] entries IH]; intros acc p; cbn [fold_left].
  - split; [intros H; left; exact H | intros [H|(r & fs & f & [] & _)]; exact H].
  - rewrite IH. unfold collect_walk. rewrite collect_files_in. split.
    + intros [[H|(f & Hf & Hv & Hp)]|(r & fs & f & He & Hf & Hv & Hp)].
      * left. exact H.
      * right. exists root, files, f. repeat split; [left; reflexivity | | |]; assumption.
      * right. exists r, fs, f. repeat split; [right; exact He | | |]; assumption.
    + intros [H|(r & fs & f & [He|He] & Hf & Hv & Hp)].
      * left. left. exact H.
      * injection He as <- <-. left. right. exists f. repeat split; assumption.
      * right. exists r, fs, f. repeat split; assumption.
Qed.

Lemma collect_inputs_in (inputs : list string) : forall acc p,
  In p (fold_left input_step inputs acc)
  <-> In p acc
      \/ (In p inputs /\ isdir p = false)
      \/ exists dir root files file,
           In dir inputs /\ isdir dir = true
           /\ In (root, files) (walk dir)
           /\ In file files
           /\ ends_with_any video_suffixes (lower file) = true
           /\ p = join root file.
Proof.
  induction inputs as [|input inputs IH]; intros acc p; cbn [fold_left].
  - split; [intros H; left; exact H|].
    intros [H|[[[] _]|(d & r & fs & f & [] & _)]]. exact H.
  - rewrite IH. unfold collect_input. destruct (isdir input) eqn:Hdir.
    + rewrite collect_walk_in. split.
      * intros [[H|(r & fs & f & He & Hf & Hv & Hp)]|[[Hin Hd]|(d & r & fs & f & Hd & Hdd & He & Hf & Hv & Hp)]].
        -- left. exact H.
        -- right. right. exists input, r, fs, f.
           repeat split; [left; reflexivity | | | | |]; assumption.
        -- right. left. split; [right; exact Hin | exact Hd].
        -- right. right. exists d, r, fs, f.
           repeat split; [right; exact Hd | | | | |]; assumption.
      * intros [H|[[[<-|Hin] Hd]|(d & r & fs & f & [<-|Hd] & Hdd & He & Hf & Hv & Hp)]].
        -- left. left. exact H.
        -- congruence.
        -- right. left. split; assumption.
        -- left. right. exists r, fs, f. repeat split; assumption.
        -- right. right. exists d, r, fs, f. repeat split; assumption.
    + rewrite in_app_iff. cbn [In]. split.
      * intros [[H|[<-|[]]]|[[Hin Hd]|(d & r & fs & f & Hd & Hdd & He & Hf & Hv & Hp)]].
        -- left. exact H.
        -- right. left. split; [left; reflexivity | exact Hdir].
        -- right. left. split; [right; exact Hin | exact Hd].
        -- right. right. exists d, r, fs, f.
           repeat split; [right; exact Hd | | | | |]; assumption.
      * intros [H|[[[<-|Hin] Hd]|(d & r & fs & f & [<-|Hd] & Hdd & He & Hf & Hv & Hp)]].
        -- left. left. exact H.
        -- left. right. left. reflexivity.
        -- right. left. split; assumption.
        -- congruence.
        -- right. right. exists d, r, fs, f. repeat split; assumption.
Qed.

(** X23. The videos [main] processes are the inputs that are not
    directories, kept whatever their name, and the files found under
    the directories whose lower-cased name ends in [.mp4], [.mkv],
    [.avi] or [.mov]; nothing else is collected. *)
Theorem collected_videos (inputs : list string) (p : string) :
  In p (collect_video_paths isdir walk join inputs)
  <-> (In p inputs /\ isdir p = false)
      \/ exists dir root files file,
           In dir inputs /\ isdir dir = true
           /\ In (root, files) (walk dir)
           /\ In file files
           /\ ends_with_any video_suffixes (lower file) = true
           /\ p = join root file.
Proof.
  unfold collect_video_paths. rewrite collect_inputs_in. cbn [In]. tauto.
Qed.

(** X24. Inputs that are not directories are taken as they are: no
    suffix is checked, and their order and repetitions are kept. *)
Theorem plain_inputs_pass_unfiltered (inputs : list string) :
  (forall p, In p inputs -> isdir p = false) ->
  collect_video_paths isdir walk join inputs = inputs.
Proof.
  intros Hplain. unfold collect_video_paths.
  assert (Hloop : forall acc, fold_left input_step inputs acc = acc ++ inputs).
  { induction inputs as [|input inputs IH]; intros acc; cbn [fold_left].
    - rewrite app_nil_r. reflexivity.
    - unfold collect_input. rewrite (Hplain input (or_introl eq_refl)).
      rewrite IH by (intros p Hp; apply Hplain; right; exact Hp).
      rewrite <- List.app_assoc. reflexivity. }
  apply (Hloop []).
Qed.

End DiscoveryFacts.

Lemma plain_inputs_pass_unfiltered_witness :
  collect_video_paths (fun _ => false) (fun _ => []) append
    ["notes.txt"; "talk.mp4"; "notes.txt"]%string
  = ["notes.txt"; "talk.mp4"; "notes.txt"]%string.
Proof.
  apply (plain_inputs_pass_unfiltered (fun _ => false) (fun _ => []) append).
  intros p _. reflexivity.
Defined.

Section MainConstructs.

Variable path_exists : string -> bool.
Variable pipeline : outcome (string -> string).

(** X25. The dictionary of [main] always passes the key checks: the
    constructor raises [FileNotFoundError] when the model path does not
    exist, hands on what loading the punctuation model raises when
    [--punctuation] is given, and otherwise returns a generator whose
    dictionary is that of [main] followed by the three defaults it
    lacked. *)
Theorem init_from_main (args : Args) (video_paths : list string) :
  __init__ path_exists pipeline (config_of_args args video_paths)
  = if negb (path_exists (model args))
    then Throw (FileNotFoundError ("Model path not found: " ++ model args)%string)
    else
      let config :=
        config_of_args args video_paths
        ++ [ ("batch_size", VInt 1); ("audio_quality", VInt 3);
             ("target_languages", VList ["en"]) ]%string in
      let level := if debug args then DEBUG else INFO in
      if punctuation args then
        generate <~ pipeline ;;
        Return {| self_config := config;
                  self_punctuator := Some generate;
                  log_level := level |}
      else
        Return {| self_config := config;
                  self_punctuator := None;
                  log_level := level |}.
Proof.
  unfold __init__, _validate_config, config_of_args.
  cbn -[of_Z append]. destruct (path_exists (model args)); cbn -[of_Z append]; [|reflexivity].
  destruct (punctuation args); cbn -[of_Z append]; [|reflexivity].
  destruct pipeline; reflexivity.
Qed.

End MainConstructs.

(** ** Chronological order *)

Lemma fleb_trans (x y z : float) :
  fleb x y = true -> fleb y z = true -> fleb x z = true.
Proof.
  unfold fleb, fcompare.
  destruct x as [|[|]|a m], y as [|[|]|b n], z as [|[|]|c k];
    intros H1 H2; try discriminate; try reflexivity.
  destruct (Z.compare_spec (signed a m) (signed b n));
    destruct (Z.compare_spec (signed b n) (signed c k));
    destruct (Z.compare_spec (signed a m) (signed c k));
    try discriminate; try reflexivity; lia.
Qed.

Lemma last_cons_default {A : Type} (a : A) (l : list A) (d1 d2 : A) :
  last (a :: l) d1 = last (a :: l) d2.
Proof.
  revert a. induction l as [|x l IH]; intros a; [reflexivity|].
  change (last (x :: l) d1 = last (x :: l) d2). apply IH.
Qed.

Lemma all_adjacent_app {A : Type} (R : A -> A -> Prop) (l1 l2 : list A) :
  all_adjacent R (l1 ++ l2) ->
  all_adjacent R l1 /\ all_adjacent R l2
  /\ forall a l1' b l2', l1 = a :: l1' -> l2 = b :: l2' -> R (last l1 a) b.
Proof.
  induction l1 as [|a l1 IH]; intros H.
  - split; [exact I|]. split; [exact H|]. discriminate.
  - destruct l1 as [|a' l1].
    + cbn [app] in H. split; [exact I|].
      destruct l2 as [|b l2]; [split; [exact I|discriminate]|].
      cbn [all_adjacent] in H. destruct H as [Hab H].
      split; [exact H|]. intros a0 l1' b0 l2' Ha Hb.
      injection Hb as <- <-. exact Hab.
    + cbn [app all_adjacent] in H. destruct H as [Haa H].
      destruct (IH H) as (H1 & H2 & Hlast).
      split; [cbn [all_adjacent]; split; assumption|].
      split; [exact H2|]. intros a0 l1' b l2' Ha Hb.
      specialize (Hlast a' l1 b l2' eq_refl Hb).
      change (last (a :: a' :: l1) a0) with (last (a' :: l1) a0).
      rewrite (last_cons_default a' l1 a0 a'). exact Hlast.
Qed.

Section Chronology.

Variable np_mean : list float -> float.
Variable config : Config.

Lemma chronological_span (rest : list Segment) : forall first,
  chronological (first :: rest) ->
  fleb (start first) (end_ (last (first :: rest) first)) = true.
Proof.
  induction rest as [|second rest IH]; intros first [Hall Hadj].
  - inversion Hall; assumption.
  - inversion Hall as [|? ? Hfirst Hrest]; subst.
    cbn [all_adjacent] in Hadj. destruct Hadj as [Hnext Hadj].
    specialize (IH second (conj Hrest Hadj)).
    change (last (first :: second :: rest) first) with (last (second :: rest) first).
    pose proof (last_cons_default second rest first second) as Hd.
    rewrite Hd. apply fleb_trans with (end_ first); [exact Hfirst|].
    apply fleb_trans with (start second); assumption.
Qed.

Lemma merged_chronological (groups : list (list Segment)) (cues : list Segment) :
  Forall2 (fun g c => _merge_segment np_mean g = Ok c) groups cues ->
  chronological (List.concat groups) -> chronological cues.
Proof.
  induction 1 as [|g c groups cues Hgc Hrest IH]; intros Hchron.
  - split; [constructor | exact I].
  - cbn [List.concat] in Hchron. destruct Hchron as [Hall Hadj].
    apply Forall_app in Hall as [Hg Hgs].
    destruct (all_adjacent_app _ _ _ Hadj) as (Hadj_g & Hadj_gs & Hlast).
    destruct (IH (conj Hgs Hadj_gs)) as [Hcues_all Hcues_adj].
    destruct (merge_fields np_mean g c Hgc) as (first & rest & -> & Hs & He & _).
    split.
    + constructor; [|exact Hcues_all].
      rewrite Hs, He. apply chronological_span. split; assumption.
    + destruct Hrest as [|g2 c2 groups cues Hgc2 Hrest]; [exact I|].
      cbn [all_adjacent]. split; [|exact Hcues_adj].
      destruct (merge_fields np_mean g2 c2 Hgc2) as (first2 & rest2 & -> & Hs2 & _).
      rewrite He, Hs2.
      apply (Hlast first rest first2 (rest2 ++ List.concat groups)); reflexivity.
Qed.

(** X26. Cues keep the chronology of the utterances: when no utterance
    ends before it starts or starts before the previous one has ended,
    the same holds of the cues, so that no two cues overlap. *)
Theorem cues_stay_chronological (items : list Utterance) :
  chronological items ->
  exists cues,
    _optimize_segmentation np_mean config items = Ok cues
    /\ chronological cues.
Proof.
  intros Hchron.
  destruct (optimize_as_merged_buffers np_mean config items) as (cues & Hopt & Hm).
  exists cues. split; [exact Hopt|].
  apply mapM_Forall2 in Hm. apply (merged_chronological _ _ Hm).
  rewrite cue_buffers_concat. exact Hchron.
Qed.

End Chronology.

Lemma cues_stay_chronological_witness :
  exists cues,
    _optimize_segmentation seq_mean default_config [hello; world; third] = Ok cues
    /\ chronological cues.
Proof.
  apply (cues_stay_chronological seq_mean default_config [hello; world; third]).
  split.
  - repeat constructor; vm_compute; reflexivity.
  - cbn [all_adjacent]. repeat split; vm_compute; reflexivity.
Defined.
